(** * Renter chunk scheduler: upload heap, repair loop, download workers and
      download planner of the Sia renter, embedded in Rocq.

    The definitions below follow the Go sources of the renter package:
    - uploadheap.go        (uploadChunkHeap, uploadHeap, buildUnfinishedChunks,
                            managedRepairLoop),
    - workerdownload.go    (managedDownload, managedUnregisterWorker,
                            ownedOnDownloadCooldown, ownedProcessDownloadChunk),
    - download.go          (managedCancel, managedFail, markComplete,
                            Download, managedDownload, managedNewDownload),
    - siafile/snapshot.go  (ChunkIndexByOffset, ChunkSize, NumChunks, Size).

    Go [int] and [uint64] values are integers of [Z]; where the source relies
    on 64-bit unsigned arithmetic the wrap-around is written out.  Maps used as
    sets are [gset], maps are [gmap], slices are lists.  Critical sections
    guarded by a mutex are atomic steps of the model. *)

From Stdlib Require Import ZArith QArith Lia Lqa List Permutation.
From stdpp Require Import gmap strings list.

#[local] Set Warnings "-clear-no-such-hyp".

Local Open Scope Z_scope.

(** ** Floating point quotients

    [uploadChunkHeap.Less] compares [float64(a)/float64(b)] quotients of two
    Go ints.  The model keeps the IEEE special cases of a division by zero and
    represents a finite quotient by the exact rational; for operands below
    2^26 (piece counts are far smaller) two distinct rationals a/b differ by
    more than one unit in the last place, so comparing the rounded quotients
    and comparing the exact ones agree. *)
Module Float.

Inductive quotient :=
| NaN
| Inf (negative : bool)
| Fin (q : Q).

(** [float64(a) / float64(b)], kept as the exact quotient.  The float64
    division rounds its result to 53 bits: two quotients a/b and c/d with
    |a|, |c|, b, d below 2^26 that differ do so by more than their rounding
    errors (they are at least 1/(b*d) apart, the two errors are together
    below (|a|*d + |c|*b)/(b*d) / 2^53 < 1/(b*d)), so on such counts the
    comparison of the rounded quotients is that of the exact ones.  For
    larger counts the code can find two different quotients equal; the facts
    that depend on the value of the quotient are stated for counts below
    2^26 ([exactCounts]). *)
Definition div (a b : Z) : quotient :=
  match b with
  | Z0 => if a =? 0 then NaN else Inf (a <? 0)
  | Zpos p => Fin (a # p)
  | Zneg p => Fin ((- a) # p)
  end.

Definition Qltb (x y : Q) : bool :=
  (Qnum x * Zpos (Qden y) <? Qnum y * Zpos (Qden x)).

(** The [<] of two float64 values: false as soon as one side is NaN. *)
Definition lt (x y : quotient) : bool :=
  match x, y with
  | NaN, _ | _, NaN => false
  | Inf true, Inf true => false
  | Inf true, _ => true
  | Inf false, _ => false
  | Fin _, Inf s => negb s
  | Fin p, Fin q => Qltb p q
  end.

End Float.

(** ** Upload chunks *)

(** [uploadChunkID]: the file's UID and the chunk index (a uint64). *)
Record uploadChunkID := mkUploadChunkID {
  fileUID : string;
  chunkIdx : Z
}.

#[global] Instance uploadChunkID_eq_dec : EqDecision uploadChunkID.
Proof. solve_decision. Defined.

#[global] Instance uploadChunkID_countable : Countable uploadChunkID.
Proof.
  refine (inj_countable' (fun i => (fileUID i, chunkIdx i))
                         (fun p => mkUploadChunkID p.1 p.2) _).
  intros []; reflexivity.
Defined.

(** The fields of [unfinishedUploadChunk] that the scheduler reads and writes.
    [fileEntry] is the handle of the chunk's siafile entry, identified by the
    file's UID. *)
Module UUC.
Record t := mk {
  fileEntry : string;
  id : uploadChunkID;
  index : Z;
  length : Z;
  offset : Z;
  memoryNeeded : Z;
  minimumPieces : Z;
  piecesNeeded : Z;
  stuck : bool;
  stuckRepair : bool;
  piecesCompleted : Z;
  pieceUsage : list bool;
  unusedHosts : gset string
}.
End UUC.

Abbreviation unfinishedUploadChunk := UUC.t.

(** ** The upload heap (uploadheap.go) *)
Module UploadHeap.

(** [type uploadChunkHeap []*unfinishedUploadChunk] *)
Abbreviation uploadChunkHeap := (list unfinishedUploadChunk).

(** The completion quotient [float64(piecesCompleted)/float64(piecesNeeded)]. *)
Definition completion (c : unfinishedUploadChunk) : Float.quotient :=
  Float.div (UUC.piecesCompleted c) (UUC.piecesNeeded c).

(** Piece counts for which the float64 quotient compares as the exact
    quotient: a positive [piecesNeeded], and both counts below 2^26 in
    absolute value. *)
Definition exactCounts (c : unfinishedUploadChunk) : Prop :=
  Z.abs (UUC.piecesCompleted c) < 2 ^ 26 /\ 0 < UUC.piecesNeeded c < 2 ^ 26.

(** The body of [Less] on the two chunks [uch[i]] and [uch[j]]. *)
Definition chunkLess (ci cj : unfinishedUploadChunk) : bool :=
  if UUC.stuck ci && UUC.stuck cj then Float.lt (completion ci) (completion cj)
  else if UUC.stuck ci then true
  else if UUC.stuck cj then false
  else Float.lt (completion ci) (completion cj).

(** [func (uch uploadChunkHeap) Less(i, j int) bool].  An index outside the
    slice makes the Go code panic; container/heap never passes one (its
    indices are below [Len]), the model answers [false] there. *)
Definition Less (uch : uploadChunkHeap) (i j : nat) : bool :=
  match uch !! i, uch !! j with
  | Some ci, Some cj => chunkLess ci cj
  | _, _ => false
  end.

(** [uch[i], uch[j] = uch[j], uch[i]] *)
Definition Swap (uch : uploadChunkHeap) (i j : nat) : uploadChunkHeap :=
  match uch !! i, uch !! j with
  | Some ci, Some cj => <[i := cj]> (<[j := ci]> uch)
  | _, _ => uch
  end.

(** [func (uch *uploadChunkHeap) Push(x interface{})]: a plain append. *)
Definition Push (uch : uploadChunkHeap) (x : unfinishedUploadChunk) : uploadChunkHeap :=
  uch ++ [x].

(** [func (uch *uploadChunkHeap) Pop() interface{}]: removes the last element. *)
Definition Pop (uch : uploadChunkHeap) : option unfinishedUploadChunk * uploadChunkHeap :=
  let n := List.length uch in
  (uch !! (n - 1)%nat, take (n - 1)%nat uch).

(** The child of [i] that [down] compares with [i]: the left one [j1], or the
    right one [j2] when it lies below [n] and is less than the left one. *)
Definition pickChild (h : uploadChunkHeap) (i n : nat) : nat :=
  let j1 := (2 * i + 1)%nat in
  let j2 := (j1 + 1)%nat in
  if (j2 <? n)%nat && Less h j2 j1 then j2 else j1.

(** [down] of Go's container/heap: sift the element at [i] down within the
    first [n] elements.  Each round moves [i] to one of its children, so at
    most [n] rounds run; [fuel] bounds them (see [down_fuel]). *)
Fixpoint down (fuel : nat) (h : uploadChunkHeap) (i n : nat) : uploadChunkHeap :=
  match fuel with
  | O => h
  | S fuel' =>
      if (n <=? 2 * i + 1)%nat then h
      else
        let j := pickChild h i n in
        if negb (Less h j i) then h
        else down fuel' (Swap h i j) j n
  end.

(** [heap.Pop] of container/heap:
    [n := h.Len() - 1; h.Swap(0, n); down(h, 0, n); return h.Pop()]. *)
Definition heapPop (h : uploadChunkHeap) : option unfinishedUploadChunk * uploadChunkHeap :=
  let n := (List.length h - 1)%nat in
  Pop (down n (Swap h 0 n) 0 n).

(** [type uploadHeap struct]: the heap and its two id sets. *)
Record uploadHeap := mkUploadHeap {
  heap : uploadChunkHeap;
  heapChunks : gset uploadChunkID;
  repairingChunks : gset uploadChunkID
}.

Definition emptyHeap : uploadHeap :=
  {| heap := []; heapChunks := ∅; repairingChunks := ∅ |}.

(** [func (uh *uploadHeap) managedLen() int] *)
Definition managedLen (uh : uploadHeap) : Z := Z.of_nat (List.length (heap uh)).

(** [func (uh *uploadHeap) managedPush(uuc *unfinishedUploadChunk)] *)
Definition managedPush (uh : uploadHeap) (uuc : unfinishedUploadChunk) : uploadHeap :=
  let inHeap := bool_decide (UUC.id uuc ∈ heapChunks uh) in
  let inRepair := bool_decide (UUC.id uuc ∈ repairingChunks uh) in
  if negb inHeap && negb inRepair then
    {| heap := Push (heap uh) uuc;
       heapChunks := {[UUC.id uuc]} ∪ heapChunks uh;
       repairingChunks := repairingChunks uh |}
  else uh.

(** [func (uh *uploadHeap) managedPop() (uc *unfinishedUploadChunk)] *)
Definition managedPop (uh : uploadHeap) : option unfinishedUploadChunk * uploadHeap :=
  if (0 <? List.length (heap uh))%nat then
    match heapPop (heap uh) with
    | (Some uc, h') =>
        (Some uc, {| heap := h';
                     heapChunks := heapChunks uh ∖ {[UUC.id uc]};
                     repairingChunks := repairingChunks uh |})
    | (None, h') => (None, uh)
    end
  else (None, uh).

(** Sequences of heap operations. *)
Inductive heapOp :=
| OpPush (uuc : unfinishedUploadChunk)
| OpPop.

Definition stepOp (uh : uploadHeap) (o : heapOp) : uploadHeap :=
  match o with
  | OpPush uuc => managedPush uh uuc
  | OpPop => (managedPop uh).2
  end.

Definition runOps (ops : list heapOp) (uh : uploadHeap) : uploadHeap :=
  foldl stepOp uh ops.

(** Pop [k] times, collecting the popped chunks in order. *)
Fixpoint popN (k : nat) (uh : uploadHeap) : list unfinishedUploadChunk * uploadHeap :=
  match k with
  | O => ([], uh)
  | S k' =>
      match managedPop uh with
      | (Some c, uh') => let '(cs, uh'') := popN k' uh' in (c :: cs, uh'')
      | (None, uh') => ([], uh')
      end
  end.

(** The invariant of the heap: [heapChunks] is the set of the ids in the
    slice, no id occurs twice there, and none is in [repairingChunks]. *)
Definition heapInv (uh : uploadHeap) : Prop :=
  NoDup (UUC.id <$> heap uh)
  /\ heapChunks uh = list_to_set (UUC.id <$> heap uh)
  /\ heapChunks uh ## repairingChunks uh.

(** The chunks of the heap tests (TestUploadHeap): only the id, the stuck
    flag and the two piece counts are set, every other field has its zero
    value. *)
Definition testChunk (uid : string) (i : Z) (isStuck : bool) (completed needed : Z) :
    unfinishedUploadChunk :=
  {| UUC.fileEntry := uid;
     UUC.id := {| fileUID := uid; chunkIdx := i |};
     UUC.index := 0; UUC.length := 0; UUC.offset := 0;
     UUC.memoryNeeded := 0; UUC.minimumPieces := 0;
     UUC.piecesNeeded := needed;
     UUC.stuck := isStuck; UUC.stuckRepair := false;
     UUC.piecesCompleted := completed;
     UUC.pieceUsage := []; UUC.unusedHosts := ∅ |}.

(** Scenario S6 of the specification, with the piece counts of
    TestUploadHeap: (stuck, 1/1), (stuck, 2/1), (unstuck, 1/1), (unstuck, 2/1). *)
Definition orderingScenario : list unfinishedUploadChunk :=
  [ testChunk "stuck" 1 true 1 1;
    testChunk "stuck" 2 true 2 1;
    testChunk "unstuck" 1 false 1 1;
    testChunk "unstuck" 2 false 2 1 ].

(** Push the chunks of a list, one after the other, into the empty heap. *)
Definition pushAll (cs : list unfinishedUploadChunk) : uploadHeap :=
  foldl managedPush emptyHeap cs.

End UploadHeap.


(** ** The repair loop (uploadheap.go, [managedRepairLoop]) *)
Module RepairLoop.
Import UploadHeap.

(** What the loop reads from outside the heap.  [stopped k] says that the
    stop channel or the rebuild signal is ready at the start of round [k],
    [online k] is [r.g.Online()], [workerPoolSize k] is [len(r.workerPool)]
    and [memoryGranted k] the answer of [memoryManager.Request] in that
    round.  [cachedHealth] is the health [CachedHealth()] reports for a file
    entry; the float64 is kept as a rational. *)
Record env := {
  stopped : nat -> bool;
  online : nat -> bool;
  cachedHealth : string -> Q;
  workerPoolSize : nat -> Z;
  memoryGranted : nat -> bool;
  maxConsecutiveChunkRepairs : Z
}.

(** What a round of the loop does to the world outside the heap, in the
    order in which it does it. *)
Inductive event :=
| EvPop (c : unfinishedUploadChunk)
| EvUpdateRecentRepairTime (entry : string)
| EvSetStuck (entry : string) (index : Z)
| EvBubbleMetadata (entry : string)
| EvMemoryRequest (c : unfinishedUploadChunk) (granted : bool)
| EvFetchAndRepair (c : unfinishedUploadChunk)
| EvDrained (popped repushed : list unfinishedUploadChunk).

Definition isUpdateRecentRepairTime (e : event) : bool :=
  match e with EvUpdateRecentRepairTime _ => true | _ => false end.

(** The threshold of [if health < 0.8]. *)
Definition healthThreshold : Q := 8 # 10.

(** [health, _, _ := nextChunk.fileEntry.CachedHealth();
     if health < 0.8 { nextChunk.fileEntry.UpdateRecentRepairTime() }] *)
Definition checkHealth (e : env) (nextChunk : unfinishedUploadChunk) : list event :=
  let health := cachedHealth e (UUC.fileEntry nextChunk) in
  if Float.Qltb health healthThreshold
  then [EvUpdateRecentRepairTime (UUC.fileEntry nextChunk)]
  else [].

(** [managedPrepareNextChunk]: ask for the chunk's memory and, when it is
    granted, start [threadedFetchAndRepairChunk], which owns the memory from
    then on and releases it when the chunk is done. *)
Definition managedPrepareNextChunk (granted : bool) (uuc : unfinishedUploadChunk) : list event :=
  if negb granted then [EvMemoryRequest uuc false]
  else [EvMemoryRequest uuc true; EvFetchAndRepair uuc].

(** The loop that empties the heap once enough chunks were handed out:
    [for r.uploadHeap.managedLen() > 0 { if c := managedPop(); c.stuck {...} }]. *)
Fixpoint drain (fuel : nat) (uh : uploadHeap)
    (popped stuckChunks : list unfinishedUploadChunk) :
    list unfinishedUploadChunk * list unfinishedUploadChunk * uploadHeap :=
  match fuel with
  | O => (popped, stuckChunks, uh)
  | S fuel' =>
      if 0 <? managedLen uh then
        match managedPop uh with
        | (Some c, uh') =>
            drain fuel' uh' (popped ++ [c])
                  (if UUC.stuck c then stuckChunks ++ [c] else stuckChunks)
        | (None, uh') => (popped, stuckChunks, uh') (* not reached: the heap is not empty *)
        end
      else (popped, stuckChunks, uh)
  end.

(** [managedRepairLoop]: the rounds of the loop, each with its events, and
    the heap the loop leaves.  A round that goes on to the next one has
    popped a chunk, so [fuel] above the length of the heap is never used up
    (see [managedRepairLoop_fuel]). *)
Fixpoint managedRepairLoop (fuel : nat) (e : env) (round : nat)
    (consecutiveChunkRepairs : Z) (uh : uploadHeap) :
    list (list event) * uploadHeap :=
  match fuel with
  | O => ([], uh)
  | S fuel' =>
      if stopped e round then ([], uh)
      else if negb (online e round) then ([], uh)
      else
        match managedPop uh with
        | (None, uh') => ([], uh')
        | (Some nextChunk, uh') =>
            let health := EvPop nextChunk :: checkHealth e nextChunk in
            let availableWorkers := workerPoolSize e round in
            if availableWorkers <? UUC.minimumPieces nextChunk then
              let stuckEvents :=
                [EvSetStuck (UUC.fileEntry nextChunk) (UUC.index nextChunk);
                 EvBubbleMetadata (UUC.fileEntry nextChunk)] in
              let '(rounds, uh'') :=
                managedRepairLoop fuel' e (S round) consecutiveChunkRepairs uh' in
              ((health ++ stuckEvents) :: rounds, uh'')
            else
              let prepare := managedPrepareNextChunk (memoryGranted e round) nextChunk in
              let consecutiveChunkRepairs := consecutiveChunkRepairs + 1 in
              if maxConsecutiveChunkRepairs e <=? consecutiveChunkRepairs then
                let '(popped, stuckChunks, uh'') :=
                  drain (List.length (heap uh')) uh' [] [] in
                ([health ++ prepare ++ [EvDrained popped stuckChunks]],
                 foldl managedPush uh'' stuckChunks)
              else
                let '(rounds, uh'') :=
                  managedRepairLoop fuel' e (S round) consecutiveChunkRepairs uh' in
                ((health ++ prepare) :: rounds, uh'')
        end
  end.

(** The events of one round: the pop of [nextChunk], then the stamp of its
    file when the file's health is below 0.8 and no stamp otherwise, then the
    rest of the round, which holds no stamp and every request for memory. *)
Definition roundShape (e : env) (evs : list event) : Prop :=
  exists c rest,
    let entry := UUC.fileEntry c in
    ((cachedHealth e entry < 8 # 10)%Q ->
       evs = EvPop c :: EvUpdateRecentRepairTime entry :: rest)
    /\ ((8 # 10 <= cachedHealth e entry)%Q -> evs = EvPop c :: rest)
    /\ forallb (fun ev => negb (isUpdateRecentRepairTime ev)) rest = true
    /\ (forall c' g, EvMemoryRequest c' g ∈ evs -> EvMemoryRequest c' g ∈ rest).

(** What follows the health check in a round: it asks for memory for
    [nextChunk] only, and starts the repair of [nextChunk] only. *)
Definition restOfRound (c : unfinishedUploadChunk) (rest : list event) : Prop :=
  (forall c' g, EvMemoryRequest c' g ∈ rest -> c' = c)
  /\ (forall c', EvFetchAndRepair c' ∈ rest -> c' = c).

(** Modelled from the spec: "health = (pieces_present − K) / (N − K) clipped
    to ≥ 0; a chunk is fully healthy at 1", and in the glossary "0 = minimally
    recoverable, 1 = fully redundant".  The value [CachedHealth()] reports
    counts the other way, 0 for a fully redundant file: for a file without
    any piece uploadheap_test.go expects the health
    [1 + MinPieces/(NumPieces-MinPieces)], that is 1 minus the quotient of
    the specification.  The health of the specification is therefore 1 minus
    the cached value, clipped at 0. *)
Definition specHealth (e : env) (entry : string) : Q :=
  let h := (1 - cachedHealth e entry)%Q in
  if Float.Qltb h 0 then 0%Q else h.

(** A renter that is online with five workers and free memory, whose files
    all report the health [h]. *)
Definition steadyEnv (h : Q) : env :=
  {| stopped := fun _ => false;
     online := fun _ => true;
     cachedHealth := fun _ => h;
     workerPoolSize := fun _ => 5;
     memoryGranted := fun _ => true;
     maxConsecutiveChunkRepairs := 20 |}.

End RepairLoop.

(** ** Building the unfinished chunks of a file (uploadheap.go,
    [buildUnfinishedChunks]) *)
Module BuildChunks.

(** [x mod 2^64]: the value a uint64 expression has. *)
Definition wrap64 (x : Z) : Z := x mod 2 ^ 64.

(** [type repairTarget int] *)
Inductive repairTarget :=
| targetError
| targetStuckChunks
| targetUnstuckChunks.

#[global] Instance repairTarget_eq_dec : EqDecision repairTarget.
Proof. solve_decision. Defined.

(** A piece of a chunk as the file records it; the host is named by the
    string of its public key, as the maps of the function are keyed. *)
Record Piece := {
  HostPubKey : string;
  MerkleRoot : string
}.

(** [modules.ContractUtility] *)
Record ContractUtility := {
  GoodForUpload : bool;
  GoodForRenew : bool
}.

(** What [buildUnfinishedChunks] reads of a [*siafile.SiaFileSetEntry]:
    the erasure code's [MinPieces] and [NumPieces], the sizes, the stuck flag
    of each chunk, the table of host keys and the piece sets of each chunk
    ([Pieces(index)] fails for an index the file does not have). *)
Record SiaFileSetEntry := {
  UID : string;
  MinPieces : Z;
  NumPieces : Z;
  PieceSize : Z;
  Overhead : Z;
  stuckFlags : list bool;
  HostPublicKeys : list string;
  chunkPieces : list (list (list Piece))
}.

Definition ChunkSize (entry : SiaFileSetEntry) : Z :=
  wrap64 (PieceSize entry * wrap64 (MinPieces entry)).

Definition StuckChunkByIndex (entry : SiaFileSetEntry) (index : nat) : bool :=
  default false (stuckFlags entry !! index).

Definition Pieces (entry : SiaFileSetEntry) (index : nat) : option (list (list Piece)) :=
  chunkPieces entry !! index.

(** Modelled from the spec: [MarkAllChunksAsStuck] of the siafile package is
    not among the sources; the specification says of it that it marks all
    chunks of the file stuck. *)
Definition MarkAllChunksAsStuck (entry : SiaFileSetEntry) : SiaFileSetEntry :=
  {| UID := UID entry; MinPieces := MinPieces entry; NumPieces := NumPieces entry;
     PieceSize := PieceSize entry; Overhead := Overhead entry;
     stuckFlags := replicate (List.length (stuckFlags entry)) true;
     HostPublicKeys := HostPublicKeys entry;
     chunkPieces := chunkPieces entry |}.

(** The part of the renter the function reads: the size of the worker pool
    and the contractor's utilities by host key. *)
Record renter := {
  workerPool : Z;
  ContractUtilityOf : gmap string ContractUtility
}.

(** What the function does to the entries it was given, in order. *)
Inductive effect :=
| EffMarkAllChunksAsStuck (entry : nat)
| EffClose (entry : nat)
| EffCritical (message : string).

(** The string of the zero [types.SiaPublicKey], which a failed lookup in
    [pks] leaves in [pk]. *)
Definition zeroPublicKey : string := ":".

(** First loop: the indices of the chunks whose stuck flag matches the
    target; the entries of the others are closed. *)
Fixpoint selectChunkIndexes (target : repairTarget) (i : nat)
    (entrys : list SiaFileSetEntry) : list nat * list effect :=
  match entrys with
  | [] => ([], [])
  | entry :: rest =>
      let '(chunkIndexes, effs) := selectChunkIndexes target (S i) rest in
      if negb (eqb (bool_decide (target = targetStuckChunks)) (StuckChunkByIndex entry i))
      then (chunkIndexes, EffClose i :: effs)
      else (i :: chunkIndexes, effs)
  end.

(** [int64(x)] for a uint64 [x]: the values from 2^63 on become negative. *)
Definition toInt64 (x : Z) : Z := if x <? 2 ^ 63 then x else x - 2 ^ 64.

(** The chunk built for position [i] of [chunkIndexes] from [entrys[i]]. *)
Definition newUnfinishedChunk (entry : SiaFileSetEntry) (hosts : gset string)
    (index : nat) : unfinishedUploadChunk :=
  {| UUC.fileEntry := UID entry;
     UUC.id := {| fileUID := UID entry; chunkIdx := wrap64 (Z.of_nat index) |};
     UUC.index := wrap64 (Z.of_nat index);
     UUC.length := ChunkSize entry;
     UUC.offset := toInt64 (wrap64 (wrap64 (Z.of_nat index) * ChunkSize entry));
     UUC.memoryNeeded :=
       wrap64 (PieceSize entry * wrap64 (NumPieces entry + MinPieces entry)
               + wrap64 (NumPieces entry) * Overhead entry);
     UUC.minimumPieces := MinPieces entry;
     UUC.piecesNeeded := NumPieces entry;
     UUC.stuck := StuckChunkByIndex entry index;
     UUC.stuckRepair := false;
     UUC.piecesCompleted := 0;
     UUC.pieceUsage := replicate (Z.to_nat (NumPieces entry)) false;
     UUC.unusedHosts := hosts |}.

(** Second loop.  [None] stands for the runtime panic of [entrys[i]] out of
    range, which cannot happen as [chunkIndexes] is no longer than [entrys]. *)
Fixpoint newUnfinishedChunks (entrys : list SiaFileSetEntry) (hosts : gset string)
    (i : nat) (chunkIndexes : list nat) :
    option (list unfinishedUploadChunk * list effect) :=
  match chunkIndexes with
  | [] => Some ([], [])
  | index :: rest =>
      entry ← entrys !! i;
      '(chunks, effs) ← newUnfinishedChunks entrys hosts (S i) rest;
      let crit := if String.eqb (UID entry) "" then [EffCritical "empty string for file UID"] else [] in
      Some (newUnfinishedChunk entry hosts index :: chunks, crit ++ effs)
  end.

(** [pieceUsage[pieceIndex] = true; piecesCompleted++; delete(unusedHosts, pk)] *)
Definition claimPiece (c : unfinishedUploadChunk) (pieceIndex : nat) (pk : string) :
    unfinishedUploadChunk :=
  {| UUC.fileEntry := UUC.fileEntry c; UUC.id := UUC.id c; UUC.index := UUC.index c;
     UUC.length := UUC.length c; UUC.offset := UUC.offset c;
     UUC.memoryNeeded := UUC.memoryNeeded c; UUC.minimumPieces := UUC.minimumPieces c;
     UUC.piecesNeeded := UUC.piecesNeeded c; UUC.stuck := UUC.stuck c;
     UUC.stuckRepair := UUC.stuckRepair c;
     UUC.piecesCompleted := UUC.piecesCompleted c + 1;
     UUC.pieceUsage := <[pieceIndex := true]> (UUC.pieceUsage c);
     UUC.unusedHosts := UUC.unusedHosts c ∖ {[pk]} |}.

(** [delete(unusedHosts, pk)] *)
Definition dropHost (c : unfinishedUploadChunk) (pk : string) : unfinishedUploadChunk :=
  {| UUC.fileEntry := UUC.fileEntry c; UUC.id := UUC.id c; UUC.index := UUC.index c;
     UUC.length := UUC.length c; UUC.offset := UUC.offset c;
     UUC.memoryNeeded := UUC.memoryNeeded c; UUC.minimumPieces := UUC.minimumPieces c;
     UUC.piecesNeeded := UUC.piecesNeeded c; UUC.stuck := UUC.stuck c;
     UUC.stuckRepair := UUC.stuckRepair c;
     UUC.piecesCompleted := UUC.piecesCompleted c;
     UUC.pieceUsage := UUC.pieceUsage c;
     UUC.unusedHosts := UUC.unusedHosts c ∖ {[pk]} |}.

(** The body of the innermost loop, for one piece of the piece set
    [pieceIndex]: what it does to the chunk.  [None] is the panic of
    [pieceUsage[pieceIndex]] out of range.  The call of [build.Critical] for
    a host key that is not in [pks], after which the loop goes on with the
    zero key, is recorded by [missingKeys]. *)
Definition markPiece (r : renter) (pks : gset string) (pieceIndex : nat)
    (c : unfinishedUploadChunk) (piece : Piece) : option unfinishedUploadChunk :=
  let pk := if bool_decide (HostPubKey piece ∈ pks) then HostPubKey piece else zeroPublicKey in
  match ContractUtilityOf r !! pk with
  | None => Some c
  | Some contractUtility =>
      if negb (GoodForRenew contractUtility) then Some c
      else
        let inUnused := bool_decide (pk ∈ UUC.unusedHosts c) in
        redundantPiece ← UUC.pieceUsage c !! pieceIndex;
        if inUnused && negb redundantPiece then Some (claimPiece c pieceIndex pk)
        else if inUnused then Some (dropHost c pk)
        else Some c
  end.

Fixpoint markPieceSet (r : renter) (pks : gset string) (pieceIndex : nat)
    (pieceSet : list Piece) (c : unfinishedUploadChunk) : option unfinishedUploadChunk :=
  match pieceSet with
  | [] => Some c
  | piece :: rest =>
      c' ← markPiece r pks pieceIndex c piece;
      markPieceSet r pks pieceIndex rest c'
  end.

Fixpoint markPieceSets (r : renter) (pks : gset string) (pieceIndex : nat)
    (pieces : list (list Piece)) (c : unfinishedUploadChunk) : option unfinishedUploadChunk :=
  match pieces with
  | [] => Some c
  | pieceSet :: rest =>
      c' ← markPieceSet r pks pieceIndex pieceSet c;
      markPieceSets r pks (S pieceIndex) rest c'
  end.

(** The calls of [build.Critical] in the innermost loop over the pieces of
    one chunk: one for each piece whose host key is not in [pks]. *)
Definition missingKeys (pks : gset string) (pieces : list (list Piece)) : list effect :=
  flat_map (fun piece =>
              if bool_decide (HostPubKey piece ∈ pks) then []
              else [EffCritical "Couldn't find public key in map. This should never happen"])
           (concat pieces).

(** The calls of [build.Critical] in the third loop, up to the chunk for
    which [Pieces] fails, if there is one. *)
Fixpoint countCriticals (entry0 : SiaFileSetEntry) (pks : gset string)
    (chunkIndexes : list nat) : list effect :=
  match chunkIndexes with
  | [] => []
  | index :: rest =>
      match Pieces entry0 index with
      | None => []
      | Some pieces => missingKeys pks pieces ++ countCriticals entry0 pks rest
      end
  end.

(** Third loop, over the chunk indices and the chunks built for them: what
    it does to the chunks.  The outer [None] is a panic; the inner [None] is
    the early [return nil] after [Pieces] failed. *)
Fixpoint countPieces (r : renter) (entry0 : SiaFileSetEntry) (pks : gset string)
    (work : list (nat * unfinishedUploadChunk)) :
    option (option (list unfinishedUploadChunk)) :=
  match work with
  | [] => Some (Some [])
  | (index, c) :: rest =>
      match Pieces entry0 index with
      | None => Some None
      | Some pieces =>
          c' ← markPieceSets r pks 0 pieces c;
          rest' ← countPieces r entry0 pks rest;
          Some (match rest' with
                | Some chunks => Some (c' :: chunks)
                | None => None
                end)
      end
  end.

(** Last loop: the chunks that still miss pieces are kept, the entries of
    the others are closed. *)
Fixpoint incompleteChunks (i : nat) (chunks : list unfinishedUploadChunk) :
    list unfinishedUploadChunk * list effect :=
  match chunks with
  | [] => ([], [])
  | c :: rest =>
      let '(kept, effs) := incompleteChunks (S i) rest in
      if UUC.piecesCompleted c <? UUC.piecesNeeded c then (c :: kept, effs)
      else (kept, EffClose i :: effs)
  end.

(** [func (r *Renter) buildUnfinishedChunks(entrys, hosts, target)]: the
    chunks it returns and what it did to the entries; [None] is a panic. *)
Definition buildUnfinishedChunks (r : renter) (entrys : list SiaFileSetEntry)
    (hosts : gset string) (target : repairTarget) :
    option (list unfinishedUploadChunk * list effect) :=
  match entrys with
  | [] => Some ([], [])
  | entry0 :: _ =>
      if workerPool r <? MinPieces entry0 then
        Some ([], EffMarkAllChunksAsStuck 0
                    :: (EffClose <$> seq 0 (List.length entrys)))
      else
        let '(chunkIndexes, effs1) := selectChunkIndexes target 0 entrys in
        if bool_decide (chunkIndexes = []) then Some ([], effs1)
        else
          '(chunks, effs2) ← newUnfinishedChunks entrys hosts 0 chunkIndexes;
          let pks : gset string := list_to_set (HostPublicKeys entry0) in
          counted ← countPieces r entry0 pks (zip chunkIndexes chunks);
          let crits := countCriticals entry0 pks chunkIndexes in
          match counted with
          | None => Some ([], effs1 ++ effs2 ++ crits)
          | Some chunks' =>
              let '(kept, effs3) := incompleteChunks 0 chunks' in
              Some (kept, effs1 ++ effs2 ++ crits ++ effs3)
          end
  end.

(** A chunk of the file all of whose pieces are placed: its [NumPieces]
    piece sets hold one piece each, on hosts [hs] that differ from one
    another, are among the usable [hosts] and in the file's key table, and
    have a contract that is good for renewal. *)
Definition fullyPlaced (r : renter) (entry : SiaFileSetEntry) (hosts : gset string)
    (index : nat) : Prop :=
  exists hs roots,
    Pieces entry index
      = Some (zip_with (fun h root => [ {| HostPubKey := h; MerkleRoot := root |} ]) hs roots)
    /\ List.length hs = Z.to_nat (NumPieces entry)
    /\ List.length roots = List.length hs
    /\ 0 <= NumPieces entry
    /\ NoDup hs
    /\ (forall h, h ∈ hs ->
          h ∈ hosts /\ h ∈ HostPublicKeys entry
          /\ exists u, ContractUtilityOf r !! h = Some u /\ GoodForRenew u = true).

(** A 2-of-3 file of two chunks: chunk 0 has its three pieces on the hosts
    A, B and C; chunk 1 misses its second piece.  The renter has contracts
    that are good for renewal with the three hosts. *)
Definition exampleEntry : SiaFileSetEntry :=
  {| UID := "file"; MinPieces := 2; NumPieces := 3; PieceSize := 20; Overhead := 0;
     stuckFlags := [false; false];
     HostPublicKeys := ["hostA"; "hostB"; "hostC"];
     chunkPieces :=
       [ [ [ {| HostPubKey := "hostA"; MerkleRoot := "a0" |} ];
           [ {| HostPubKey := "hostB"; MerkleRoot := "b0" |} ];
           [ {| HostPubKey := "hostC"; MerkleRoot := "c0" |} ] ];
         [ [ {| HostPubKey := "hostA"; MerkleRoot := "a1" |} ];
           [];
           [ {| HostPubKey := "hostC"; MerkleRoot := "c1" |} ] ] ] |}.

Definition exampleHosts : gset string := {["hostA"; "hostB"; "hostC"]}.

Definition exampleRenter (workers : Z) : renter :=
  {| workerPool := workers;
     ContractUtilityOf :=
       <["hostA" := {| GoodForUpload := true; GoodForRenew := true |}]>
       (<["hostB" := {| GoodForUpload := true; GoodForRenew := true |}]>
       (<["hostC" := {| GoodForUpload := true; GoodForRenew := true |}]> ∅)) |}.

End BuildChunks.

(** ** Download chunks and the download worker (workerdownload.go) *)

(** [downloadPieceInfo]: the index of the piece a host holds and its root. *)
Record downloadPieceInfo := {
  pieceIndex : nat;
  pieceRoot : string
}.

(** [worker]: the fields the download code reads.  Times are nanoseconds. *)
Record worker := {
  staticHostPubKey : string;
  ownedDownloadConsecutiveFailures : Z;
  ownedDownloadRecentFailure : Z
}.

(** [unfinishedDownloadChunk].  The fields the planner sets once are
    gathered in [UDC.static]; [minPieces] and [numPieces] are
    [erasureCode.MinPieces()] and [erasureCode.NumPieces()].  The other
    fields change under the chunk's mutex. *)
Module UDC.

Record static := {
  minPieces : Z;
  numPieces : Z;
  staticChunkIndex : Z;
  staticChunkMap : gmap string downloadPieceInfo;
  staticChunkSize : Z;
  staticPieceSize : Z;
  staticFetchLength : Z;
  staticFetchOffset : Z;
  staticWriteOffset : Z;
  staticLatencyTarget : Z;
  staticNeedsMemory : bool;
  staticOverdrive : Z;
  staticPriority : Z
}.

Record t := mk {
  st : static;
  completedPieces : list bool;
  physicalChunkData : list (option string);
  pieceUsage : list bool;
  piecesCompleted : Z;
  piecesRegistered : Z;
  workersRemaining : Z;
  workersStandby : list worker
}.

End UDC.

Abbreviation unfinishedDownloadChunk := UDC.t.

Module WorkerDownload.

(** The two constants of the cooldown, which the sources use and do not
    define. *)
Record config := {
  downloadFailureCooldown : Z;
  maxConsecutivePenalty : Z
}.

(** The loop [for i := 0; i < failures && i < maxConsecutivePenalty; i++
    { requiredCooldown *= 2 }]. *)
Definition requiredCooldown (cfg : config) (w : worker) : Z :=
  let rounds := Z.max 0 (Z.min (ownedDownloadConsecutiveFailures w) (maxConsecutivePenalty cfg)) in
  downloadFailureCooldown cfg * 2 ^ rounds.

(** [func (w *worker) ownedOnDownloadCooldown() bool], at the time [now]. *)
Definition ownedOnDownloadCooldown (cfg : config) (now : Z) (w : worker) : bool :=
  now <? ownedDownloadRecentFailure w + requiredCooldown cfg w.

(** Modelled from the spec: [managedRemoveWorker] is not among the sources.
    The specification's drop case says what removing a worker does to the
    chunk: it decrements [workers_remaining] and leaves the standby list
    untouched. *)
Definition managedRemoveWorker (udc : unfinishedDownloadChunk) : unfinishedDownloadChunk :=
  {| UDC.st := UDC.st udc;
     UDC.completedPieces := UDC.completedPieces udc;
     UDC.physicalChunkData := UDC.physicalChunkData udc;
     UDC.pieceUsage := UDC.pieceUsage udc;
     UDC.piecesCompleted := UDC.piecesCompleted udc;
     UDC.piecesRegistered := UDC.piecesRegistered udc;
     UDC.workersRemaining := UDC.workersRemaining udc - 1;
     UDC.workersStandby := UDC.workersStandby udc |}.

(** Modelled from the spec: [markPieceCompleted] is not among the sources.
    The specification has the worker "increment pieces_completed" and keeps
    the bit of the piece in [completed_pieces].  [None] is the panic of an
    index outside [completedPieces]. *)
Definition markPieceCompleted (udc : unfinishedDownloadChunk) (i : nat) :
    option unfinishedDownloadChunk :=
  _ ← UDC.completedPieces udc !! i;
  Some {| UDC.st := UDC.st udc;
          UDC.completedPieces := <[i := true]> (UDC.completedPieces udc);
          UDC.physicalChunkData := UDC.physicalChunkData udc;
          UDC.pieceUsage := UDC.pieceUsage udc;
          UDC.piecesCompleted := UDC.piecesCompleted udc + 1;
          UDC.piecesRegistered := UDC.piecesRegistered udc;
          UDC.workersRemaining := UDC.workersRemaining udc;
          UDC.workersStandby := UDC.workersStandby udc |}.

(** [udc.piecesRegistered++; udc.pieceUsage[i] = true] *)
Definition registerPiece (udc : unfinishedDownloadChunk) (i : nat) : unfinishedDownloadChunk :=
  {| UDC.st := UDC.st udc;
     UDC.completedPieces := UDC.completedPieces udc;
     UDC.physicalChunkData := UDC.physicalChunkData udc;
     UDC.pieceUsage := <[i := true]> (UDC.pieceUsage udc);
     UDC.piecesCompleted := UDC.piecesCompleted udc;
     UDC.piecesRegistered := UDC.piecesRegistered udc + 1;
     UDC.workersRemaining := UDC.workersRemaining udc;
     UDC.workersStandby := UDC.workersStandby udc |}.

(** [udc.workersStandby = append(udc.workersStandby, w)] *)
Definition standBy (udc : unfinishedDownloadChunk) (w : worker) : unfinishedDownloadChunk :=
  {| UDC.st := UDC.st udc;
     UDC.completedPieces := UDC.completedPieces udc;
     UDC.physicalChunkData := UDC.physicalChunkData udc;
     UDC.pieceUsage := UDC.pieceUsage udc;
     UDC.piecesCompleted := UDC.piecesCompleted udc;
     UDC.piecesRegistered := UDC.piecesRegistered udc;
     UDC.workersRemaining := UDC.workersRemaining udc;
     UDC.workersStandby := UDC.workersStandby udc ++ [w] |}.

(** The piece info [udc.staticChunkMap[w.staticHostPubKey.String()]] and
    whether the key is in the map; a missing key gives the zero value. *)
Definition lookupPiece (udc : unfinishedDownloadChunk) (w : worker) :
    downloadPieceInfo * bool :=
  match UDC.staticChunkMap (UDC.st udc) !! staticHostPubKey w with
  | Some pieceData => (pieceData, true)
  | None => ({| pieceIndex := 0; pieceRoot := "" |}, false)
  end.

(** [func (w *worker) ownedProcessDownloadChunk(udc)]: the chunk after the
    call and whether the call returned it ([true]) or nil ([false]).
    [downloadComplete] is [udc.download.staticComplete()], [now] the time of
    the cooldown test.  [None] is the panic of an index outside
    [completedPieces] or [pieceUsage]. *)
Definition ownedProcessDownloadChunk (cfg : config) (now : Z) (downloadComplete : bool)
    (w : worker) (udc : unfinishedDownloadChunk) :
    option (unfinishedDownloadChunk * bool) :=
  let K := UDC.minPieces (UDC.st udc) in
  let chunkComplete := (K <=? UDC.piecesCompleted udc) || downloadComplete in
  let chunkFailed := UDC.piecesCompleted udc + UDC.workersRemaining udc <? K in
  let '(pieceData, workerHasPiece) := lookupPiece udc w in
  pieceCompleted ← UDC.completedPieces udc !! pieceIndex pieceData;
  if chunkComplete || chunkFailed || ownedOnDownloadCooldown cfg now w
     || negb workerHasPiece || pieceCompleted
  then Some (managedRemoveWorker udc, false)
  else
    pieceTaken ← UDC.pieceUsage udc !! pieceIndex pieceData;
    let piecesInProgress := UDC.piecesRegistered udc + UDC.piecesCompleted udc in
    let desiredPiecesInProgress := K + UDC.staticOverdrive (UDC.st udc) in
    let workersDesired := (piecesInProgress <? desiredPiecesInProgress) && negb pieceTaken in
    let meetsExtraCriteria := true in
    if workersDesired && meetsExtraCriteria
    then Some (registerPiece udc (pieceIndex pieceData), true)
    else Some (standBy udc w, false).

(** [func (udc *unfinishedDownloadChunk) managedUnregisterWorker(w)].  In Go
    an assignment to [pieceUsage[i]] out of range panics. *)
Definition managedUnregisterWorker (udc : unfinishedDownloadChunk) (w : worker) :
    option unfinishedDownloadChunk :=
  let i := pieceIndex (lookupPiece udc w).1 in
  _ ← UDC.pieceUsage udc !! i;
  Some {| UDC.st := UDC.st udc;
          UDC.completedPieces := UDC.completedPieces udc;
          UDC.physicalChunkData := UDC.physicalChunkData udc;
          UDC.pieceUsage := <[i := false]> (UDC.pieceUsage udc);
          UDC.piecesCompleted := UDC.piecesCompleted udc;
          UDC.piecesRegistered := UDC.piecesRegistered udc - 1;
          UDC.workersRemaining := UDC.workersRemaining udc;
          UDC.workersStandby := UDC.workersStandby udc |}.

(** The chunk together with what the workers do outside of it: the two
    counters of the download and the number of recovery threads started with
    [go udc.threadedRecoverLogicalData()]. *)
Record state := {
  chunk : unfinishedDownloadChunk;
  atomicDataReceived : Z;
  atomicTotalDataTransferred : Z;
  recoveryThreads : nat
}.

Definition withChunk (s : state) (udc : unfinishedDownloadChunk) : state :=
  {| chunk := udc;
     atomicDataReceived := atomicDataReceived s;
     atomicTotalDataTransferred := atomicTotalDataTransferred s;
     recoveryThreads := recoveryThreads s |}.

(** [physicalChunkData[i] = decryptedPiece] *)
Definition storePiece (udc : unfinishedDownloadChunk) (i : nat) (piece : string) :
    option unfinishedDownloadChunk :=
  _ ← UDC.physicalChunkData udc !! i;
  Some {| UDC.st := UDC.st udc;
          UDC.completedPieces := UDC.completedPieces udc;
          UDC.physicalChunkData := <[i := Some piece]> (UDC.physicalChunkData udc);
          UDC.pieceUsage := UDC.pieceUsage udc;
          UDC.piecesCompleted := UDC.piecesCompleted udc;
          UDC.piecesRegistered := UDC.piecesRegistered udc;
          UDC.workersRemaining := UDC.workersRemaining udc;
          UDC.workersStandby := UDC.workersStandby udc |}.

Definition decrementRegistered (udc : unfinishedDownloadChunk) : unfinishedDownloadChunk :=
  {| UDC.st := UDC.st udc;
     UDC.completedPieces := UDC.completedPieces udc;
     UDC.physicalChunkData := UDC.physicalChunkData udc;
     UDC.pieceUsage := UDC.pieceUsage udc;
     UDC.piecesCompleted := UDC.piecesCompleted udc;
     UDC.piecesRegistered := UDC.piecesRegistered udc - 1;
     UDC.workersRemaining := UDC.workersRemaining udc;
     UDC.workersStandby := UDC.workersStandby udc |}.

(** The critical section at the end of [managedDownload], entered by a
    worker that has fetched and decrypted its piece: mark the piece
    completed, give up the registration, keep the data while no more than
    [MinPieces] pieces are there, and when the count equals [MinPieces]
    start the recovery thread, unless [tg.Add()] fails ([tgAdd = false]).
    The divisions are those of uint64; they are only evaluated for a
    positive [MinPieces] on this path. *)
Definition completePiece (tgAdd : bool) (w : worker) (decryptedPiece : string)
    (s : state) : option state :=
  let i := pieceIndex (lookupPiece (chunk s) w).1 in
  udc ← markPieceCompleted (chunk s) i;
  let udc := decrementRegistered udc in
  let K := UDC.minPieces (UDC.st udc) in
  let fetchLength := UDC.staticFetchLength (UDC.st udc) in
  '(udc, received) ←
    (if UDC.piecesCompleted udc <=? K
     then udc' ← storePiece udc i decryptedPiece;
          Some (udc', atomicDataReceived s + fetchLength / K)
     else Some (udc, atomicDataReceived s));
  if UDC.piecesCompleted udc =? K then
    let addedReceivedData := K * (fetchLength / K) in
    let received := received + (fetchLength - addedReceivedData) in
    Some {| chunk := udc;
            atomicDataReceived := received;
            atomicTotalDataTransferred := atomicTotalDataTransferred s;
            recoveryThreads := if tgAdd then S (recoveryThreads s) else recoveryThreads s |}
  else
    Some {| chunk := udc;
            atomicDataReceived := received;
            atomicTotalDataTransferred := atomicTotalDataTransferred s;
            recoveryThreads := recoveryThreads s |}.

(** The steps the workers of a chunk take; each is one critical section. *)
Inductive action :=
| ActProcess (now : Z) (downloadComplete : bool) (w : worker)
| ActTransferred
| ActComplete (tgAdd : bool) (w : worker) (decryptedPiece : string)
| ActUnregister (w : worker)
| ActRemoveWorker.

Definition step (cfg : config) (s : state) (a : action) : option state :=
  match a with
  | ActProcess now downloadComplete w =>
      r ← ownedProcessDownloadChunk cfg now downloadComplete w (chunk s);
      Some (withChunk s r.1)
  | ActTransferred =>
      Some {| chunk := chunk s;
              atomicDataReceived := atomicDataReceived s;
              atomicTotalDataTransferred :=
                atomicTotalDataTransferred s + UDC.staticPieceSize (UDC.st (chunk s));
              recoveryThreads := recoveryThreads s |}
  | ActComplete tgAdd w piece => completePiece tgAdd w piece s
  | ActUnregister w =>
      udc ← managedUnregisterWorker (chunk s) w;
      Some (withChunk s udc)
  | ActRemoveWorker => Some (withChunk s (managedRemoveWorker (chunk s)))
  end.

Fixpoint run (cfg : config) (s : state) (acts : list action) : option state :=
  match acts with
  | [] => Some s
  | a :: rest => s' ← step cfg s a; run cfg s' rest
  end.

(** What the fetch of a piece came to in [managedDownload]. *)
Inductive fetchResult :=
| DownloaderFailed
| DownloadFailed
| DecryptFailed
| Fetched (decryptedPiece : string).

(** [func (w *worker) managedDownload(udc)], run by one worker without
    another one in between: the steps it takes, in order. *)
Definition managedDownloadSteps (cfg : config) (now : Z) (downloadComplete : bool)
    (fetch : fetchResult) (tgAdd : bool) (w : worker) (s : state) : list action :=
  match ownedProcessDownloadChunk cfg now downloadComplete w (chunk s) with
  | Some (_, true) =>
      ActProcess now downloadComplete w ::
      match fetch with
      | DownloaderFailed | DownloadFailed => [ActUnregister w; ActRemoveWorker]
      | DecryptFailed => [ActTransferred; ActUnregister w; ActRemoveWorker]
      | Fetched piece => [ActTransferred; ActComplete tgAdd w piece; ActRemoveWorker]
      end
  | _ => [ActProcess now downloadComplete w]
  end.

Definition managedDownload (cfg : config) (now : Z) (downloadComplete : bool)
    (fetch : fetchResult) (tgAdd : bool) (w : worker) (s : state) : option state :=
  run cfg s (managedDownloadSteps cfg now downloadComplete fetch tgAdd w s).

(** The slices of the chunk have one slot per piece, there is at least one,
    and every piece index of the chunk map has its slot. *)
Definition wellFormed (udc : unfinishedDownloadChunk) : Prop :=
  (0 < List.length (UDC.completedPieces udc))%nat
  /\ List.length (UDC.pieceUsage udc) = List.length (UDC.completedPieces udc)
  /\ (forall key info,
        UDC.staticChunkMap (UDC.st udc) !! key = Some info ->
        (pieceIndex info < List.length (UDC.completedPieces udc))%nat).

(** A chunk as the planner hands it out: nothing completed or registered. *)
Definition fresh (s : state) : Prop :=
  UDC.piecesCompleted (chunk s) = 0 /\ recoveryThreads s = 0%nat.

(** The recovery thread was started at most once, and only after [K] pieces
    were completed. *)
Definition launchedAtMostOnce (K : Z) (s : state) : Prop :=
  (recoveryThreads s <= 1)%nat
  /\ (recoveryThreads s = 1%nat -> K <= UDC.piecesCompleted (chunk s)).

(** No [tg.Add()] of the completions among [acts] fails: the renter is not
    shutting down. *)
Definition tgAddSucceeds (acts : list action) : bool :=
  forallb (fun a => match a with ActComplete tgAdd _ _ => tgAdd | _ => true end) acts.

(** A chunk of a 2-of-3 file with an overdrive of one, its three pieces on
    the hosts A, B and C, and the three workers of these hosts. *)
Definition exampleChunk : unfinishedDownloadChunk :=
  {| UDC.st :=
       {| UDC.minPieces := 2; UDC.numPieces := 3; UDC.staticChunkIndex := 0;
          UDC.staticChunkMap :=
            <["hostA" := {| pieceIndex := 0; pieceRoot := "rootA" |}]>
            (<["hostB" := {| pieceIndex := 1; pieceRoot := "rootB" |}]>
            (<["hostC" := {| pieceIndex := 2; pieceRoot := "rootC" |}]> ∅));
          UDC.staticChunkSize := 40; UDC.staticPieceSize := 20;
          UDC.staticFetchLength := 40; UDC.staticFetchOffset := 0;
          UDC.staticWriteOffset := 0; UDC.staticLatencyTarget := 0;
          UDC.staticNeedsMemory := true; UDC.staticOverdrive := 1;
          UDC.staticPriority := 5 |};
     UDC.completedPieces := [false; false; false];
     UDC.physicalChunkData := [None; None; None];
     UDC.pieceUsage := [false; false; false];
     UDC.piecesCompleted := 0;
     UDC.piecesRegistered := 0;
     UDC.workersRemaining := 3;
     UDC.workersStandby := [] |}.

Definition exampleState : state :=
  {| chunk := exampleChunk; atomicDataReceived := 0;
     atomicTotalDataTransferred := 0; recoveryThreads := 0 |}.

Definition exampleWorker (host : string) : worker :=
  {| staticHostPubKey := host;
     ownedDownloadConsecutiveFailures := 0;
     ownedDownloadRecentFailure := 0 |}.

Definition exampleConfig : config :=
  {| downloadFailureCooldown := 3; maxConsecutivePenalty := 10 |}.

(** The three workers of the example register one after the other, then
    each completes its piece and leaves; [tgAddB] is the answer of [tg.Add()]
    to worker B, which completes the second piece. *)
Definition exampleRun (tgAddB : bool) : list action :=
  let wA := exampleWorker "hostA" in
  let wB := exampleWorker "hostB" in
  let wC := exampleWorker "hostC" in
  [ ActProcess 100 false wA; ActProcess 100 false wB; ActProcess 100 false wC;
    ActTransferred; ActComplete true wA "pieceA"; ActRemoveWorker;
    ActTransferred; ActComplete tgAddB wB "pieceB"; ActRemoveWorker;
    ActTransferred; ActComplete true wC "pieceC"; ActRemoveWorker ].

End WorkerDownload.

(** ** Downloads (download.go, siafile/snapshot.go) *)
Module Download.
Import BuildChunks.

(** What a call gives back: a value, an error it returned, or a panic of the
    Go runtime. *)
Inductive outcome (A : Type) :=
| Ok (a : A)
| Failed (err : string)
| Panic.
Arguments Ok {A} a.
Arguments Failed {A} err.
Arguments Panic {A}.

(** [siafile.Snapshot].  [staticChunks] holds the piece sets of each chunk;
    [staticMinPieces] and [staticNumPieces] are those of the erasure code. *)
Record Snapshot := {
  staticChunks : list (list (list Piece));
  staticFileSize : Z;
  staticPieceSize : Z;
  staticMinPieces : Z;
  staticNumPieces : Z;
  staticSiaPath : string
}.

(** [func (s *Snapshot) ChunkSize() uint64] *)
Definition ChunkSize (s : Snapshot) : Z :=
  wrap64 (staticPieceSize s * wrap64 (staticMinPieces s)).

(** [func (s *Snapshot) ChunkIndexByOffset(offset uint64)].  A chunk size of
    zero makes the Go division panic; the callers below test for it. *)
Definition ChunkIndexByOffset (s : Snapshot) (offset : Z) : Z * Z :=
  (offset / ChunkSize s, offset mod ChunkSize s).

(** [func (s *Snapshot) NumChunks() uint64] *)
Definition NumChunks (s : Snapshot) : Z := Z.of_nat (List.length (staticChunks s)).

(** [func (s *Snapshot) Size() uint64] *)
Definition Size (s : Snapshot) : Z := wrap64 (staticFileSize s).

(** [func (s *Snapshot) Pieces(chunkIndex uint64)], which returns
    [s.staticChunks[chunkIndex].Pieces]; [None] is the panic of an index the
    snapshot does not have.  The function has no error result: the
    [err != nil] that [managedNewDownload] tests after the call is never
    set. *)
Definition SnapshotPieces (s : Snapshot) (chunkIndex : Z) : option (list (list Piece)) :=
  if chunkIndex <? 0 then None else staticChunks s !! Z.to_nat chunkIndex.

(** The functions registered with [onComplete], by name. *)
Inductive completeFunc :=
| SetEndTime
| CloseDestination
| Callback (name : string).

(** [download]: [complete] says that [completeChan] is closed.  [executed]
    lists the complete functions that ran, each with the error it was given;
    [criticals] counts the calls of [build.Critical] and [log.Critical],
    which log and go on in a release build. *)
Record download := {
  complete : bool;
  err : option string;
  downloadCompleteFuncs : list completeFunc;
  executed : list (completeFunc * option string);
  criticals : nat;
  chunksRemaining : Z;
  destinationString : string;
  staticDestinationType : string;
  staticLength : Z;
  staticOffset : Z;
  staticSiaPathOf : string;
  staticLatencyTarget : Z;
  staticOverdrive : Z;
  staticPriority : Z
}.

Definition ErrDownloadCancelled : string := "download was cancelled".

(** [func (d *download) staticComplete() bool] *)
Definition staticComplete (d : download) : bool := complete d.

(** [func (d *download) markComplete()]: the complete functions run with the
    download's error, then the channel is closed, unless it was closed
    already. *)
Definition markComplete (d : download) : download :=
  {| complete := true;
     err := err d;
     downloadCompleteFuncs := [];
     executed := executed d ++ ((fun f => (f, err d)) <$> downloadCompleteFuncs d);
     criticals := if staticComplete d then S (criticals d) else criticals d;
     chunksRemaining := chunksRemaining d;
     destinationString := destinationString d;
     staticDestinationType := staticDestinationType d;
     staticLength := staticLength d;
     staticOffset := staticOffset d;
     staticSiaPathOf := staticSiaPathOf d;
     staticLatencyTarget := staticLatencyTarget d;
     staticOverdrive := staticOverdrive d;
     staticPriority := staticPriority d |}.

Definition logCritical (d : download) : download :=
  {| complete := complete d; err := err d;
     downloadCompleteFuncs := downloadCompleteFuncs d;
     executed := executed d;
     criticals := S (criticals d);
     chunksRemaining := chunksRemaining d;
     destinationString := destinationString d;
     staticDestinationType := staticDestinationType d;
     staticLength := staticLength d;
     staticOffset := staticOffset d;
     staticSiaPathOf := staticSiaPathOf d;
     staticLatencyTarget := staticLatencyTarget d;
     staticOverdrive := staticOverdrive d;
     staticPriority := staticPriority d |}.

Definition setErr (d : download) (e : string) : download :=
  {| complete := complete d; err := Some e;
     downloadCompleteFuncs := downloadCompleteFuncs d;
     executed := executed d;
     criticals := criticals d;
     chunksRemaining := chunksRemaining d;
     destinationString := destinationString d;
     staticDestinationType := staticDestinationType d;
     staticLength := staticLength d;
     staticOffset := staticOffset d;
     staticSiaPathOf := staticSiaPathOf d;
     staticLatencyTarget := staticLatencyTarget d;
     staticOverdrive := staticOverdrive d;
     staticPriority := staticPriority d |}.

(** [func (d *download) managedFail(err error)] *)
Definition managedFail (d : download) (e : string) : download :=
  let complete := staticComplete d in
  if complete && bool_decide (err d <> None) then d
  else if complete && bool_decide (err d = None) then logCritical d
  else markComplete (setErr d e).

(** [func (d *download) managedCancel()] *)
Definition managedCancel (d : download) : download :=
  managedFail d ErrDownloadCancelled.

(** [func (d *download) onComplete(f func(error) error)] *)
Definition onComplete (d : download) (f : completeFunc) : download :=
  {| complete := complete d; err := err d;
     downloadCompleteFuncs :=
       if complete d then downloadCompleteFuncs d else downloadCompleteFuncs d ++ [f];
     executed := if complete d then executed d ++ [(f, err d)] else executed d;
     criticals := criticals d;
     chunksRemaining := chunksRemaining d;
     destinationString := destinationString d;
     staticDestinationType := staticDestinationType d;
     staticLength := staticLength d;
     staticOffset := staticOffset d;
     staticSiaPathOf := staticSiaPathOf d;
     staticLatencyTarget := staticLatencyTarget d;
     staticOverdrive := staticOverdrive d;
     staticPriority := staticPriority d |}.

(** What the download shows to its user: whether it is complete, the error
    it recorded, the complete functions that ran and those still waiting. *)
Definition observable (d : download) :
    bool * option string * list (completeFunc * option string) * list completeFunc :=
  (complete d, err d, executed d, downloadCompleteFuncs d).

(** A download of 60 bytes that is under way, with two complete functions
    registered. *)
Definition runningDownload : download :=
  {| complete := false; err := None;
     downloadCompleteFuncs := [SetEndTime; CloseDestination];
     executed := []; criticals := 0; chunksRemaining := 2;
     destinationString := "/tmp/out"; staticDestinationType := "file";
     staticLength := 60; staticOffset := 0; staticSiaPathOf := "file";
     staticLatencyTarget := 0; staticOverdrive := 3; staticPriority := 5 |}.

(** [downloadParams]; [file = None] is the nil snapshot. *)
Record downloadParams := {
  destinationStringOf : string;
  destinationType : string;
  file : option Snapshot;
  latencyTarget : Z;
  length : Z;
  needsMemory : bool;
  offset : Z;
  overdrive : Z;
  priority : Z
}.

(** The map from host key to piece info of one chunk: later pieces of a host
    replace earlier ones. *)
Fixpoint chunkMapOf (i : nat) (pieces : list (list Piece))
    (m : gmap string downloadPieceInfo) : gmap string downloadPieceInfo :=
  match pieces with
  | [] => m
  | pieceSet :: rest =>
      chunkMapOf (S i) rest
        (foldl (fun m piece =>
                  <[HostPubKey piece := {| pieceIndex := i; pieceRoot := MerkleRoot piece |}]> m)
               m pieceSet)
  end.

(** First loop of [managedNewDownload]: the chunk maps of the chunks
    [chunkIndex], [chunkIndex + 1], ...; [None] when [Pieces] panics. *)
Fixpoint chunkMaps (s : Snapshot) (chunkIndex : Z) (count : nat) :
    option (list (gmap string downloadPieceInfo)) :=
  match count with
  | O => Some []
  | S count' =>
      pieces ← SnapshotPieces s chunkIndex;
      rest ← chunkMaps s (chunkIndex + 1) count';
      Some (chunkMapOf 0 pieces ∅ :: rest)
  end.

(** The unfinished download chunk of chunk [i]. *)
Definition newDownloadChunk (params : downloadParams) (s : Snapshot)
    (minChunk maxChunk minChunkOffset maxChunkOffset : Z)
    (i : Z) (chunkMap : gmap string downloadPieceInfo) (writeOffset : Z) :
    unfinishedDownloadChunk :=
  let fetchOffset := if i =? minChunk then minChunkOffset else 0 in
  let fetchLength :=
    if (i =? maxChunk) && negb (maxChunkOffset =? 0)
    then wrap64 (maxChunkOffset - fetchOffset)
    else wrap64 (ChunkSize s - fetchOffset) in
  {| UDC.st :=
       {| UDC.minPieces := staticMinPieces s;
          UDC.numPieces := staticNumPieces s;
          UDC.staticChunkIndex := i;
          UDC.staticChunkMap := chunkMap;
          UDC.staticChunkSize := ChunkSize s;
          UDC.staticPieceSize := staticPieceSize s;
          UDC.staticFetchLength := fetchLength;
          UDC.staticFetchOffset := fetchOffset;
          UDC.staticWriteOffset := writeOffset;
          UDC.staticLatencyTarget := latencyTarget params + 25 * (i - minChunk);
          UDC.staticNeedsMemory := needsMemory params;
          UDC.staticOverdrive := overdrive params;
          UDC.staticPriority := priority params |};
     UDC.completedPieces := replicate (Z.to_nat (staticNumPieces s)) false;
     UDC.physicalChunkData := replicate (Z.to_nat (staticNumPieces s)) None;
     UDC.pieceUsage := replicate (Z.to_nat (staticNumPieces s)) false;
     UDC.piecesCompleted := 0;
     UDC.piecesRegistered := 0;
     UDC.workersRemaining := 0;
     UDC.workersStandby := [] |}.

(** Second loop: the chunks in the order in which they are handed to
    [managedAddChunkToDownloadHeap]. *)
Fixpoint queueChunks (params : downloadParams) (s : Snapshot)
    (minChunk maxChunk minChunkOffset maxChunkOffset : Z)
    (i : Z) (maps : list (gmap string downloadPieceInfo)) (writeOffset : Z) :
    list unfinishedDownloadChunk :=
  match maps with
  | [] => []
  | chunkMap :: rest =>
      let udc := newDownloadChunk params s minChunk maxChunk minChunkOffset
                                  maxChunkOffset i chunkMap writeOffset in
      udc :: queueChunks params s minChunk maxChunk minChunkOffset maxChunkOffset
                         (i + 1) rest
                         (writeOffset + UDC.staticFetchLength (UDC.st udc))
  end.

(** [func (r *Renter) managedNewDownload(params downloadParams)]: the
    download and the chunks added to the download heap.  When
    [offset + length] wraps around, [maxChunk] can lie below [minChunk]; the
    length [maxChunk-minChunk+1] of [chunkMaps] is then the uint64 value [n]:
    [make] panics when [n] is not an int ([2^63] and more), and otherwise
    neither loop runs and the download is returned without a chunk ([n] is 0
    when [maxChunk] is [minChunk - 1]). *)
Definition managedNewDownload (params : downloadParams) :
    outcome (download * list unfinishedDownloadChunk) :=
  match file params with
  | None => Failed "no file provided when requesting download"
  | Some s =>
      if length params <? 0
      then Failed "download length must be zero or a positive whole number"
      else if offset params <? 0
      then Failed "download offset cannot be a negative number"
      else if Size s <? wrap64 (offset params + length params)
      then Failed "download is requesting data past the boundary of the file"
      else
        let d :=
          {| complete := false; err := None;
             downloadCompleteFuncs := []; executed := []; criticals := 0;
             chunksRemaining := 0;
             destinationString := destinationStringOf params;
             staticDestinationType := destinationType params;
             staticLength := length params;
             staticOffset := offset params;
             staticSiaPathOf := staticSiaPath s;
             staticLatencyTarget := latencyTarget params;
             staticOverdrive := overdrive params;
             staticPriority := priority params |} in
        let d := onComplete d SetEndTime in
        if staticLength d =? 0 then Ok (markComplete d, [])
        else if ChunkSize s =? 0 then Panic
        else
          let '(minChunk, minChunkOffset) := ChunkIndexByOffset s (offset params) in
          let '(maxChunk, maxChunkOffset) :=
            ChunkIndexByOffset s (wrap64 (offset params + length params)) in
          let maxChunk :=
            if (0 <? maxChunk) && (maxChunkOffset =? 0) then maxChunk - 1 else maxChunk in
          if (minChunk =? NumChunks s) || (maxChunk =? NumChunks s)
          then Failed "download is requesting a chunk that is past the boundary of the file"
          else if maxChunk <? minChunk then
            let n := wrap64 (maxChunk - minChunk + 1) in
            if 2 ^ 63 <=? n then Panic
            else
              Ok ({| complete := complete d; err := err d;
                     downloadCompleteFuncs := downloadCompleteFuncs d;
                     executed := executed d; criticals := criticals d;
                     chunksRemaining := wrap64 (chunksRemaining d + n);
                     destinationString := destinationString d;
                     staticDestinationType := staticDestinationType d;
                     staticLength := staticLength d;
                     staticOffset := staticOffset d;
                     staticSiaPathOf := staticSiaPathOf d;
                     staticLatencyTarget := staticLatencyTarget d;
                     staticOverdrive := staticOverdrive d;
                     staticPriority := staticPriority d |}, [])
          else
            match chunkMaps s minChunk (Z.to_nat (maxChunk - minChunk + 1)) with
            | None => Panic
            | Some maps =>
                let d :=
                  {| complete := complete d; err := err d;
                     downloadCompleteFuncs := downloadCompleteFuncs d;
                     executed := executed d; criticals := criticals d;
                     chunksRemaining := chunksRemaining d + (maxChunk - minChunk + 1);
                     destinationString := destinationString d;
                     staticDestinationType := staticDestinationType d;
                     staticLength := staticLength d;
                     staticOffset := staticOffset d;
                     staticSiaPathOf := staticSiaPathOf d;
                     staticLatencyTarget := staticLatencyTarget d;
                     staticOverdrive := staticOverdrive d;
                     staticPriority := staticPriority d |} in
                Ok (d, queueChunks params s minChunk maxChunk minChunkOffset
                                   maxChunkOffset minChunk maps 0)
            end
  end.

(** [ceil(a / b)] for a positive [b]. *)
Definition ceilDiv (a b : Z) : Z := (a + b - 1) / b.

(** The index of the chunk a download chunk stands for. *)
Definition chunkIndexOf (udc : unfinishedDownloadChunk) : Z :=
  UDC.staticChunkIndex (UDC.st udc).

(** The bytes of the file that a download chunk fetches: where they start
    in the file, and how many they are. *)
Definition fileWindow (chunkSize : Z) (udc : unfinishedDownloadChunk) : Z * Z :=
  (chunkIndexOf udc * chunkSize + UDC.staticFetchOffset (UDC.st udc),
   UDC.staticFetchLength (UDC.st udc)).

(** The windows [ws] follow one another without gap or overlap from byte
    [a] up to byte [b], none of them empty. *)
Fixpoint tiles (a b : Z) (ws : list (Z * Z)) : Prop :=
  match ws with
  | [] => a = b
  | (start, len) :: rest => start = a /\ 0 < len /\ tiles (a + len) b rest
  end.

(** [modules.RenterDownloadParameters]; [Httpwriter] says whether the
    writer is set. *)
Record RenterDownloadParameters := {
  Async : bool;
  Httpwriter : bool;
  Destination : string;
  Length : Z;
  Offset : Z;
  SiaPath : string
}.

(** What [managedDownload] reads of the file entry it opened. *)
Record fileEntry := {
  entrySize : Z;
  entrySnapshot : option Snapshot
}.

(** The renter around a download: whether [tg.Add()] succeeds, the files of
    the file set, whether the destination file can be opened, whether the
    stop channel is closed when [Download] waits, and which case its
    [select] takes when both are ready. *)
Record renterEnv := {
  tgAdd : bool;
  openFile : string -> option fileEntry;
  openDestination : string -> bool;
  stopChan : bool;
  selectsStop : bool
}.

(** [filepath.IsAbs] *)
Definition isAbs (path : string) : bool := String.prefix "/" path.

(** [func (r *Renter) managedDownload(p modules.RenterDownloadParameters)] *)
Definition managedDownload (env : renterEnv) (p : RenterDownloadParameters) :
    outcome (download * list unfinishedDownloadChunk) :=
  match openFile env (SiaPath p) with
  | None => Failed "no file known with that path"
  | Some entry =>
      let isHTTPResp := Httpwriter p in
      if Async p && isHTTPResp
      then Failed "cannot async download to http response"
      else if isHTTPResp && negb (String.eqb (Destination p) "")
      then Failed "destination cannot be specified when downloading to http response"
      else if negb isHTTPResp && String.eqb (Destination p) ""
      then Failed "destination not supplied"
      else if negb (String.eqb (Destination p) "") && negb (isAbs (Destination p))
      then Failed "destination must be an absolute path"
      else if (Offset p =? entrySize entry) && negb (entrySize entry =? 0)
      then Failed "offset equals filesize"
      else if (Length p =? 0) && (entrySize entry <? Offset p)
      then Failed "offset cannot be greater than file size"
      else
        let pLength := if Length p =? 0 then wrap64 (entrySize entry - Offset p) else Length p in
        if (Offset p <? 0) || (entrySize entry <? wrap64 (Offset p + pLength))
        then Failed "offset and length combination invalid"
        else if negb isHTTPResp && negb (openDestination env (Destination p))
        then Failed "cannot open the destination"
        else
          match entrySnapshot entry with
          | None => Failed "cannot take a snapshot of the file"
          | Some snap =>
              match managedNewDownload
                      {| destinationStringOf := Destination p;
                         destinationType := if isHTTPResp then "http stream" else "file";
                         file := Some snap;
                         latencyTarget := 25000 * 1000000;
                         length := pLength;
                         needsMemory := true;
                         offset := Offset p;
                         overdrive := 3;
                         priority := 5 |} with
              | Ok (d, chunks) => Ok (onComplete d CloseDestination, chunks)
              | Failed e => Failed e
              | Panic => Panic
              end
          end
  end.

(** How a call of the blocking [Download] ends: it returns, or it waits for
    the download to complete. *)
Inductive downloadReturn :=
| Returned (e : option string)
| Waits.

(** [func (r *Renter) Download(p modules.RenterDownloadParameters) error] *)
Definition Download (env : renterEnv) (p : RenterDownloadParameters) :
    outcome downloadReturn :=
  if negb (tgAdd env) then Ok (Returned (Some "thread group stopped"))
  else
    match managedDownload env p with
    | Failed e => Ok (Returned (Some e))
    | Panic => Panic
    | Ok (d, _) =>
        if complete d && stopChan env then
          if selectsStop env
          then Ok (Returned (Some "download interrupted by shutdown"))
          else Ok (Returned (err d))
        else if complete d then Ok (Returned (err d))
        else if stopChan env
        then Ok (Returned (Some "download interrupted by shutdown"))
        else Ok Waits
    end.

(** A renter that is up, with one file of the given size and snapshot. *)
Definition oneFileEnv (path : string) (size : Z) (snap : Snapshot) : renterEnv :=
  {| tgAdd := true;
     openFile := fun p =>
       if String.eqb p path
       then Some {| entrySize := size; entrySnapshot := Some snap |}
       else None;
     openDestination := fun _ => true;
     stopChan := false;
     selectsStop := false |}.

(** The snapshot of a file of [size] bytes in [chunks] chunks of 2 * 20
    bytes, 2-of-3 coded, every piece set holding one piece. *)
Definition exampleSnapshot (size : Z) (chunks : nat) : Snapshot :=
  {| staticChunks :=
       replicate chunks
         [ [ {| HostPubKey := "hostA"; MerkleRoot := "rootA" |} ];
           [ {| HostPubKey := "hostB"; MerkleRoot := "rootB" |} ];
           [ {| HostPubKey := "hostC"; MerkleRoot := "rootC" |} ] ];
     staticFileSize := size;
     staticPieceSize := 20;
     staticMinPieces := 2;
     staticNumPieces := 3;
     staticSiaPath := "file" |}.

(** The first 80 bytes of a file of 100 bytes in three chunks of 40 bytes:
    the range ends on the boundary between the chunks 1 and 2. *)
Definition boundaryParams : downloadParams :=
  {| destinationStringOf := "/tmp/out"; destinationType := "file";
     file := Some (exampleSnapshot 100 3);
     latencyTarget := 0; length := 80; needsMemory := true;
     offset := 0; overdrive := 3; priority := 5 |}.

End Download.

From Stdlib Require Import Sorted.

(** ** The segments of a sector a worker fetches (workerdownload.go,
    [segmentsForRecovery] and [sectorOffsetAndLength]) *)
Module Recovery.
Import BuildChunks.

(** The two constants the functions read, [modules.SectorSize] and
    [crypto.SegmentSize], which the sources use and do not define. *)
Record sizes := {
  SectorSize : Z;
  SegmentSize : Z
}.

(** What the functions ask of the [modules.ErasureCoder]. *)
Record ErasureCoder := {
  SupportsPartialEncoding : bool;
  rsMinPieces : Z
}.

(** [func segmentsForRecovery(chunkFetchOffset, chunkFetchLength uint64, rs)]:
    the first segment and the number of segments.  The arithmetic is that of
    uint64; [None] is the panic of a division by a [recoveredSegmentSize] of
    zero. *)
Definition segmentsForRecovery (k : sizes) (chunkFetchOffset chunkFetchLength : Z)
    (rs : ErasureCoder) : option (Z * Z) :=
  if negb (SupportsPartialEncoding rs)
  then Some (0, wrap64 (SectorSize k) / SegmentSize k)
  else
    let recoveredSegmentSize := wrap64 (rsMinPieces rs * SegmentSize k) in
    if recoveredSegmentSize =? 0 then None
    else
      let startSegment := chunkFetchOffset / recoveredSegmentSize in
      let fetchEnd := wrap64 (chunkFetchOffset + chunkFetchLength) in
      let endSegment := fetchEnd / recoveredSegmentSize in
      let endSegment :=
        if negb (fetchEnd mod recoveredSegmentSize =? 0)
        then wrap64 (endSegment + 1) else endSegment in
      Some (startSegment, wrap64 (endSegment - startSegment)).

(** [func sectorOffsetAndLength(chunkFetchOffset, chunkFetchLength uint64, rs)] *)
Definition sectorOffsetAndLength (k : sizes) (chunkFetchOffset chunkFetchLength : Z)
    (rs : ErasureCoder) : option (Z * Z) :=
  '(segmentIndex, numSegments) ←
    segmentsForRecovery k chunkFetchOffset chunkFetchLength rs;
  Some (wrap64 (segmentIndex * SegmentSize k), wrap64 (numSegments * SegmentSize k)).

End Recovery.

(** ** The download queue of a worker (workerdownload.go,
    [managedQueueDownloadChunk], [managedNextDownloadChunk] and
    [managedKillDownloading]) *)
Module WorkerQueue.

(** The download fields of [worker], guarded by [downloadMu]; [chunk] stands
    for the pointers [*unfinishedDownloadChunk] the queue holds. *)
Record queue (chunk : Type) := {
  downloadChunks : list chunk;
  downloadTerminated : bool
}.
Arguments downloadChunks {chunk} q.
Arguments downloadTerminated {chunk} q.

(** What a call does outside of the queue: the non-blocking send on
    [downloadChan], and [managedRemoveWorker] on a chunk. *)
Inductive event (chunk : Type) :=
| Notify
| RemoveWorker (udc : chunk).
Arguments Notify {chunk}.
Arguments RemoveWorker {chunk} udc.

(** A worker as it starts: nothing queued, not terminated. *)
Definition newQueue {chunk : Type} : queue chunk :=
  {| downloadChunks := []; downloadTerminated := false |}.

(** [func (w *worker) managedKillDownloading()] *)
Definition managedKillDownloading {chunk : Type} (w : queue chunk) :
    queue chunk * list (event chunk) :=
  let removedChunks := downloadChunks w in
  ({| downloadChunks := []; downloadTerminated := true |},
   RemoveWorker <$> removedChunks).

(** [func (w *worker) managedNextDownloadChunk() *unfinishedDownloadChunk] *)
Definition managedNextDownloadChunk {chunk : Type} (w : queue chunk) :
    option chunk * queue chunk :=
  match downloadChunks w with
  | [] => (None, w)
  | nextChunk :: rest =>
      (Some nextChunk,
       {| downloadChunks := rest; downloadTerminated := downloadTerminated w |})
  end.

(** [func (w *worker) managedQueueDownloadChunk(udc *unfinishedDownloadChunk)] *)
Definition managedQueueDownloadChunk {chunk : Type} (w : queue chunk) (udc : chunk) :
    queue chunk * list (event chunk) :=
  let terminated := downloadTerminated w in
  if negb terminated
  then ({| downloadChunks := downloadChunks w ++ [udc];
           downloadTerminated := downloadTerminated w |}, [Notify])
  else (w, [RemoveWorker udc]).

(** The calls made on a worker's queue, by the download loop
    ([OpQueue]), by the worker's own thread ([OpNext]) and when the worker is
    shut down ([OpKill]). *)
Inductive op (chunk : Type) :=
| OpQueue (udc : chunk)
| OpNext
| OpKill.
Arguments OpQueue {chunk} udc.
Arguments OpNext {chunk}.
Arguments OpKill {chunk}.

(** The queue together with what the calls so far gave out: the chunks
    handed to [OpQueue], those [managedNextDownloadChunk] returned, and those
    on which [managedRemoveWorker] was called, each in order. *)
Record history (chunk : Type) := {
  current : queue chunk;
  queued : list chunk;
  returned : list chunk;
  removed : list chunk
}.
Arguments current {chunk} h.
Arguments queued {chunk} h.
Arguments returned {chunk} h.
Arguments removed {chunk} h.

Definition removedBy {chunk : Type} (evs : list (event chunk)) : list chunk :=
  omap (fun ev => match ev with RemoveWorker udc => Some udc | Notify => None end) evs.

Definition stepQueue {chunk : Type} (h : history chunk) (o : op chunk) : history chunk :=
  match o with
  | OpQueue udc =>
      let '(w, evs) := managedQueueDownloadChunk (current h) udc in
      {| current := w; queued := queued h ++ [udc];
         returned := returned h; removed := removed h ++ removedBy evs |}
  | OpNext =>
      let '(next, w) := managedNextDownloadChunk (current h) in
      {| current := w; queued := queued h;
         returned := returned h ++ option_list next; removed := removed h |}
  | OpKill =>
      let '(w, evs) := managedKillDownloading (current h) in
      {| current := w; queued := queued h;
         returned := returned h; removed := removed h ++ removedBy evs |}
  end.

Definition runQueue {chunk : Type} (ops : list (op chunk)) (h : history chunk) :
    history chunk :=
  foldl stepQueue h ops.

Definition startOf {chunk : Type} (w : queue chunk) : history chunk :=
  {| current := w; queued := []; returned := []; removed := [] |}.

(** The invariant of a worker's queue: the chunks queued so far are, in
    order, those returned, those removed and those still waiting; no chunk is
    removed before the worker is terminated, and none waits afterwards. *)
Definition queueInv {chunk : Type} (h : history chunk) : Prop :=
  queued h = returned h ++ removed h ++ downloadChunks (current h)
  /\ (downloadTerminated (current h) = false -> removed h = [])
  /\ (downloadTerminated (current h) = true -> downloadChunks (current h) = []).

End WorkerQueue.

(** ** The download history of the renter (download.go, [DownloadHistory]
    and [ClearDownloadHistory]) *)
Module History.
Import Download.

(** A [time.Time] is kept as the instant it names, in nanoseconds since the
    Unix epoch.  [zeroTime] is the zero value [time.Time{}], the first
    instant of the year 1. *)
Definition zeroTime : Z := -62135596800 * 1000000000.

(** [func (t Time) UnixNano() int64]: the instant as an int64, which wraps
    around for instants outside of its range. *)
Definition UnixNano (t : Z) : Z := (t + 2 ^ 63) mod 2 ^ 64 - 2 ^ 63.

(** A [*download] of [r.downloadHistory]: the download together with the
    fields of the struct that only the history reads. *)
Record historyDownload := {
  download_ : download;
  staticStartTime : Z;
  endTime : Z;
  dataReceived : Z;
  totalDataTransferred : Z
}.

(** [modules.DownloadInfo], as [DownloadHistory] fills it. *)
Record DownloadInfo := {
  InfoDestination : string;
  InfoDestinationType : string;
  InfoLength : Z;
  InfoOffset : Z;
  InfoSiaPath : string;
  InfoCompleted : bool;
  InfoEndTime : Z;
  InfoError : string;
  InfoReceived : Z;
  InfoStartTime : Z;
  InfoStartTimeUnix : Z;
  InfoTotalDataTransferred : Z
}.

(** The body of the loop of [DownloadHistory] for the download [d]. *)
Definition downloadInfo (d : historyDownload) : DownloadInfo :=
  {| InfoDestination := destinationString (download_ d);
     InfoDestinationType := staticDestinationType (download_ d);
     InfoLength := staticLength (download_ d);
     InfoOffset := staticOffset (download_ d);
     InfoSiaPath := staticSiaPathOf (download_ d);
     InfoCompleted := staticComplete (download_ d);
     InfoEndTime := endTime d;
     InfoError := match err (download_ d) with Some e => e | None => "" end;
     InfoReceived := dataReceived d;
     InfoStartTime := staticStartTime d;
     InfoStartTimeUnix := UnixNano (staticStartTime d);
     InfoTotalDataTransferred := totalDataTransferred d |}.

(** [func (r *Renter) DownloadHistory() []modules.DownloadInfo]:
    [downloads[i]] is made from [r.downloadHistory[len(r.downloadHistory)-i-1]];
    [None] is the panic of an index out of range. *)
Definition DownloadHistory (downloadHistory : list historyDownload) :
    option (list DownloadInfo) :=
  let n := List.length downloadHistory in
  mapM (fun i => downloadInfo <$> downloadHistory !! (n - i - 1)%nat) (seq 0 n).

(** [withinTimespan] of [ClearDownloadHistory]:
    [(t.After(after) || t.Equal(after)) && (t.Before(before) || t.Equal(before))] *)
Definition withinTimespan (after before t : Z) : bool :=
  ((after <? t) || (t =? after)) && ((t <? before) || (t =? before)).

(** The loop [for _, d := range r.downloadHistory
    { if !withinTimespan(d.staticStartTime) { filtered = append(filtered, d) } }] *)
Definition outsideTimespan (after before : Z) (downloadHistory : list historyDownload) :
    list historyDownload :=
  foldl (fun filtered d =>
           if negb (withinTimespan after before (staticStartTime d))
           then filtered ++ [d] else filtered)
        [] downloadHistory.

(** [func (r *Renter) ClearDownloadHistory(after, before time.Time) error]:
    the error it returns and the history it leaves.  [tgAdd] says whether
    [r.tg.Add()] succeeds; [EndOfTime] is [types.EndOfTime], which the sources
    use and do not define. *)
Definition ClearDownloadHistory (tgAdd : bool) (EndOfTime : Z)
    (downloadHistory : list historyDownload) (after before : Z) :
    option string * list historyDownload :=
  if negb tgAdd then (Some "thread group stopped", downloadHistory)
  else if (List.length downloadHistory =? 0)%nat then (None, downloadHistory)
  else if before <? after
  then (Some "before timestamp can not be newer then after timestamp", downloadHistory)
  else if (before =? EndOfTime) && (after =? zeroTime) then (None, [])
  else (None, outsideTimespan after before downloadHistory).

(** A download of the history that started at [start]. *)
Definition startedAt (start : Z) : historyDownload :=
  {| download_ := runningDownload; staticStartTime := start; endTime := zeroTime;
     dataReceived := 0; totalDataTransferred := 0 |}.

End History.

(** ** The complete functions of a download (download.go, [OnComplete],
    [managedFail], [managedCancel], [markComplete] and [DownloadAsync]) *)
Module Completion.
Import Download.

(** The calls that change a download once it is created. *)
Inductive call :=
| CallOnComplete (f : completeFunc)
| CallFail (e : string)
| CallCancel
| CallMarkComplete.

(** [func (d *download) OnComplete(f func(error) error)]: [onComplete] under
    the lock of the download. *)
Definition OnComplete (d : download) (f : completeFunc) : download := onComplete d f.

Definition stepCall (d : download) (c : call) : download :=
  match c with
  | CallOnComplete f => OnComplete d f
  | CallFail e => managedFail d e
  | CallCancel => managedCancel d
  | CallMarkComplete => markComplete d
  end.

Definition runCalls (cs : list call) (d : download) : download := foldl stepCall d cs.

(** The functions the calls registered, in order. *)
Definition registered (cs : list call) : list completeFunc :=
  omap (fun c => match c with CallOnComplete f => Some f | _ => None end) cs.

(** A download as [managedNewDownload] allocates it: not complete, without
    error, no complete function registered or run. *)
Definition created (d : download) : Prop :=
  complete d = false /\ err d = None
  /\ downloadCompleteFuncs d = [] /\ executed d = [].

(** [func (r *Renter) DownloadAsync(p, f)].  The cancel function it returns
    is [d.managedCancel] of the download given back here; [f = None] is the
    nil callback. *)
Definition DownloadAsync (env : renterEnv) (p : RenterDownloadParameters)
    (f : option completeFunc) : outcome (download * list unfinishedDownloadChunk) :=
  if negb (tgAdd env) then Failed "thread group stopped"
  else
    match managedDownload env p with
    | Failed e => Failed e
    | Panic => Panic
    | Ok (d, chunks) =>
        Ok (match f with Some f => onComplete d f | None => d end, chunks)
    end.

(** A download of 60 bytes right after it was allocated. *)
Definition createdDownload : download :=
  {| complete := false; err := None;
     downloadCompleteFuncs := []; executed := []; criticals := 0;
     chunksRemaining := 0;
     destinationString := "/tmp/out"; staticDestinationType := "file";
     staticLength := 60; staticOffset := 0; staticSiaPathOf := "file";
     staticLatencyTarget := 0; staticOverdrive := 3; staticPriority := 5 |}.

(** The download of the first 60 bytes of a file of 100 bytes at [path],
    asked for asynchronously. *)
Definition asyncParameters (path : string) : RenterDownloadParameters :=
  {| Async := true; Httpwriter := false; Destination := "/tmp/out";
     Length := 60; Offset := 0; SiaPath := path |}.

End Completion.

(** ** The order of the upload heap (uploadheap.go, [Less] with
    container/heap's [Pop]) *)
Module HeapOrder.
Import UploadHeap.

(** The chunk has a completion quotient: it is not the NaN of 0/0. *)
Definition hasRatio (c : unfinishedUploadChunk) : Prop :=
  UUC.piecesNeeded c <> 0 \/ UUC.piecesCompleted c <> 0.

(** [Less] does not put [b] before [a]: [a] may be popped first. *)
Definition notAfter (a b : unfinishedUploadChunk) : Prop := chunkLess b a = false.

(** The invariant that container/heap keeps on the first [n] elements of the
    slice: [!h.Less(j, i)] for the children [j = 2*i+1] and [j = 2*i+2] of
    every [i]. *)
Definition heapOrdered (h : uploadChunkHeap) (n : nat) : Prop :=
  forall i j ci cj,
    (j < n)%nat -> (j = 2 * i + 1 \/ j = 2 * i + 2)%nat ->
    h !! i = Some ci -> h !! j = Some cj -> notAfter ci cj.

(** The invariant holds but for the element at [i], which may be out of
    place with respect to its children. *)
Definition orderedExcept (h : uploadChunkHeap) (n i : nat) : Prop :=
  (forall p c cp cc,
      (c < n)%nat -> (c = 2 * p + 1 \/ c = 2 * p + 2)%nat -> p <> i ->
      h !! p = Some cp -> h !! c = Some cc -> notAfter cp cc)
  /\ (forall g c cg cc,
        (i = 2 * g + 1 \/ i = 2 * g + 2)%nat ->
        (c < n)%nat -> (c = 2 * i + 1 \/ c = 2 * i + 2)%nat ->
        h !! g = Some cg -> h !! c = Some cc -> notAfter cg cc).

(** A chunk without a completion quotient (0 of 0 pieces), a chunk that is
    half complete and one that is a quarter complete, none of them stuck. *)
Definition emptyRatioChunk : unfinishedUploadChunk := testChunk "file" 0 false 0 0.
Definition halfChunk : unfinishedUploadChunk := testChunk "file" 1 false 1 2.
Definition quarterChunk : unfinishedUploadChunk := testChunk "file" 2 false 1 4.

End HeapOrder.

(** ** Filling the upload heap (uploadheap.go,
    [managedBuildAndPushChunks] and [managedBuildAndPushRandomChunk]) *)
Module BuildAndPush.
Import UploadHeap BuildChunks.

(** [func (r *Renter) managedBuildAndPushChunks(files, hosts, target)]: the
    heap it leaves and, file by file, what [buildUnfinishedChunks] did to the
    entries.  [copyEntry file] stands for the slice
    [file.CopyEntry(int(file.NumChunks()))], whose function is not among the
    sources.  [None] is a panic of [buildUnfinishedChunks]. *)
Fixpoint managedBuildAndPushChunks (r : renter)
    (copyEntry : SiaFileSetEntry -> list SiaFileSetEntry)
    (files : list SiaFileSetEntry) (hosts : gset string) (target : repairTarget)
    (uh : uploadHeap) : option (uploadHeap * list (list effect)) :=
  match files with
  | [] => Some (uh, [])
  | file :: rest =>
      '(unfinishedUploadChunks, effs) ←
        buildUnfinishedChunks r (copyEntry file) hosts target;
      if (List.length unfinishedUploadChunks =? 0)%nat then Some (uh, [effs])
      else
        '(uh', effss) ←
          managedBuildAndPushChunks r copyEntry rest hosts target
            (foldl managedPush uh unfinishedUploadChunks);
        Some (uh', effs :: effss)
  end.

(** [randChunk.stuckRepair = true] *)
Definition setStuckRepair (c : unfinishedUploadChunk) : unfinishedUploadChunk :=
  {| UUC.fileEntry := UUC.fileEntry c; UUC.id := UUC.id c; UUC.index := UUC.index c;
     UUC.length := UUC.length c; UUC.offset := UUC.offset c;
     UUC.memoryNeeded := UUC.memoryNeeded c; UUC.minimumPieces := UUC.minimumPieces c;
     UUC.piecesNeeded := UUC.piecesNeeded c; UUC.stuck := UUC.stuck c;
     UUC.stuckRepair := true;
     UUC.piecesCompleted := UUC.piecesCompleted c;
     UUC.pieceUsage := UUC.pieceUsage c;
     UUC.unusedHosts := UUC.unusedHosts c |}.

(** [func (r *Renter) managedBuildAndPushRandomChunk(files, hosts, target)].
    [randFile n] and [randChunk n] are the values the two calls of
    [fastrand.Intn(n)] return; [None] is a panic. *)
Definition managedBuildAndPushRandomChunk (r : renter)
    (copyEntry : SiaFileSetEntry -> list SiaFileSetEntry)
    (randFile randChunk : nat -> nat)
    (files : list SiaFileSetEntry) (hosts : gset string) (target : repairTarget)
    (uh : uploadHeap) : option uploadHeap :=
  if (List.length files =? 0)%nat then Some uh
  else
    file ← files !! randFile (List.length files);
    '(unfinishedUploadChunks, _) ←
      buildUnfinishedChunks r (copyEntry file) hosts target;
    if (List.length unfinishedUploadChunks =? 0)%nat then Some uh
    else
      chunk ← unfinishedUploadChunks !! randChunk (List.length unfinishedUploadChunks);
      Some (managedPush uh (setStuckRepair chunk)).

(** A second file like [exampleEntry], of which both chunks miss a piece. *)
Definition otherEntry : SiaFileSetEntry :=
  {| UID := "other"; MinPieces := 2; NumPieces := 3; PieceSize := 20; Overhead := 0;
     stuckFlags := [false; false];
     HostPublicKeys := ["hostA"; "hostB"; "hostC"];
     chunkPieces :=
       [ [ [ {| HostPubKey := "hostA"; MerkleRoot := "a0" |} ]; []; [] ];
         [ [ {| HostPubKey := "hostA"; MerkleRoot := "a1" |} ]; []; [] ] ] |}.

(** A file of which every piece is placed. *)
Definition completeEntry : SiaFileSetEntry :=
  {| UID := "complete"; MinPieces := 2; NumPieces := 3; PieceSize := 20; Overhead := 0;
     stuckFlags := [false];
     HostPublicKeys := ["hostA"; "hostB"; "hostC"];
     chunkPieces :=
       [ [ [ {| HostPubKey := "hostA"; MerkleRoot := "a0" |} ];
           [ {| HostPubKey := "hostB"; MerkleRoot := "b0" |} ];
           [ {| HostPubKey := "hostC"; MerkleRoot := "c0" |} ] ] ] |}.

(** One entry per chunk of the file. *)
Definition exampleCopies (file : SiaFileSetEntry) : list SiaFileSetEntry :=
  replicate (List.length (chunkPieces file)) file.

End BuildAndPush.

(** ** The rounds of the repair loop (uploadheap.go, [managedRepairLoop]) *)
Module RepairRounds.
Import UploadHeap RepairLoop.

(** The chunks that the events [evs] show as popped as [nextChunk]. *)
Definition poppedIn (evs : list event) : list unfinishedUploadChunk :=
  omap (fun ev => match ev with EvPop c => Some c | _ => None end) evs.

(** The chunks popped as [nextChunk] in the rounds of a run of the loop. *)
Definition poppedBy (rounds : list (list event)) : list unfinishedUploadChunk :=
  poppedIn (concat rounds).

(** The draining loops that the events [evs] show: the chunks each one
    popped and the chunks it pushed again. *)
Definition drainedIn (evs : list event) :
    list (list unfinishedUploadChunk * list unfinishedUploadChunk) :=
  omap (fun ev => match ev with
                  | EvDrained popped repushed => Some (popped, repushed)
                  | _ => None
                  end) evs.

(** A round starts with the pop of its [nextChunk] and pops no other chunk
    as [nextChunk]; the pops of its draining loop are not counted here (see
    [allPoppedIn]). *)
Definition popsNextChunkOnce (evs : list event) : Prop :=
  exists c rest, evs = EvPop c :: rest /\ poppedIn rest = [].

(** Every chunk that a call of [managedPop] returned in the events [evs],
    in the order of the calls: the chunks popped as [nextChunk] and the
    chunks popped by the draining loop. *)
Definition allPoppedIn (evs : list event) : list unfinishedUploadChunk :=
  flat_map (fun ev => match ev with
                      | EvPop c => [c]
                      | EvDrained popped _ => popped
                      | _ => []
                      end) evs.

(** Every chunk popped in the rounds of a run of the loop. *)
Definition allPoppedBy (rounds : list (list event)) : list unfinishedUploadChunk :=
  allPoppedIn (concat rounds).

(** The chunks handed to a repair thread
    ([go r.threadedFetchAndRepairChunk(uuc)]) in the events [evs]. *)
Definition repairedIn (evs : list event) : list unfinishedUploadChunk :=
  omap (fun ev => match ev with EvFetchAndRepair c => Some c | _ => None end) evs.

(** The chunks handed to a repair thread in the rounds of a run. *)
Definition repairedBy (rounds : list (list event)) : list unfinishedUploadChunk :=
  repairedIn (concat rounds).

(** A renter like [steadyEnv] that stops handing out chunks after [limit]
    of them. *)
Definition limitedEnv (limit : Z) : env :=
  {| stopped := fun _ => false;
     online := fun _ => true;
     cachedHealth := fun _ => 1 # 2;
     workerPoolSize := fun _ => 5;
     memoryGranted := fun _ => true;
     maxConsecutiveChunkRepairs := limit |}.

End RepairRounds.

(** ** The counters of a download chunk (workerdownload.go,
    [managedDownload]) *)
Module WorkerAccounting.
Import WorkerDownload.

(** What the completions of [piecesCompleted] pieces add to
    [atomicDataReceived] for a chunk of which [fetchLength] bytes are asked
    for and that needs [K] pieces. *)
Definition receivedAfter (K fetchLength piecesCompleted : Z) : Z :=
  if K <=? piecesCompleted then fetchLength
  else piecesCompleted * (fetchLength / K).

(** The fetch of the piece did not give a decrypted piece. *)
Definition fetchFailed (fetch : fetchResult) : bool :=
  match fetch with
  | Fetched _ => false
  | _ => true
  end.

(** The number of pieces whose data the chunk holds in
    [physicalChunkData]. *)
Definition storedPieces (udc : unfinishedDownloadChunk) : Z :=
  Z.of_nat (List.length (filter (fun p => p <> None) (UDC.physicalChunkData udc))).

(** A chunk of 2-of-3 coded data of which 41 bytes are asked for. *)
Definition oddChunk : unfinishedDownloadChunk :=
  {| UDC.st :=
       {| UDC.minPieces := 2; UDC.numPieces := 3; UDC.staticChunkIndex := 0;
          UDC.staticChunkMap := UDC.staticChunkMap (UDC.st exampleChunk);
          UDC.staticChunkSize := 64; UDC.staticPieceSize := 32;
          UDC.staticFetchLength := 41; UDC.staticFetchOffset := 0;
          UDC.staticWriteOffset := 0; UDC.staticLatencyTarget := 0;
          UDC.staticNeedsMemory := true; UDC.staticOverdrive := 1;
          UDC.staticPriority := 5 |};
     UDC.completedPieces := [false; false; false];
     UDC.physicalChunkData := [None; None; None];
     UDC.pieceUsage := [false; false; false];
     UDC.piecesCompleted := 0;
     UDC.piecesRegistered := 0;
     UDC.workersRemaining := 3;
     UDC.workersStandby := [] |}.

Definition oddState : state :=
  {| chunk := oddChunk; atomicDataReceived := 0;
     atomicTotalDataTransferred := 0; recoveryThreads := 0 |}.

End WorkerAccounting.

(** ** The chunks that [buildUnfinishedChunks] returns (uploadheap.go) *)
Module ChunkAccounting.
Import BuildChunks.

(** The number of slots of [pieceUsage] that are marked used. *)
Definition usedSlots (c : unfinishedUploadChunk) : Z :=
  Z.of_nat (List.length (filter (fun b => b = true) (UUC.pieceUsage c))).

(** The chunk is accounted for: [piecesCompleted] counts the used slots of
    [pieceUsage], which has one slot per piece needed, and the unused hosts
    are hosts of the set the chunk was built with. *)
Definition accounted (hosts : gset string) (c : unfinishedUploadChunk) : Prop :=
  UUC.piecesCompleted c = usedSlots c
  /\ List.length (UUC.pieceUsage c) = Z.to_nat (UUC.piecesNeeded c)
  /\ UUC.unusedHosts c ⊆ hosts.

(** The entries are copies of the entry of one file, as
    [file.CopyEntry(int(file.NumChunks()))] makes them. *)
Definition copiesOf (file : SiaFileSetEntry) (entrys : list SiaFileSetEntry) : Prop :=
  Forall (fun entry => entry = file) entrys.

(** A 2-of-3 file of three chunks of which the second is stuck; no piece is
    placed. *)
Definition mixedEntry : SiaFileSetEntry :=
  {| UID := "mixed"; MinPieces := 2; NumPieces := 3; PieceSize := 20; Overhead := 0;
     stuckFlags := [false; true; false];
     HostPublicKeys := ["hostA"; "hostB"; "hostC"];
     chunkPieces := [ [ []; []; [] ]; [ []; []; [] ]; [ []; []; [] ] ] |}.

End ChunkAccounting.

(** ** The chunks the download planner hands to the workers (download.go,
    [managedNewDownload]) *)
Module PlannedChunks.
Import BuildChunks Download.

(** The entry [info] of a chunk map names a piece of [host] among the piece
    sets [pieces]: the piece set at [info]'s index holds a piece of that host
    with [info]'s root. *)
Definition namesPiece (pieces : list (list Piece)) (host : string)
    (info : downloadPieceInfo) : Prop :=
  exists pieceSet piece,
    pieces !! pieceIndex info = Some pieceSet
    /\ piece ∈ pieceSet
    /\ HostPubKey piece = host
    /\ MerkleRoot piece = pieceRoot info.

(** The three slices of the chunk have [n] slots each, [n] is not 0, and
    every piece index of the chunk map is below [n]. *)
Definition slotsPerPiece (n : nat) (udc : unfinishedDownloadChunk) : Prop :=
  (0 < n)%nat
  /\ List.length (UDC.completedPieces udc) = n
  /\ List.length (UDC.pieceUsage udc) = n
  /\ List.length (UDC.physicalChunkData udc) = n
  /\ (forall key info,
        UDC.staticChunkMap (UDC.st udc) !! key = Some info ->
        (pieceIndex info < n)%nat).

(** No chunk of the snapshot has more piece sets than the erasure code has
    pieces, and the code has at least one piece. *)
Definition fitsErasureCode (s : Snapshot) : Prop :=
  0 < staticNumPieces s
  /\ Forall (fun pieces => (List.length pieces <= Z.to_nat (staticNumPieces s))%nat)
            (staticChunks s).

(** A request for the bytes 20 up to the end of the file at [path], written
    to a file. *)
Definition restOfFile (path : string) : RenterDownloadParameters :=
  {| Async := false; Httpwriter := false; Destination := "/tmp/out";
     Length := 0; Offset := 20; SiaPath := path |}.

(** A request whose offset lies beyond the file and whose end, computed in
    uint64, wraps around to byte 2 of the file. *)
Definition wrappedParams : downloadParams :=
  {| destinationStringOf := "/tmp/out"; destinationType := "file";
     file := Some (exampleSnapshot 100 3);
     latencyTarget := 0; length := 3; needsMemory := true;
     offset := 2 ^ 64 - 1; overdrive := 3; priority := 5 |}.

End PlannedChunks.

(** ** Building the heap from a directory (uploadheap.go,
    [managedBuildChunkHeap]) *)
Module BuildChunkHeap.
Import UploadHeap BuildChunks BuildAndPush.

(** [os.FileInfo], as far as [managedBuildChunkHeap] reads it. *)
Record FileInfo := { Name : string; IsDir : bool }.

(** What the file system, the file set and the clock give
    [managedBuildChunkHeap], none of which is among the sources:
    [ReadDir] is the result of
    [ioutil.ReadDir(filepath.Join(r.staticFilesDir, dirSiaPath))] ([None]: an
    error), [Ext] is [filepath.Ext], [siaPathOf name ext] is
    [filepath.Join(dirSiaPath, strings.TrimSuffix(name, ext))],
    [fileSetOpen] is [r.staticFileSet.Open] ([None]: an error),
    [NumStuckChunks] the method of the file, [sinceRecentRepair file] is
    [time.Since(file.RecentRepairTime())]. *)
Record dirEnv := {
  ReadDir : option (list FileInfo);
  Ext : string -> string;
  siaPathOf : string -> string -> string;
  ShareExtension : string;
  fileSetOpen : string -> option SiaFileSetEntry;
  NumStuckChunks : SiaFileSetEntry -> Z;
  sinceRecentRepair : SiaFileSetEntry -> Z;
  fileRepairInterval : Z
}.

(** The calls of [Open] that succeeded and the calls of [Close] on the
    entries they returned, by sia path. *)
Inductive handleEvent :=
| EvOpen (siaPath : string)
| EvClose (siaPath : string).

(** [fi.IsDir() || ext != siafile.ShareExtension] *)
Definition skipped (env : dirEnv) (fi : FileInfo) : bool :=
  IsDir fi || negb (String.eqb (Ext env (Name fi)) (ShareExtension env)).

(** [siaPath := filepath.Join(dirSiaPath, strings.TrimSuffix(fi.Name(), ext))] *)
Definition siaPath (env : dirEnv) (fi : FileInfo) : string :=
  siaPathOf env (Name fi) (Ext env (Name fi)).

(** The two conditions under which an opened file is closed at once:
    [target == targetStuckChunks && file.NumStuckChunks() == 0] and
    [target == targetUnstuckChunks &&
     time.Since(file.RecentRepairTime()) < fileRepairInterval]. *)
Definition unneeded (env : dirEnv) (target : repairTarget)
    (file : SiaFileSetEntry) : bool :=
  (bool_decide (target = targetStuckChunks) && (NumStuckChunks env file =? 0))
  || (bool_decide (target = targetUnstuckChunks)
      && (sinceRecentRepair env file <? fileRepairInterval env)).

(** The first loop of [managedBuildChunkHeap]: the opens and closes it
    makes, and the slice [files] with the sia path of each entry, or [None]
    where an [Open] fails and the function returns. *)
Fixpoint openFiles (env : dirEnv) (target : repairTarget)
    (fileinfos : list FileInfo) :
    list handleEvent * option (list (string * SiaFileSetEntry)) :=
  match fileinfos with
  | [] => ([], Some [])
  | fi :: rest =>
      if skipped env fi then openFiles env target rest
      else
        match fileSetOpen env (siaPath env fi) with
        | None => ([], None)
        | Some file =>
            let '(evs, files) := openFiles env target rest in
            if unneeded env target file
            then (EvOpen (siaPath env fi) :: EvClose (siaPath env fi) :: evs, files)
            else (EvOpen (siaPath env fi) :: evs,
                  cons (siaPath env fi, file) <$> files)
        end
  end.

(** [func (r *Renter) managedBuildChunkHeap(dirSiaPath, hosts, target)]: the
    heap it leaves and the opens and closes it makes; [None] is a panic of
    [buildUnfinishedChunks]. *)
Definition managedBuildChunkHeap (r : renter)
    (copyEntry : SiaFileSetEntry -> list SiaFileSetEntry)
    (randFile randChunk : nat -> nat) (env : dirEnv)
    (hosts : gset string) (target : repairTarget) (uh : uploadHeap) :
    option (uploadHeap * list handleEvent) :=
  match ReadDir env with
  | None => Some (uh, [])
  | Some fileinfos =>
      match openFiles env target fileinfos with
      | (evs, None) => Some (uh, evs)
      | (evs, Some files) =>
          if (List.length files =? 0)%nat then Some (uh, evs)
          else
            uh' ←
              match target with
              | targetStuckChunks =>
                  managedBuildAndPushRandomChunk r copyEntry randFile randChunk
                    (files.*2) hosts target uh
              | targetUnstuckChunks =>
                  fst <$> managedBuildAndPushChunks r copyEntry (files.*2)
                            hosts target uh
              | targetError => Some uh
              end;
            Some (uh', evs ++ (EvClose <$> files.*1))
      end
  end.

(** The sia paths opened, and those closed, in the order of the events. *)
Definition opened (evs : list handleEvent) : list string :=
  omap (fun ev => match ev with EvOpen p => Some p | _ => None end) evs.

Definition closed (evs : list handleEvent) : list string :=
  omap (fun ev => match ev with EvClose p => Some p | _ => None end) evs.

(** A directory with the files "file.sia", "complete.sia" and "other.sia"
    and the sub directory "sub"; "complete" was repaired a moment ago, and
    "other" can be opened when [openOther] holds. *)
Definition exampleDir (openOther : bool) : dirEnv :=
  {| ReadDir := Some [ {| Name := "file.sia"; IsDir := false |};
                       {| Name := "sub"; IsDir := true |};
                       {| Name := "complete.sia"; IsDir := false |};
                       {| Name := "other.sia"; IsDir := false |} ];
     Ext := fun name => if String.eqb name "sub" then "" else ".sia";
     siaPathOf := fun name ext =>
       String.substring 0 (String.length name - String.length ext) name;
     ShareExtension := ".sia";
     fileSetOpen := fun p =>
       if String.eqb p "file" then Some exampleEntry
       else if String.eqb p "complete" then Some completeEntry
       else if String.eqb p "other"
            then (if openOther then Some otherEntry else None)
       else None;
     NumStuckChunks := fun file =>
       Z.of_nat (List.length (filter (fun b => b = true) (stuckFlags file)));
     sinceRecentRepair := fun file =>
       if String.eqb (UID file) "complete" then 0 else 100;
     fileRepairInterval := 10 |}.

End BuildChunkHeap.
(** * Properties *)

(** ** Float quotients *)

Lemma Float_lt_div_pos a b c d :
  0 < b -> 0 < d ->
  Float.lt (Float.div a b) (Float.div c d) = (a * d <? c * b).
Proof.
  intros Hb Hd.
  destruct b as [|pb|pb]; try lia.
  destruct d as [|pd|pd]; try lia.
  reflexivity.
Qed.

Lemma Float_Qltb_spec x y : Float.Qltb x y = true <-> (x < y)%Q.
Proof. unfold Float.Qltb, Qlt. apply Z.ltb_lt. Qed.

Lemma Float_lt_irrefl x : Float.lt x x = false.
Proof.
  destruct x as [|[]|q]; simpl; try reflexivity.
  unfold Float.Qltb. apply Z.ltb_irrefl.
Qed.

(** ** The upload heap *)
Section UploadHeapFacts.
Import UploadHeap.

Implicit Types (h : uploadChunkHeap) (uh : uploadHeap) (c uuc : unfinishedUploadChunk).

Lemma Swap_length h i j : List.length (Swap h i j) = List.length h.
Proof.
  unfold Swap. destruct (h !! i), (h !! j); try reflexivity.
  by rewrite !length_insert.
Qed.

Lemma Swap_Permutation h i j : Swap h i j ≡ₚ h.
Proof.
  unfold Swap.
  destruct (h !! i) as [ci|] eqn:Hi; [|done].
  destruct (h !! j) as [cj|] eqn:Hj; [|done].
  by apply Permutation_insert_swap.
Qed.

Lemma Swap_lookup_other h i j k :
  k ≠ i -> k ≠ j -> Swap h i j !! k = h !! k.
Proof.
  intros Hki Hkj. unfold Swap.
  destruct (h !! i), (h !! j); try reflexivity.
  rewrite !list_lookup_insert_ne; done.
Qed.

Lemma down_S fuel h i n :
  down (S fuel) h i n =
    if (n <=? 2 * i + 1)%nat then h
    else if negb (Less h (pickChild h i n) i) then h
         else down fuel (Swap h i (pickChild h i n)) (pickChild h i n) n.
Proof. reflexivity. Qed.

Lemma pickChild_bounds h i n :
  (2 * i + 1 < n)%nat -> (i < pickChild h i n < n)%nat.
Proof.
  intros Hn. unfold pickChild.
  destruct (2 * i + 1 + 1 <? n)%nat eqn:H2; simpl.
  - apply Nat.ltb_lt in H2. destruct (Less _ _ _); lia.
  - lia.
Qed.

Lemma down_length fuel : forall h i n, List.length (down fuel h i n) = List.length h.
Proof.
  induction fuel as [|fuel IH]; intros h i n; [done|].
  rewrite down_S. repeat case_match; try done. by rewrite IH, Swap_length.
Qed.

Lemma down_Permutation fuel : forall h i n, down fuel h i n ≡ₚ h.
Proof.
  induction fuel as [|fuel IH]; intros h i n; [done|].
  rewrite down_S. repeat case_match; try done. by rewrite IH, Swap_Permutation.
Qed.

(** [down(h, i, n)] only moves elements below index [n]. *)
Lemma down_lookup_ge fuel : forall h i n k,
  (n <= k)%nat -> down fuel h i n !! k = h !! k.
Proof.
  induction fuel as [|fuel IH]; intros h i n k Hk; [done|].
  rewrite down_S.
  destruct (n <=? 2 * i + 1)%nat eqn:Hn; [done|].
  apply Nat.leb_gt in Hn.
  pose proof (pickChild_bounds h i n Hn) as Hj.
  destruct (negb (Less h _ i)); [done|].
  rewrite IH by done. apply Swap_lookup_other; lia.
Qed.

(** The loop of [down] ends by itself: beyond [n - i] rounds the amount of
    fuel does not matter. *)
Lemma down_fuel f1 : forall f2 h i n,
  (n - i <= f1)%nat -> (n - i <= f2)%nat -> down f1 h i n = down f2 h i n.
Proof.
  induction f1 as [|f1 IH]; intros f2 h i n H1 H2.
  - destruct f2 as [|f2]; [done|]. rewrite down_S.
    destruct (n <=? 2 * i + 1)%nat eqn:Hn; [done|].
    apply Nat.leb_gt in Hn. lia.
  - destruct f2 as [|f2]; rewrite !down_S.
    + destruct (n <=? 2 * i + 1)%nat eqn:Hn; [done|].
      apply Nat.leb_gt in Hn. lia.
    + destruct (n <=? 2 * i + 1)%nat eqn:Hn; [done|].
      apply Nat.leb_gt in Hn.
      pose proof (pickChild_bounds h i n Hn) as Hj.
      destruct (negb (Less h _ i)); [done|].
      apply IH; lia.
Qed.

(** [heap.Pop] hands out the element at the root of the slice and keeps the
    others. *)
Lemma heapPop_cons c t :
  exists h', heapPop (c :: t) = (Some c, h') /\ h' ≡ₚ t.
Proof.
  unfold heapPop.
  replace (List.length (c :: t) - 1)%nat with (List.length t) by (simpl; lia).
  set (n := List.length t).
  set (h1 := Swap (c :: t) 0 n).
  set (h2 := down n h1 0 n).
  assert (Hlen : List.length h2 = S n).
  { subst h2 h1. by rewrite down_length, Swap_length. }
  assert (Hlast : h2 !! n = Some c).
  { subst h2. rewrite down_lookup_ge by done. subst h1. unfold Swap.
    simpl ((c :: t) !! 0%nat).
    destruct ((c :: t) !! n) as [cl|] eqn:Hn.
    - destruct (decide (n = 0%nat)) as [->|Hne].
      + simpl in Hn. by simplify_eq.
      + rewrite list_lookup_insert_ne by done.
        apply list_lookup_insert_eq. simpl. lia.
    - apply lookup_ge_None in Hn. simpl in Hn. lia. }
  exists (take n h2). split.
  - unfold Pop. rewrite Hlen.
    replace (S n - 1)%nat with n by lia. by rewrite Hlast.
  - apply (Permutation.Permutation_cons_inv (a := c)).
    transitivity h2.
    + rewrite <- (take_ge h2 (S n)) at 2 by lia.
      rewrite (take_S_r _ _ _ Hlast). by rewrite Permutation_app_comm.
    + subst h2 h1. by rewrite down_Permutation, Swap_Permutation.
Qed.

Lemma managedPop_nil uh : heap uh = [] -> managedPop uh = (None, uh).
Proof. unfold managedPop. by intros ->. Qed.

Lemma managedPop_cons uh c t :
  heap uh = c :: t ->
  exists h', managedPop uh =
    (Some c, {| heap := h';
                heapChunks := heapChunks uh ∖ {[UUC.id c]};
                repairingChunks := repairingChunks uh |})
    /\ h' ≡ₚ t.
Proof.
  intros Hh. unfold managedPop. rewrite Hh.
  destruct (heapPop_cons c t) as (h' & -> & Hp). simpl.
  by exists h'.
Qed.

Lemma managedPush_rejected uh uuc :
  UUC.id uuc ∈ heapChunks uh \/ UUC.id uuc ∈ repairingChunks uh ->
  managedPush uh uuc = uh.
Proof.
  intros H. unfold managedPush.
  destruct H as [H|H]; rewrite (bool_decide_eq_true_2 _ H); simpl; [done|].
  by rewrite andb_false_r.
Qed.

Lemma managedPush_accepted uh uuc :
  UUC.id uuc ∉ heapChunks uh -> UUC.id uuc ∉ repairingChunks uh ->
  managedPush uh uuc =
    {| heap := heap uh ++ [uuc];
       heapChunks := {[UUC.id uuc]} ∪ heapChunks uh;
       repairingChunks := repairingChunks uh |}.
Proof.
  intros H1 H2. unfold managedPush.
  by rewrite (bool_decide_eq_false_2 _ H1), (bool_decide_eq_false_2 _ H2).
Qed.

Lemma heapInv_empty : heapInv emptyHeap.
Proof. repeat split; simpl; [constructor | set_solver]. Qed.

Lemma heapInv_managedPush uh uuc : heapInv uh -> heapInv (managedPush uh uuc).
Proof.
  intros (Hnd & Hset & Hdisj).
  destruct (decide (UUC.id uuc ∈ heapChunks uh)) as [H1|H1].
  { rewrite managedPush_rejected by auto. done. }
  destruct (decide (UUC.id uuc ∈ repairingChunks uh)) as [H2|H2].
  { rewrite managedPush_rejected by auto. done. }
  rewrite managedPush_accepted by done.
  repeat split; simpl.
  - rewrite fmap_snoc. apply NoDup_app. repeat split; [done| |apply NoDup_singleton].
    intros x Hx ->%list_elem_of_singleton. apply H1. rewrite Hset.
    by apply elem_of_list_to_set.
  - rewrite fmap_snoc, list_to_set_snoc_L, Hset. set_solver.
  - set_solver.
Qed.

Lemma heapInv_managedPop uh : heapInv uh -> heapInv (managedPop uh).2.
Proof.
  intros Hinv.
  destruct (heap uh) as [|c t] eqn:Hh.
  { by rewrite managedPop_nil. }
  destruct Hinv as (Hnd & Hset & Hdisj).
  destruct (managedPop_cons uh c t Hh) as (h' & -> & Hp). simpl.
  rewrite Hh, fmap_cons in Hnd, Hset. apply NoDup_cons in Hnd as [Hc Hnd].
  repeat split; simpl.
  - by rewrite Hp.
  - rewrite Hset, Hp, list_to_set_cons.
    assert (UUC.id c ∉ (list_to_set (UUC.id <$> t) : gset uploadChunkID)).
    { by rewrite elem_of_list_to_set. }
    set_solver.
  - set_solver.
Qed.

Lemma heapInv_runOps ops : forall uh, heapInv uh -> heapInv (runOps ops uh).
Proof.
  induction ops as [|o ops IH]; intros uh Hinv; [done|].
  unfold runOps. simpl. apply IH.
  destruct o; simpl; auto using heapInv_managedPush, heapInv_managedPop.
Qed.


(** C6: [managedPush] leaves the heap and both id sets unchanged when the
    chunk's id is in [heapChunks] or in [repairingChunks]; otherwise it
    inserts the chunk and adds its id to [heapChunks].  Hence after any
    sequence of pushes and pops that starts from the empty heap, no chunk id
    occurs twice in the heap. *)
Theorem managedPush_contract :
  (forall uh uuc,
      (UUC.id uuc ∈ heapChunks uh \/ UUC.id uuc ∈ repairingChunks uh ->
       managedPush uh uuc = uh)
      /\ (UUC.id uuc ∉ heapChunks uh -> UUC.id uuc ∉ repairingChunks uh ->
          managedPush uh uuc =
            {| heap := heap uh ++ [uuc];
               heapChunks := {[UUC.id uuc]} ∪ heapChunks uh;
               repairingChunks := repairingChunks uh |}))
  /\ (forall ops, NoDup (UUC.id <$> heap (runOps ops emptyHeap))).
Proof.
  split.
  - intros uh uuc. split.
    + apply managedPush_rejected.
    + apply managedPush_accepted.
  - intros ops. apply (heapInv_runOps ops emptyHeap heapInv_empty).
Qed.

(** C6, witness: a chunk pushed twice is in the heap once. *)
Lemma managedPush_contract_witness :
  let c := testChunk "file" 0 false 0 1 in
  managedPush (managedPush emptyHeap c) c = managedPush emptyHeap c
  /\ NoDup (UUC.id <$> heap (runOps [OpPush c; OpPush c; OpPop; OpPush c] emptyHeap)).
Proof.
  cbv zeta. split.
  - apply (proj1 (proj1 managedPush_contract _ _)). left.
    replace (heapChunks _) with ({[UUC.id (testChunk "file" 0 false 0 1)]} ∪ ∅
                                  : gset uploadChunkID)
      by (vm_compute; reflexivity).
    set_solver.
  - apply (proj2 managedPush_contract).
Defined.

(** C1, as the code has it: [managedPop] returns the head chunk of a
    non-empty heap and removes its id from [heapChunks], and returns nil on an
    empty heap; it leaves [repairingChunks] as it is (the id is not moved
    there).  [heapChunks] and [repairingChunks] stay disjoint under pushes and
    pops, and in a state reached from the empty heap a chunk that was just
    popped is accepted by [managedPush] again. *)
Theorem managedPop_contract :
  (forall uh,
      match heap uh with
      | [] => managedPop uh = (None, uh)
      | c :: t =>
          exists h', h' ≡ₚ t /\
            managedPop uh =
              (Some c, {| heap := h';
                          heapChunks := heapChunks uh ∖ {[UUC.id c]};
                          repairingChunks := repairingChunks uh |})
      end)
  /\ (forall uh ops,
        (heapChunks uh ## repairingChunks uh) ->
        (heapChunks (runOps ops uh) ## repairingChunks (runOps ops uh)))
  /\ (forall ops c uh',
        managedPop (runOps ops emptyHeap) = (Some c, uh') ->
        (UUC.id c ∉ repairingChunks uh')
        /\ managedPush uh' c =
             {| heap := heap uh' ++ [c];
                heapChunks := {[UUC.id c]} ∪ heapChunks uh';
                repairingChunks := repairingChunks uh' |}).
Proof.
  split; [|split].
  - intros uh. destruct (heap uh) as [|c t] eqn:Hh.
    + by apply managedPop_nil.
    + destruct (managedPop_cons uh c t Hh) as (h' & Hpop & Hp). eauto.
  - intros uh ops. revert uh.
    induction ops as [|o ops IH]; intros uh Hd; [done|].
    unfold runOps in *. simpl. apply IH.
    destruct o as [uuc|]; simpl.
    + unfold managedPush. case_match; simpl; [|done].
      apply andb_prop in H as [H1 H2].
      apply negb_true_iff, bool_decide_eq_false in H2. set_solver.
    + destruct (heap uh) as [|c t] eqn:Hh.
      * by rewrite managedPop_nil.
      * destruct (managedPop_cons uh c t Hh) as (h' & -> & _). simpl. set_solver.
  - intros ops c uh' Hpop.
    pose proof (heapInv_runOps ops emptyHeap heapInv_empty) as Hinv.
    set (uh := runOps ops emptyHeap) in *.
    pose proof (heapInv_managedPop uh Hinv) as Hinv'.
    destruct Hinv as (Hnd & Hset & Hdisj).
    destruct (heap uh) as [|c0 t] eqn:Hh.
    { rewrite managedPop_nil in Hpop by done. discriminate. }
    destruct (managedPop_cons uh c0 t Hh) as (h' & Hpop' & Hp).
    rewrite Hpop' in Hpop. injection Hpop as -> <-.
    assert (Hin : UUC.id c ∈ heapChunks uh).
    { rewrite Hset, fmap_cons. set_solver. }
    assert (Hnr : UUC.id c ∉ repairingChunks uh) by set_solver.
    split; [done|].
    apply managedPush_accepted; simpl; [set_solver|done].
Qed.


(** C1, witness: one chunk is pushed into the empty heap and popped. *)
Lemma managedPop_contract_witness :
  let c := testChunk "file" 0 false 0 1 in
  let uh' := {| heap := []; heapChunks := ∅; repairingChunks := ∅ |} in
  managedPop (runOps [OpPush c] emptyHeap) = (Some c, uh')
  /\ managedPush uh' c =
       {| heap := heap uh' ++ [c];
          heapChunks := {[UUC.id c]} ∪ heapChunks uh';
          repairingChunks := repairingChunks uh' |}.
Proof.
  cbv zeta.
  assert (Hpop : managedPop (runOps [OpPush (testChunk "file" 0 false 0 1)] emptyHeap)
                 = (Some (testChunk "file" 0 false 0 1),
                    {| heap := []; heapChunks := ∅; repairingChunks := ∅ |})).
  { vm_compute. reflexivity. }
  split; [exact Hpop|].
  exact (proj2 (proj2 (proj2 managedPop_contract) _ _ _ Hpop)).
Defined.

(** C1, counterexample: after pushing one chunk into the empty heap and
    popping it, its id is not in [repairingChunks], and pushing the same chunk
    again puts it back into the heap. *)
Lemma managedPop_leaves_repairingChunks :
  let c := testChunk "file" 0 false 0 1 in
  (managedPop (managedPush emptyHeap c)).1 = Some c
  /\ (UUC.id c ∉ repairingChunks (managedPop (managedPush emptyHeap c)).2)
  /\ heap (managedPush (managedPop (managedPush emptyHeap c)).2 c) = [c].
Proof.
  split; [vm_compute; reflexivity|]. split; [|vm_compute; reflexivity].
  replace (repairingChunks _) with (∅ : gset uploadChunkID)
    by (vm_compute; reflexivity).
  apply not_elem_of_empty.
Qed.

Lemma chunkLess_same_class ci cj :
  UUC.stuck ci = UUC.stuck cj ->
  chunkLess ci cj = Float.lt (completion ci) (completion cj).
Proof.
  unfold chunkLess. intros ->. destruct (UUC.stuck cj); reflexivity.
Qed.

(** C5, as the code has it: [Less] puts a stuck chunk strictly before a chunk
    that is not stuck; between two chunks of one class whose piece counts are
    below 2^26, where the float64 quotients compare as the exact ones, it is
    the comparison of the quotients piecesCompleted/piecesNeeded (lower
    first); two such chunks of equal key are not ordered by it in either
    direction, so the relation itself breaks no tie.  Pushing the four chunks
    of scenario S6 into the empty heap and popping four times gives them back
    in that order. *)
Theorem Less_order :
  (forall h i j ci cj,
      h !! i = Some ci -> h !! j = Some cj -> Less h i j = chunkLess ci cj)
  /\ (forall ci cj,
        UUC.stuck ci = true -> UUC.stuck cj = false ->
        chunkLess ci cj = true /\ chunkLess cj ci = false)
  /\ (forall ci cj,
        UUC.stuck ci = UUC.stuck cj ->
        exactCounts ci -> exactCounts cj ->
        chunkLess ci cj =
          (UUC.piecesCompleted ci * UUC.piecesNeeded cj
           <? UUC.piecesCompleted cj * UUC.piecesNeeded ci))
  /\ (forall ci cj,
        UUC.stuck ci = UUC.stuck cj ->
        exactCounts ci -> exactCounts cj ->
        UUC.piecesCompleted ci * UUC.piecesNeeded cj
          = UUC.piecesCompleted cj * UUC.piecesNeeded ci ->
        chunkLess ci cj = false /\ chunkLess cj ci = false)
  /\ popN 4 (pushAll orderingScenario) = (orderingScenario, emptyHeap).
Proof.
  assert (Hcls : forall ci cj,
        UUC.stuck ci = UUC.stuck cj ->
        0 < UUC.piecesNeeded ci -> 0 < UUC.piecesNeeded cj ->
        chunkLess ci cj =
          (UUC.piecesCompleted ci * UUC.piecesNeeded cj
           <? UUC.piecesCompleted cj * UUC.piecesNeeded ci)).
  { intros ci cj Hs Hi Hj. rewrite chunkLess_same_class by done.
    unfold completion. by apply Float_lt_div_pos. }
  split; [|split; [|split; [|split]]].
  - intros h i j ci cj Hi Hj. unfold Less. by rewrite Hi, Hj.
  - intros ci cj Hi Hj. unfold chunkLess. by rewrite Hi, Hj.
  - intros ci cj Hs [_ Hi] [_ Hj]. apply Hcls; [done|lia|lia].
  - intros ci cj Hs [_ Hi] [_ Hj] Heq.
    rewrite !Hcls by (done || lia). split; apply Z.ltb_ge; lia.
  - vm_compute. reflexivity.
Qed.

(** C5, witness: the chunks of scenario S6, compared two by two. *)
Lemma Less_order_witness :
  let s1 := testChunk "stuck" 1 true 1 1 in
  let s2 := testChunk "stuck" 2 true 2 1 in
  let u1 := testChunk "unstuck" 1 false 1 1 in
  (chunkLess s2 u1 = true /\ chunkLess u1 s2 = false)
  /\ chunkLess s1 s2 = true
  /\ (chunkLess s1 s1 = false /\ chunkLess s1 s1 = false).
Proof.
  intros s1 s2 u1. split; [|split].
  - exact (proj1 (proj2 Less_order) s2 u1 eq_refl eq_refl).
  - rewrite (proj1 (proj2 (proj2 Less_order)) s1 s2 eq_refl); [reflexivity| |];
      unfold exactCounts; simpl; lia.
  - apply (proj1 (proj2 (proj2 (proj2 Less_order))) s1 s1 eq_refl);
      unfold exactCounts; simpl; lia.
Defined.

(** C5, counterexample: three chunks of equal key pushed in the order 1, 2, 3
    are popped in the order 1, 3, 2, while the chunks 2 and 3 pushed alone are
    popped in the order 2, 3: the order between chunks of equal key follows
    neither their ids nor the order of insertion. *)
Lemma equal_keys_pop_order :
  let c1 := testChunk "file" 1 false 1 1 in
  let c2 := testChunk "file" 2 false 1 1 in
  let c3 := testChunk "file" 3 false 1 1 in
  chunkLess c2 c3 = false /\ chunkLess c3 c2 = false
  /\ (popN 3 (pushAll [c1; c2; c3])).1 = [c1; c3; c2]
  /\ (popN 2 (pushAll [c2; c3])).1 = [c2; c3].
Proof. repeat split; vm_compute; reflexivity. Qed.

(** X1: [managedPush] appends to the slice through the heap's own [Push]
    method and does not sift the new element up: pushed after a chunk that is not
    stuck, a stuck chunk is popped second although [Less] puts it first. *)
Lemma push_keeps_arrival_order :
  let u := testChunk "unstuck" 1 false 1 1 in
  let s := testChunk "stuck" 1 true 1 1 in
  chunkLess s u = true
  /\ (popN 2 (pushAll [u; s])).1 = [u; s].
Proof. repeat split; vm_compute; reflexivity. Qed.

End UploadHeapFacts.

(** ** The repair loop *)
Section RepairLoopFacts.
Import UploadHeap RepairLoop.

Lemma managedPop_length uh c uh' :
  managedPop uh = (Some c, uh') ->
  S (List.length (heap uh')) = List.length (heap uh).
Proof.
  intros Hpop. destruct (heap uh) as [|c0 t] eqn:Hh.
  - rewrite managedPop_nil in Hpop by done. discriminate.
  - destruct (managedPop_cons uh c0 t Hh) as (h' & Hpop' & Hp).
    rewrite Hpop' in Hpop. injection Hpop as <- <-. simpl.
    by rewrite (Permutation_length Hp).
Qed.

Lemma managedPop_None uh uh' :
  managedPop uh = (None, uh') -> heap uh = [] /\ uh' = uh.
Proof.
  intros Hpop. destruct (heap uh) as [|c0 t] eqn:Hh.
  - rewrite managedPop_nil in Hpop by done. by injection Hpop as <-.
  - destruct (managedPop_cons uh c0 t Hh) as (h' & Hpop' & _). congruence.
Qed.

(** The draining loop runs until the heap is empty. *)
Lemma drain_empties fuel : forall uh popped stuckChunks,
  (List.length (heap uh) <= fuel)%nat ->
  heap (drain fuel uh popped stuckChunks).2 = [].
Proof.
  induction fuel as [|fuel IH]; intros uh popped stuckChunks Hlen.
  { simpl. destruct (heap uh); [done|simpl in Hlen; lia]. }
  cbn [drain]. unfold managedLen.
  destruct (0 <? Z.of_nat (List.length (heap uh))) eqn:Hpos.
  - destruct (managedPop uh) as [[c|] uh'] eqn:Hpop.
    + apply managedPop_length in Hpop. apply IH. lia.
    + apply managedPop_None in Hpop as [Hnil ->]. exact Hnil.
  - apply Z.ltb_ge in Hpos. simpl.
    destruct (heap uh); [done|simpl in Hpos; lia].
Qed.

(** The loop stops by itself: with more fuel than the heap has chunks the
    amount of fuel does not matter. *)
Lemma managedRepairLoop_fuel e f1 : forall f2 round n uh,
  (List.length (heap uh) < f1)%nat -> (List.length (heap uh) < f2)%nat ->
  managedRepairLoop f1 e round n uh = managedRepairLoop f2 e round n uh.
Proof.
  induction f1 as [|f1 IH]; intros f2 round n uh H1 H2; [lia|].
  destruct f2 as [|f2]; [lia|].
  cbn [managedRepairLoop].
  destruct (stopped e round); [done|].
  destruct (negb (online e round)); [done|].
  destruct (managedPop uh) as [[c|] uh'] eqn:Hpop; [|done].
  apply managedPop_length in Hpop.
  rewrite (IH f2 (S round) n uh') by lia.
  rewrite (IH f2 (S round) (n + 1) uh') by lia.
  done.
Qed.

Lemma checkHealth_below e c :
  (cachedHealth e (UUC.fileEntry c) < 8 # 10)%Q ->
  checkHealth e c = [EvUpdateRecentRepairTime (UUC.fileEntry c)].
Proof.
  intros H. unfold checkHealth, healthThreshold.
  apply Float_Qltb_spec in H. by rewrite H.
Qed.

Lemma checkHealth_above e c :
  (8 # 10 <= cachedHealth e (UUC.fileEntry c))%Q ->
  checkHealth e c = [].
Proof.
  intros H. unfold checkHealth, healthThreshold.
  destruct (Float.Qltb _ _) eqn:Hlt; [|done].
  apply Float_Qltb_spec in Hlt. by apply Qle_not_lt in H.
Qed.

Lemma roundShape_intro e c rest :
  forallb (fun ev => negb (isUpdateRecentRepairTime ev)) rest = true ->
  roundShape e ((EvPop c :: checkHealth e c) ++ rest).
Proof.
  intros Hrest. exists c, rest. cbv zeta. repeat split.
  - intros H. by rewrite checkHealth_below.
  - intros H. by rewrite checkHealth_above.
  - done.
  - intros c' g Hin. simpl in Hin.
    apply elem_of_cons in Hin as [Hin|Hin]; [discriminate|].
    apply elem_of_app in Hin as [Hin|Hin]; [|done].
    unfold checkHealth in Hin. case_match; set_solver.
Qed.

(** In every round of [managedRepairLoop] the chunk popped as [nextChunk]
    has [UpdateRecentRepairTime] called on its file entry right after the
    pop exactly when the value of [CachedHealth()] is below 0.8; no other
    stamp occurs, and every request for memory comes after it. *)
Lemma managedRepairLoop_roundShape e fuel round n uh :
  Forall (roundShape e) (managedRepairLoop fuel e round n uh).1.
Proof.
  revert round n uh.
  induction fuel as [|fuel IH]; intros round n uh; [constructor|].
  cbn [managedRepairLoop].
  destruct (stopped e round); [constructor|].
  destruct (negb (online e round)); [constructor|].
  destruct (managedPop uh) as [[c|] uh'] eqn:Hpop; [|constructor].
  destruct (workerPoolSize e round <? UUC.minimumPieces c).
  - specialize (IH (S round) n uh').
    destruct (managedRepairLoop fuel e (S round) n uh') as [rounds uh''].
    simpl. constructor; [|done]. by apply roundShape_intro.
  - destruct (maxConsecutiveChunkRepairs e <=? n + 1).
    + destruct (drain _ _ _ _) as [[popped stuckChunks] uh''].
      simpl. constructor; [|constructor].
      apply roundShape_intro.
      unfold managedPrepareNextChunk. by destruct (memoryGranted e round).
    + specialize (IH (S round) (n + 1) uh').
      destruct (managedRepairLoop fuel e (S round) (n + 1) uh') as [rounds uh''].
      simpl. constructor; [|done]. apply roundShape_intro.
      unfold managedPrepareNextChunk. by destruct (memoryGranted e round).
Qed.

Lemma restOfRound_stuck c :
  restOfRound c [EvSetStuck (UUC.fileEntry c) (UUC.index c);
                 EvBubbleMetadata (UUC.fileEntry c)].
Proof. split; intros; set_solver. Qed.

Lemma restOfRound_prepare c granted drained :
  (forall ev, ev ∈ drained -> exists p s, ev = EvDrained p s) ->
  restOfRound c (managedPrepareNextChunk granted c ++ drained).
Proof.
  intros Hd. unfold managedPrepareNextChunk.
  split; intros; destruct granted; cbn in *;
    repeat match goal with
           | H : _ ∈ _ :: _ |- _ => apply elem_of_cons in H as [H|H]
           | H : _ ∈ _ ++ _ |- _ => apply elem_of_app in H as [H|H]
           | H : _ ∈ [] |- _ => by apply elem_of_nil in H
           | H : _ ∈ drained |- _ => apply Hd in H as (? & ? & H)
           end; congruence.
Qed.

Lemma managedRepairLoop_round e fuel : forall round n uh evs,
  evs ∈ (managedRepairLoop fuel e round n uh).1 ->
  exists c rest,
    evs = (EvPop c :: checkHealth e c) ++ rest /\ restOfRound c rest.
Proof.
  induction fuel as [|fuel IH]; intros round n uh evs; cbn [managedRepairLoop].
  { intros H. by apply elem_of_nil in H. }
  destruct (stopped e round); [intros H; by apply elem_of_nil in H|].
  destruct (negb (online e round)); [intros H; by apply elem_of_nil in H|].
  destruct (managedPop uh) as [[c|] uh'] eqn:Hpop;
    [|intros H; by apply elem_of_nil in H].
  destruct (workerPoolSize e round <? UUC.minimumPieces c).
  - specialize (IH (S round) n uh').
    destruct (managedRepairLoop fuel e (S round) n uh') as [rounds uh''].
    cbn [fst]. intros [->|Hin]%elem_of_cons; [|by apply IH].
    eexists c, _. split; [reflexivity|]. apply restOfRound_stuck.
  - destruct (maxConsecutiveChunkRepairs e <=? n + 1).
    + destruct (drain _ _ _ _) as [[popped stuckChunks] uh''].
      cbn [fst]. intros ->%list_elem_of_singleton.
      eexists c, _. split; [reflexivity|].
      apply restOfRound_prepare.
      intros ev ->%list_elem_of_singleton. eauto.
    + specialize (IH (S round) (n + 1) uh').
      destruct (managedRepairLoop fuel e (S round) (n + 1) uh') as [rounds uh''].
      cbn [fst]. intros [->|Hin]%elem_of_cons; [|by apply IH].
      eexists c, _. split; [reflexivity|].
      rewrite <- (app_nil_r (managedPrepareNextChunk _ _)).
      apply restOfRound_prepare. intros ev H. by apply elem_of_nil in H.
Qed.

Lemma specHealth_cached e entry :
  (8 # 10 <= specHealth e entry)%Q -> (cachedHealth e entry < 8 # 10)%Q.
Proof.
  unfold specHealth. cbv zeta.
  destruct (Float.Qltb (1 - cachedHealth e entry)%Q 0%Q) eqn:Hneg.
  - intros H. exfalso. revert H. unfold Qle. cbn. lia.
  - intros H. lra.
Qed.

(** C4: in every round of [managedRepairLoop], the chunk popped from the
    heap as [nextChunk] whose file has a health of 0.8 or more, on the scale
    of the specification where 1 is a fully redundant file, has
    [UpdateRecentRepairTime] called on its file entry right after the pop.
    The round asks for the chunk's memory, and starts the repair thread that
    releases it, only after the stamp; and it asks for memory for no other
    chunk, so the chunks that the draining loop of the last round pops hold
    no memory that could be released. *)
Theorem repair_loop_stamps_healthy e fuel round n uh evs :
  evs ∈ (managedRepairLoop fuel e round n uh).1 ->
  exists nextChunk tail,
    evs = EvPop nextChunk :: tail
    /\ (forall c g, EvMemoryRequest c g ∈ evs -> c = nextChunk)
    /\ (forall c, EvFetchAndRepair c ∈ evs -> c = nextChunk)
    /\ ((8 # 10 <= specHealth e (UUC.fileEntry nextChunk))%Q ->
        exists rest,
          tail = EvUpdateRecentRepairTime (UUC.fileEntry nextChunk) :: rest
          /\ (forall c g, EvMemoryRequest c g ∈ evs -> EvMemoryRequest c g ∈ rest)
          /\ (forall c, EvFetchAndRepair c ∈ evs -> EvFetchAndRepair c ∈ rest)).
Proof.
  intros Hin.
  destruct (managedRepairLoop_round e fuel round n uh evs Hin)
    as (c & rest & -> & Hmem & Hfetch).
  assert (Hafter : forall ev,
            ev ∈ (EvPop c :: checkHealth e c) ++ rest ->
            (forall c' g, ev <> EvMemoryRequest c' g) \/ ev ∈ rest).
  { intros ev [Hev|Hev]%elem_of_app; [left|by right].
    apply elem_of_cons in Hev as [->|Hev]; [done|].
    unfold checkHealth in Hev. case_match; [|by apply elem_of_nil in Hev].
    apply list_elem_of_singleton in Hev as ->. done. }
  assert (Hafter' : forall ev,
            ev ∈ (EvPop c :: checkHealth e c) ++ rest ->
            (forall c', ev <> EvFetchAndRepair c') \/ ev ∈ rest).
  { intros ev [Hev|Hev]%elem_of_app; [left|by right].
    apply elem_of_cons in Hev as [->|Hev]; [done|].
    unfold checkHealth in Hev. case_match; [|by apply elem_of_nil in Hev].
    apply list_elem_of_singleton in Hev as ->. done. }
  exists c, (checkHealth e c ++ rest). split; [done|].
  split; [|split].
  - intros c' g [Hne|Hr]%Hafter; [by destruct (Hne c' g)|by eapply Hmem].
  - intros c' [Hne|Hr]%Hafter'; [by destruct (Hne c')|by apply Hfetch].
  - intros Hhealth%specHealth_cached.
    exists rest. rewrite (checkHealth_below e c Hhealth). split; [done|].
    rewrite checkHealth_below in Hafter, Hafter' by done.
    split.
    + intros c' g [Hne|Hr]%Hafter; [by destruct (Hne c' g)|done].
    + intros c' [Hne|Hr]%Hafter'; [by destruct (Hne c')|done].
Qed.

(** C4, witness: a chunk of a file whose cached health is 0.1, a health of
    0.9 on the scale of the specification, is stamped between its pop and the
    request for its memory. *)
Lemma repair_loop_stamps_healthy_witness :
  let c := testChunk "file" 0 false 0 1 in
  let evs := [EvPop c; EvUpdateRecentRepairTime "file";
              EvMemoryRequest c true; EvFetchAndRepair c] in
  (managedRepairLoop 2 (steadyEnv (1 # 10)) 0 0 (managedPush emptyHeap c)).1 = [evs]
  /\ exists rest,
       evs = EvPop c :: EvUpdateRecentRepairTime "file" :: rest
       /\ EvMemoryRequest c true ∈ rest.
Proof.
  intros c evs. split; [vm_compute; reflexivity|].
  destruct (repair_loop_stamps_healthy (steadyEnv (1 # 10)) 2 0 0
              (managedPush emptyHeap c) evs)
    as (nc & tail & Heq & _ & _ & Hstamp).
  - apply list_elem_of_singleton. vm_compute. reflexivity.
  - injection Heq as <- <-.
    destruct Hstamp as (rest & Hrest & Hmem & _).
    + unfold Qle. vm_compute. discriminate.
    + exists rest. split; [unfold evs; f_equal; exact Hrest|].
      apply Hmem. do 2 right. by left.
Defined.

End RepairLoopFacts.

(** ** Building the unfinished chunks *)
Section BuildChunksFacts.
Import BuildChunks.

Implicit Types (c : unfinishedUploadChunk) (entry : SiaFileSetEntry).

Lemma incompleteChunks_kept chunks : forall i,
  Forall (fun c => UUC.piecesCompleted c < UUC.piecesNeeded c)
         (incompleteChunks i chunks).1.
Proof.
  induction chunks as [|c rest IH]; intros i; simpl; [constructor|].
  specialize (IH (S i)). destruct (incompleteChunks (S i) rest) as [kept effs].
  destruct (UUC.piecesCompleted c <? UUC.piecesNeeded c) eqn:Hlt; simpl; [|done].
  constructor; [|done]. by apply Z.ltb_lt.
Qed.

Lemma incompleteChunks_sub chunks : forall i c,
  c ∈ (incompleteChunks i chunks).1 -> c ∈ chunks.
Proof.
  induction chunks as [|c0 rest IH]; intros i c; simpl; [done|].
  specialize (IH (S i) c). destruct (incompleteChunks (S i) rest) as [kept effs].
  destruct (UUC.piecesCompleted c0 <? UUC.piecesNeeded c0); simpl; set_solver.
Qed.

Lemma selectChunkIndexes_length target entrys : forall i,
  (List.length (selectChunkIndexes target i entrys).1 <= List.length entrys)%nat.
Proof.
  induction entrys as [|entry rest IH]; intros i; simpl; [done|].
  specialize (IH (S i)). destruct (selectChunkIndexes target (S i) rest) as [idx effs].
  destruct (negb _); simpl in *; lia.
Qed.

(** The second loop never indexes [entrys] out of range. *)
Lemma newUnfinishedChunks_total entrys hosts chunkIndexes : forall i,
  (i + List.length chunkIndexes <= List.length entrys)%nat ->
  exists chunks effs,
    newUnfinishedChunks entrys hosts i chunkIndexes = Some (chunks, effs)
    /\ List.length chunks = List.length chunkIndexes
    /\ (forall k index, chunkIndexes !! k = Some index ->
          exists entry, entrys !! (i + k)%nat = Some entry
                        /\ chunks !! k = Some (newUnfinishedChunk entry hosts index)).
Proof.
  induction chunkIndexes as [|index rest IH]; intros i Hlen; simpl in *.
  { exists [], []. repeat split. intros k index Hk. done. }
  destruct (entrys !! i) as [entry|] eqn:Hentry; simpl.
  2:{ apply lookup_ge_None in Hentry. lia. }
  destruct (IH (S i)) as (chunks & effs & -> & Hl & Hk); [lia|]. simpl.
  eexists _, _. split; [done|]. split; [simpl; lia|].
  intros [|k] index' Hlook; simpl in *.
  - injection Hlook as <-. exists entry. by rewrite Nat.add_0_r.
  - destruct (Hk k index' Hlook) as (entry' & He & Hc).
    exists entry'. split; [|done]. by rewrite <- Nat.add_succ_comm.
Qed.

(** One piece leaves the chunk's static fields and the length of
    [pieceUsage] as they are. *)
Lemma markPiece_static r pks pieceIndex c piece c' :
  markPiece r pks pieceIndex c piece = Some c' ->
  UUC.piecesNeeded c' = UUC.piecesNeeded c
  /\ UUC.index c' = UUC.index c
  /\ List.length (UUC.pieceUsage c') = List.length (UUC.pieceUsage c).
Proof.
  unfold markPiece. intros H.
  repeat (case_match; simplify_option_eq); simpl; rewrite ?length_insert; done.
Qed.

Lemma markPiece_total r pks pieceIndex c piece :
  (pieceIndex < List.length (UUC.pieceUsage c))%nat ->
  is_Some (markPiece r pks pieceIndex c piece).
Proof.
  intros Hlt. unfold markPiece.
  destruct (lookup_lt_is_Some_2 _ _ Hlt) as [b Hb]. rewrite Hb. simpl.
  repeat case_match; eauto.
Qed.

Lemma markPieceSet_static r pks pieceIndex pieceSet : forall c c',
  markPieceSet r pks pieceIndex pieceSet c = Some c' ->
  UUC.piecesNeeded c' = UUC.piecesNeeded c
  /\ UUC.index c' = UUC.index c
  /\ List.length (UUC.pieceUsage c') = List.length (UUC.pieceUsage c).
Proof.
  induction pieceSet as [|piece rest IH]; intros c c' H; simpl in H.
  - by injection H as <-.
  - destruct (markPiece r pks pieceIndex c piece) as [c1|] eqn:H1; [|done].
    simpl in H. apply markPiece_static in H1 as (? & ? & ?).
    apply IH in H as (? & ? & ?). repeat split; congruence.
Qed.

Lemma markPieceSet_total r pks pieceIndex pieceSet : forall c,
  (pieceIndex < List.length (UUC.pieceUsage c))%nat ->
  is_Some (markPieceSet r pks pieceIndex pieceSet c).
Proof.
  induction pieceSet as [|piece rest IH]; intros c Hlt; simpl; [eauto|].
  destruct (markPiece_total r pks pieceIndex c piece Hlt) as [c1 H1].
  rewrite H1. simpl. apply IH.
  apply markPiece_static in H1 as (_ & _ & ->). done.
Qed.

Lemma markPieceSets_static r pks pieces : forall pieceIndex c c',
  markPieceSets r pks pieceIndex pieces c = Some c' ->
  UUC.piecesNeeded c' = UUC.piecesNeeded c
  /\ UUC.index c' = UUC.index c
  /\ List.length (UUC.pieceUsage c') = List.length (UUC.pieceUsage c).
Proof.
  induction pieces as [|pieceSet rest IH]; intros pieceIndex c c' H; simpl in H.
  - by injection H as <-.
  - destruct (markPieceSet r pks pieceIndex pieceSet c) as [c1|] eqn:H1; [|done].
    simpl in H. apply markPieceSet_static in H1 as (? & ? & ?).
    apply IH in H as (? & ? & ?). repeat split; congruence.
Qed.

Lemma markPieceSets_total r pks pieces : forall pieceIndex c,
  (pieceIndex + List.length pieces <= List.length (UUC.pieceUsage c))%nat ->
  is_Some (markPieceSets r pks pieceIndex pieces c).
Proof.
  induction pieces as [|pieceSet rest IH]; intros pieceIndex c Hlen; simpl in *; [eauto|].
  destruct (markPieceSet_total r pks pieceIndex pieceSet c) as [c1 H1]; [lia|].
  rewrite H1. simpl. apply IH.
  apply markPieceSet_static in H1 as (_ & _ & ->). lia.
Qed.


(** The third loop hands every chunk to [markPieceSets] with the piece sets
    of its index. *)
Lemma countPieces_spec r entry0 pks work : forall chunks',
  countPieces r entry0 pks work = Some (Some chunks') ->
  Forall2 (fun w c' => exists pieces,
             Pieces entry0 w.1 = Some pieces
             /\ markPieceSets r pks 0 pieces w.2 = Some c') work chunks'.
Proof.
  induction work as [|[index c] rest IH]; intros chunks' H; simpl in H.
  - injection H as <-. constructor.
  - destruct (Pieces entry0 index) as [pieces|] eqn:Hp; [|done].
    destruct (markPieceSets r pks 0 pieces c) as [c1|] eqn:Hm; [|done].
    simpl in H.
    destruct (countPieces r entry0 pks rest) as [[rest'|]|]; simpl in H; try done.
    injection H as <-. constructor; [|by apply IH].
    exists pieces. done.
Qed.

Lemma countPieces_total r entry0 pks work :
  Forall (fun w => forall pieces,
            Pieces entry0 w.1 = Some pieces ->
            (List.length pieces <= List.length (UUC.pieceUsage w.2))%nat) work ->
  is_Some (countPieces r entry0 pks work).
Proof.
  induction 1 as [|[index c] rest Hc Hrest IH]; simpl; [eauto|].
  destruct (Pieces entry0 index) as [pieces|] eqn:Hp; [|eauto].
  destruct (markPieceSets_total r pks pieces 0 c) as [c1 ->]; [by apply Hc|].
  simpl. destruct IH as [rest' ->]. simpl. eauto.
Qed.

(** Piece sets of one piece each on distinct good hosts are all counted. *)
Lemma markPieceSets_distinct_hosts r pks hs : forall roots pieceIndex c,
  List.length roots = List.length hs ->
  NoDup hs ->
  (forall h, h ∈ hs ->
     h ∈ pks /\ h ∈ UUC.unusedHosts c
     /\ exists u, ContractUtilityOf r !! h = Some u /\ GoodForRenew u = true) ->
  (forall k, (k < List.length hs)%nat ->
     UUC.pieceUsage c !! (pieceIndex + k)%nat = Some false) ->
  exists c',
    markPieceSets r pks pieceIndex
      (zip_with (fun h root => [ {| HostPubKey := h; MerkleRoot := root |} ]) hs roots) c
      = Some c'
    /\ UUC.piecesCompleted c' = UUC.piecesCompleted c + Z.of_nat (List.length hs).
Proof.
  induction hs as [|h hs IH]; intros roots pieceIndex c Hlen Hnd Hgood Hfree.
  { exists c. split; [by destruct roots|]. simpl. lia. }
  destruct roots as [|root roots]; [done|]. simpl in Hlen.
  apply NoDup_cons in Hnd as [Hh Hnd].
  destruct (Hgood h) as (Hpk & Hun & u & Hu & Hgr); [set_solver|].
  pose proof (Hfree 0%nat ltac:(simpl; lia)) as Hfree0.
  rewrite Nat.add_0_r in Hfree0.
  assert (Hstep : markPieceSet r pks pieceIndex
                    [ {| HostPubKey := h; MerkleRoot := root |} ] c
                  = Some (claimPiece c pieceIndex h)).
  { simpl. unfold markPiece. simpl.
    rewrite (bool_decide_eq_true_2 _ Hpk), Hu, Hgr. simpl.
    rewrite (bool_decide_eq_true_2 _ Hun), Hfree0. done. }
  destruct (IH roots (S pieceIndex) (claimPiece c pieceIndex h)) as (c' & Hc' & Hpc).
  - lia.
  - done.
  - intros h' Hh'. destruct (Hgood h') as (? & ? & ?); [set_solver|].
    repeat split; [done| |done]. simpl. set_solver.
  - intros k Hk.
    replace (S pieceIndex + k)%nat with (pieceIndex + S k)%nat by lia.
    cbn [claimPiece UUC.pieceUsage].
    rewrite list_lookup_insert_ne by lia. apply Hfree. simpl. lia.
  - exists c'. split.
    + cbn [zip_with markPieceSets]. rewrite Hstep. exact Hc'.
    + rewrite Hpc. simpl. lia.
Qed.


Lemma selectChunkIndexes_bounds target entrys : forall i index,
  index ∈ (selectChunkIndexes target i entrys).1 ->
  (i <= index < i + List.length entrys)%nat.
Proof.
  induction entrys as [|entry rest IH]; intros i index; simpl.
  { intros H. by apply elem_of_nil in H. }
  specialize (IH (S i) index).
  destruct (selectChunkIndexes target (S i) rest) as [idx effs].
  destruct (negb _); simpl in *.
  - intros H. apply IH in H. lia.
  - intros [->|H]%elem_of_cons; [lia|]. apply IH in H. lia.
Qed.

Lemma wrap64_small x : 0 <= x < 2 ^ 64 -> wrap64 x = x.
Proof. intros H. unfold wrap64. by apply Z.mod_small. Qed.

(** What the function returns when it gets past its first two checks. *)
Lemma buildUnfinishedChunks_inv r entry0 rest hosts target chunks effs :
  buildUnfinishedChunks r (entry0 :: rest) hosts target = Some (chunks, effs) ->
  chunks = []
  \/ exists chunks0 effs2 chunks',
      newUnfinishedChunks (entry0 :: rest) hosts 0
        (selectChunkIndexes target 0 (entry0 :: rest)).1 = Some (chunks0, effs2)
      /\ countPieces r entry0 (list_to_set (HostPublicKeys entry0))
           (zip (selectChunkIndexes target 0 (entry0 :: rest)).1 chunks0)
         = Some (Some chunks')
      /\ chunks = (incompleteChunks 0 chunks').1.
Proof.
  unfold buildUnfinishedChunks.
  destruct (workerPool r <? MinPieces entry0).
  { intros [= <- <-]. by left. }
  destruct (selectChunkIndexes target 0 (entry0 :: rest)) as [idx effs1].
  destruct (bool_decide (idx = [])).
  { intros [= <- <-]. by left. }
  destruct (newUnfinishedChunks (entry0 :: rest) hosts 0 idx)
    as [[chunks0 effs2]|] eqn:Hnew; simpl; [|done].
  destruct (countPieces _ _ _ _) as [[chunks'|]|] eqn:Hcnt; simpl; [| |done].
  - destruct (incompleteChunks 0 chunks') as [kept effs3] eqn:Hk.
    intros [= <- <-]. right. exists chunks0, effs2, chunks'.
    split; [done|]. split; [exact Hcnt|]. by rewrite Hk.
  - intros [= <- <-]. by left.
Qed.

(** C7: when the worker pool is smaller than the file's [MinPieces],
    [buildUnfinishedChunks] marks all chunks of the file stuck, closes the
    entries and returns no chunk; every chunk it returns has
    [piecesCompleted < piecesNeeded]; and a chunk all of whose pieces are
    placed on distinct good hosts is not among them.  On entries of one file
    whose piece sets fit the erasure code the function returns without a
    panic. *)
Theorem buildUnfinishedChunks_contract r entrys hosts target :
  (forall entry0 rest,
      entrys = entry0 :: rest ->
      workerPool r < MinPieces entry0 ->
      buildUnfinishedChunks r entrys hosts target
        = Some ([], EffMarkAllChunksAsStuck 0
                      :: (EffClose <$> seq 0 (List.length entrys)))
      /\ (forall i, (i < List.length (stuckFlags entry0))%nat ->
            StuckChunkByIndex (MarkAllChunksAsStuck entry0) i = true))
  /\ (forall chunks effs,
        buildUnfinishedChunks r entrys hosts target = Some (chunks, effs) ->
        Forall (fun c => UUC.piecesCompleted c < UUC.piecesNeeded c) chunks)
  /\ (forall entry0 chunks effs index,
        buildUnfinishedChunks r entrys hosts target = Some (chunks, effs) ->
        Forall (eq entry0) entrys ->
        Z.of_nat (List.length entrys) <= 2 ^ 64 ->
        Z.of_nat index < 2 ^ 64 ->
        fullyPlaced r entry0 hosts index ->
        Forall (fun c => UUC.index c <> Z.of_nat index) chunks)
  /\ (forall entry0,
        Forall (eq entry0) entrys ->
        (forall index pieces,
            Pieces entry0 index = Some pieces ->
            (List.length pieces <= Z.to_nat (NumPieces entry0))%nat) ->
        is_Some (buildUnfinishedChunks r entrys hosts target)).
Proof.
  split; [|split; [|split]].
  - intros entry0 rest -> Hlt. split.
    + unfold buildUnfinishedChunks.
      by rewrite (proj2 (Z.ltb_lt _ _) Hlt).
    + intros i Hi. unfold StuckChunkByIndex, MarkAllChunksAsStuck. simpl.
      by rewrite lookup_replicate_2.
  - intros chunks effs Hb. destruct entrys as [|entry0 rest].
    { injection Hb as <- <-. constructor. }
    apply buildUnfinishedChunks_inv in Hb as [->|(c0 & e2 & chunks' & _ & _ & ->)].
    + constructor.
    + apply incompleteChunks_kept.
  - intros entry0 chunks effs index Hb Hall Hlen Hidx Hfull.
    destruct entrys as [|e0 rest].
    { injection Hb as <- <-. constructor. }
    pose proof (Forall_inv Hall) as <-.
    apply buildUnfinishedChunks_inv in Hb as [->|(chunks0 & e2 & chunks' & Hnew & Hcnt & ->)].
    { constructor. }
    set (idx := (selectChunkIndexes target 0 (entry0 :: rest)).1) in *.
    apply Forall_forall. intros c Hc Heq.
    pose proof (incompleteChunks_kept chunks' 0) as Hkept.
    rewrite Forall_forall in Hkept. specialize (Hkept c Hc).
    apply incompleteChunks_sub in Hc.
    apply list_elem_of_lookup in Hc as [k Hk].
    apply countPieces_spec in Hcnt.
    destruct (Forall2_lookup_r _ _ _ _ _ Hcnt Hk) as ([index' c0] & Hw & pieces & Hp & Hm).
    simpl in Hp, Hm.
    apply lookup_zip_with_Some in Hw as (? & ? & [= <- <-] & Hi' & Hc0).
    destruct (newUnfinishedChunks_total (entry0 :: rest) hosts idx 0) as
      (chunks0' & e2' & Hnew' & _ & Hbuilt).
    { simpl. apply (selectChunkIndexes_length target (entry0 :: rest) 0). }
    rewrite Hnew in Hnew'. injection Hnew' as <- <-.
    destruct (Hbuilt k index' Hi') as (entry & Hentry & Hc0').
    rewrite Hc0 in Hc0'. injection Hc0' as ->.
    assert (entry = entry0) as ->.
    { rewrite Forall_forall in Hall. symmetry. apply Hall.
      apply list_elem_of_lookup. eauto. }
    pose proof (selectChunkIndexes_bounds target (entry0 :: rest) 0 index') as Hb.
    destruct Hb as [_ Hb]; [apply list_elem_of_lookup; eauto|].
    apply markPieceSets_static in Hm as Hst. destruct Hst as (Hpn & Hix & _).
    assert (index' = index) as ->.
    { rewrite Hix in Heq. simpl in Heq.
      rewrite wrap64_small in Heq by lia. lia. }
    destruct Hfull as (hs & roots & Hpieces & Hhs & Hroots & Hnn & Hnd & Hgood).
    rewrite Hp in Hpieces. injection Hpieces as ->.
    destruct (markPieceSets_distinct_hosts r (list_to_set (HostPublicKeys entry0))
                hs roots 0 (newUnfinishedChunk entry0 hosts index))
      as (c' & Hc' & Hpc); [done|done| | |].
    + intros h Hh. destruct (Hgood h Hh) as (? & ? & ?).
      repeat split; [|done|done]. by apply elem_of_list_to_set.
    + intros j Hj. simpl. apply lookup_replicate_2. lia.
    + rewrite Hm in Hc'. injection Hc' as <-.
      rewrite Hpn, Hpc in Hkept. simpl in Hkept. lia.
  - intros entry0 Hall Hfit. destruct entrys as [|e0 rest]; [by eexists|].
    pose proof (Forall_inv Hall) as <-.
    unfold buildUnfinishedChunks.
    destruct (workerPool r <? MinPieces entry0); [by eexists|].
    pose proof (selectChunkIndexes_length target (entry0 :: rest) 0) as Hlen.
    destruct (selectChunkIndexes target 0 (entry0 :: rest)) as [idx effs1].
    destruct (bool_decide (idx = [])); [by eexists|].
    destruct (newUnfinishedChunks_total (entry0 :: rest) hosts idx 0) as
      (chunks0 & e2 & -> & Hl & Hbuilt); [done|]. simpl.
    destruct (countPieces_total r entry0 (list_to_set (HostPublicKeys entry0))
                (zip idx chunks0)) as [counted ->].
    { apply Forall_forall. intros [index c0] Hw pieces Hp. simpl in *.
      apply list_elem_of_lookup in Hw as [k Hw].
      apply lookup_zip_with_Some in Hw as (? & ? & [= <- <-] & Hi' & Hc0).
      destruct (Hbuilt k index Hi') as (entry & Hentry & Hc0').
      rewrite Hc0 in Hc0'. injection Hc0' as ->.
      assert (entry = entry0) as ->.
      { rewrite Forall_forall in Hall. symmetry. apply Hall.
        apply list_elem_of_lookup. eauto. }
      simpl. rewrite length_replicate. by apply (Hfit index). }
    simpl. destruct counted as [chunks'|]; [|by eexists].
    destruct (incompleteChunks 0 chunks'). by eexists.
Qed.


Lemma exampleEntry_fullyPlaced :
  fullyPlaced (exampleRenter 3) exampleEntry exampleHosts 0.
Proof.
  exists ["hostA"; "hostB"; "hostC"], ["a0"; "b0"; "c0"].
  split; [reflexivity|]. split; [reflexivity|]. split; [reflexivity|].
  split; [simpl; lia|]. split.
  - repeat (apply NoDup_cons; split; [set_solver|]). apply NoDup_nil_2.
  - intros h Hh. unfold exampleHosts.
    repeat (apply elem_of_cons in Hh as [->|Hh]);
      try (by apply elem_of_nil in Hh);
      (split; [set_solver|]; split; [simpl; set_solver|];
       eexists; split; [vm_compute; reflexivity|reflexivity]).
Qed.

(** C7, witness: with one worker the 2-of-3 example file is marked stuck and
    no chunk is built; with three workers only chunk 1, which misses a piece,
    is returned, and not chunk 0, whose pieces are all placed. *)
Lemma buildUnfinishedChunks_contract_witness :
  let entrys := [exampleEntry; exampleEntry] in
  buildUnfinishedChunks (exampleRenter 1) entrys exampleHosts targetUnstuckChunks
    = Some ([], [EffMarkAllChunksAsStuck 0; EffClose 0; EffClose 1])
  /\ exists chunks effs,
      buildUnfinishedChunks (exampleRenter 3) entrys exampleHosts targetUnstuckChunks
        = Some (chunks, effs)
      /\ UUC.index <$> chunks = [1]
      /\ UUC.piecesCompleted <$> chunks = [2]
      /\ Forall (fun c => UUC.piecesCompleted c < UUC.piecesNeeded c) chunks
      /\ Forall (fun c => UUC.index c <> Z.of_nat 0) chunks.
Proof.
  intros entrys. split.
  - apply (proj1 (buildUnfinishedChunks_contract (exampleRenter 1) entrys exampleHosts
                    targetUnstuckChunks) exampleEntry [exampleEntry] eq_refl).
    simpl. lia.
  - destruct (buildUnfinishedChunks (exampleRenter 3) entrys exampleHosts
                targetUnstuckChunks) as [[chunks effs]|] eqn:Hb.
    2:{ vm_compute in Hb. discriminate. }
    exists chunks, effs. split; [reflexivity|].
    pose proof (buildUnfinishedChunks_contract (exampleRenter 3) entrys exampleHosts
                  targetUnstuckChunks) as (_ & Hlt & Hfull & _).
    split; [|split; [|split]].
    + vm_compute in Hb. injection Hb as <- _. reflexivity.
    + vm_compute in Hb. injection Hb as <- _. reflexivity.
    + exact (Hlt chunks effs Hb).
    + apply (Hfull exampleEntry chunks effs 0%nat Hb).
      * repeat constructor.
      * simpl. lia.
      * simpl. lia.
      * exact exampleEntry_fullyPlaced.
Defined.

End BuildChunksFacts.

(** ** The download worker *)
Section WorkerDownloadFacts.
Import WorkerDownload.

Implicit Types (udc : unfinishedDownloadChunk) (w : worker) (s : state).

Lemma lookupPiece_in_range udc w :
  wellFormed udc ->
  (pieceIndex (lookupPiece udc w).1 < List.length (UDC.completedPieces udc))%nat.
Proof.
  intros (Hpos & _ & Hmap). unfold lookupPiece.
  destruct (UDC.staticChunkMap (UDC.st udc) !! staticHostPubKey w) as [info|] eqn:Hl.
  - simpl. by eapply Hmap.
  - simpl. done.
Qed.

(** C3: a call of [ownedProcessDownloadChunk] by a worker [w] on a
    well-formed chunk ends in exactly one of three ways.  Drop: the chunk is
    complete (piecesCompleted >= K or the download is complete), or failed
    (piecesCompleted + workersRemaining < K), or [w] is on cooldown, or holds
    no piece of the chunk, or its piece is completed; then the worker is
    removed, nil is returned, and the registration is as before.  Register:
    otherwise, when piecesRegistered + piecesCompleted < K + overdrive and
    the slot of the piece is free; then piecesRegistered grows by one, the
    slot is taken and the chunk is returned.  Standby: otherwise; then [w] is
    appended to workersStandby, nil is returned and workersRemaining is as
    before.  The call never takes piecesRegistered + piecesCompleted above
    K + overdrive. *)
Theorem ownedProcessDownloadChunk_outcomes cfg now downloadComplete w udc :
  wellFormed udc ->
  let K := UDC.minPieces (UDC.st udc) in
  let overdrive := UDC.staticOverdrive (UDC.st udc) in
  let hasPiece := (lookupPiece udc w).2 in
  let i := pieceIndex (lookupPiece udc w).1 in
  let inProgress := UDC.piecesRegistered udc + UDC.piecesCompleted udc in
  let dropped : Prop :=
    (K <= UDC.piecesCompleted udc \/ downloadComplete = true)
    \/ UDC.piecesCompleted udc + UDC.workersRemaining udc < K
    \/ ownedOnDownloadCooldown cfg now w = true
    \/ hasPiece = false
    \/ UDC.completedPieces udc !! i = Some true in
  let wanted : Prop :=
    inProgress < K + overdrive /\ UDC.pieceUsage udc !! i = Some false in
  exists udc' returned,
    ownedProcessDownloadChunk cfg now downloadComplete w udc = Some (udc', returned)
    /\ ((dropped
         /\ returned = false
         /\ udc' = managedRemoveWorker udc
         /\ UDC.workersRemaining udc' = UDC.workersRemaining udc - 1
         /\ UDC.piecesRegistered udc' = UDC.piecesRegistered udc
         /\ UDC.pieceUsage udc' = UDC.pieceUsage udc
         /\ UDC.workersStandby udc' = UDC.workersStandby udc)
        \/ (~ dropped /\ wanted
            /\ returned = true
            /\ UDC.piecesRegistered udc' = UDC.piecesRegistered udc + 1
            /\ UDC.pieceUsage udc' = <[i := true]> (UDC.pieceUsage udc)
            /\ UDC.pieceUsage udc' !! i = Some true
            /\ UDC.workersRemaining udc' = UDC.workersRemaining udc
            /\ UDC.workersStandby udc' = UDC.workersStandby udc)
        \/ (~ dropped /\ ~ wanted
            /\ returned = false
            /\ UDC.workersStandby udc' = UDC.workersStandby udc ++ [w]
            /\ UDC.workersRemaining udc' = UDC.workersRemaining udc
            /\ UDC.piecesRegistered udc' = UDC.piecesRegistered udc
            /\ UDC.pieceUsage udc' = UDC.pieceUsage udc))
    /\ UDC.piecesCompleted udc' = UDC.piecesCompleted udc
    /\ UDC.piecesRegistered udc' + UDC.piecesCompleted udc'
         <= Z.max inProgress (K + overdrive).
Proof.
  intros Hwf. cbv zeta.
  pose proof (lookupPiece_in_range udc w Hwf) as Hi.
  destruct Hwf as (Hpos & Hlen & _).
  unfold ownedProcessDownloadChunk.
  destruct (lookupPiece udc w) as [pieceData hasPiece] eqn:Hlp. simpl in *.
  destruct (lookup_lt_is_Some_2 (UDC.completedPieces udc) (pieceIndex pieceData) Hi)
    as [completed Hcompleted].
  destruct (lookup_lt_is_Some_2 (UDC.pieceUsage udc) (pieceIndex pieceData)
              ltac:(lia)) as [taken Htaken].
  rewrite Hcompleted, Htaken. simpl.
  set (K := UDC.minPieces (UDC.st udc)).
  set (od := UDC.staticOverdrive (UDC.st udc)).
  destruct (K <=? UDC.piecesCompleted udc) eqn:Hcomplete; simpl.
  { apply Z.leb_le in Hcomplete.
    exists (managedRemoveWorker udc), false. split; [done|].
    split; [left; by auto 10|]. split; [done|]. simpl. lia. }
  apply Z.leb_gt in Hcomplete.
  destruct downloadComplete; simpl.
  { exists (managedRemoveWorker udc), false. split; [done|].
    split; [left; by auto 10|]. split; [done|]. simpl. lia. }
  destruct (UDC.piecesCompleted udc + UDC.workersRemaining udc <? K) eqn:Hfailed; simpl.
  { apply Z.ltb_lt in Hfailed.
    exists (managedRemoveWorker udc), false. split; [done|].
    split; [left; by auto 10|]. split; [done|]. simpl. lia. }
  apply Z.ltb_ge in Hfailed.
  destruct (ownedOnDownloadCooldown cfg now w) eqn:Hcool; simpl.
  { exists (managedRemoveWorker udc), false. split; [done|].
    split; [left; by auto 10|]. split; [done|]. simpl. lia. }
  destruct hasPiece; simpl.
  2:{ exists (managedRemoveWorker udc), false. split; [done|].
      split; [left; by auto 10|]. split; [done|]. simpl. lia. }
  destruct completed; simpl.
  { exists (managedRemoveWorker udc), false. split; [done|].
    split; [left; by auto 10|]. split; [done|]. simpl. lia. }
  assert (Hnd : ~ ((K <= UDC.piecesCompleted udc \/ false = true)
                   \/ UDC.piecesCompleted udc + UDC.workersRemaining udc < K
                   \/ false = true
                   \/ true = false
                   \/ Some false = Some true)).
  { intros [[?|?]|[?|[?|[?|?]]]]; try discriminate; lia. }
  rewrite andb_true_r.
  destruct (UDC.piecesRegistered udc + UDC.piecesCompleted udc <? K + od) eqn:Hneeded;
    simpl.
  2:{ apply Z.ltb_ge in Hneeded.
      exists (standBy udc w), false. split; [done|]. split.
      - right. right. split; [done|]. split; [|done]. intros [Hlt _]. lia.
      - split; [done|]. simpl. lia. }
  apply Z.ltb_lt in Hneeded.
  destruct taken; simpl.
  - exists (standBy udc w), false. split; [done|]. split.
    + right. right. split; [done|]. split; [|done]. intros [_ Hfree]. discriminate.
    + split; [done|]. simpl. lia.
  - exists (registerPiece udc (pieceIndex pieceData)), true. split; [done|]. split.
    + right. left. split; [done|]. split; [done|]. simpl.
      repeat split. apply list_lookup_insert_eq. lia.
    + split; [done|]. simpl. lia.
Qed.

Lemma exampleChunk_wellFormed : wellFormed exampleChunk.
Proof.
  repeat split; simpl; try lia.
  intros key info H.
  repeat (apply lookup_insert_Some in H as [[_ <-]|[_ H]]; [simpl; lia|]).
  by rewrite lookup_empty in H.
Qed.

(** C3, witness: the worker of host A registers with the example chunk. *)
Lemma ownedProcessDownloadChunk_outcomes_witness :
  wellFormed exampleChunk
  /\ ownedProcessDownloadChunk exampleConfig 100 false (exampleWorker "hostA") exampleChunk
     = Some (registerPiece exampleChunk 0, true)
  /\ exists udc' returned,
      ownedProcessDownloadChunk exampleConfig 100 false (exampleWorker "hostA") exampleChunk
        = Some (udc', returned)
      /\ UDC.piecesRegistered udc' + UDC.piecesCompleted udc' <= 3.
Proof.
  split; [exact exampleChunk_wellFormed|]. split; [vm_compute; reflexivity|].
  destruct (ownedProcessDownloadChunk_outcomes exampleConfig 100 false
              (exampleWorker "hostA") exampleChunk exampleChunk_wellFormed)
    as (udc' & returned & Hp & _ & _ & Hsum).
  exists udc', returned. split; [exact Hp|]. exact Hsum.
Defined.

(** One worker runs [managedDownload] to the end on the example chunk: it
    registers, fetches, completes its piece and leaves. *)
Lemma managedDownload_example :
  exists s,
    managedDownload exampleConfig 100 false (Fetched "pieceA") true
                    (exampleWorker "hostA") exampleState = Some s
    /\ UDC.piecesCompleted (chunk s) = 1
    /\ UDC.piecesRegistered (chunk s) = 0
    /\ UDC.workersRemaining (chunk s) = 2
    /\ UDC.completedPieces (chunk s) = [true; false; false]
    /\ UDC.pieceUsage (chunk s) = [true; false; false]
    /\ atomicDataReceived s = 20
    /\ recoveryThreads s = 0%nat.
Proof. eexists. split; [vm_compute; reflexivity|]. repeat split. Qed.

(** A worker whose fetch fails gives its slot back. *)
Lemma managedDownload_failure_example :
  exists s,
    managedDownload exampleConfig 100 false DownloadFailed true
                    (exampleWorker "hostA") exampleState = Some s
    /\ UDC.piecesCompleted (chunk s) = 0
    /\ UDC.piecesRegistered (chunk s) = 0
    /\ UDC.workersRemaining (chunk s) = 2
    /\ UDC.pieceUsage (chunk s) = [false; false; false].
Proof. eexists. split; [vm_compute; reflexivity|]. repeat split. Qed.

(** What the completion of a piece does to the counters. *)
Lemma completePiece_effect tgAdd w piece s s' :
  completePiece tgAdd w piece s = Some s' ->
  let i := pieceIndex (lookupPiece (chunk s) w).1 in
  let K := UDC.minPieces (UDC.st (chunk s)) in
  UDC.st (chunk s') = UDC.st (chunk s)
  /\ UDC.piecesCompleted (chunk s') = UDC.piecesCompleted (chunk s) + 1
  /\ UDC.piecesRegistered (chunk s') = UDC.piecesRegistered (chunk s) - 1
  /\ UDC.completedPieces (chunk s') = <[i := true]> (UDC.completedPieces (chunk s))
  /\ UDC.completedPieces (chunk s') !! i = Some true
  /\ recoveryThreads s' =
       (recoveryThreads s
        + if (UDC.piecesCompleted (chunk s') =? K)%Z && tgAdd then 1 else 0)%nat.
Proof.
  unfold completePiece, markPieceCompleted, storePiece. cbv zeta.
  set (i := pieceIndex (lookupPiece (chunk s) w).1).
  destruct (UDC.completedPieces (chunk s) !! i) as [b|] eqn:Hb; [|done].
  assert (Hi : (i < List.length (UDC.completedPieces (chunk s)))%nat)
    by (by eapply lookup_lt_Some).
  cbn.
  destruct (UDC.piecesCompleted (chunk s) + 1 <=? UDC.minPieces (UDC.st (chunk s)));
    [destruct (UDC.physicalChunkData (chunk s) !! i); [|done]|]; cbn;
    destruct (UDC.piecesCompleted (chunk s) + 1 =? UDC.minPieces (UDC.st (chunk s))) eqn:HK;
    intros [= <-]; cbn; rewrite ?HK; repeat split;
    try (by apply list_lookup_insert_eq); destruct tgAdd; simpl; lia.
Qed.

(** The other steps leave the completed pieces and the recovery alone. *)
Lemma step_other cfg s a s' :
  step cfg s a = Some s' ->
  (forall tgAdd w piece, a <> ActComplete tgAdd w piece) ->
  UDC.st (chunk s') = UDC.st (chunk s)
  /\ UDC.piecesCompleted (chunk s') = UDC.piecesCompleted (chunk s)
  /\ recoveryThreads s' = recoveryThreads s.
Proof.
  intros Hstep Hne. destruct a as [now dc w| |tgAdd w piece|w|]; simpl in Hstep.
  - unfold ownedProcessDownloadChunk in Hstep.
    destruct (lookupPiece (chunk s) w) as [pd hp].
    destruct (UDC.completedPieces (chunk s) !! pieceIndex pd); [|done].
    simpl in Hstep. case_match.
    + by injection Hstep as <-.
    + destruct (UDC.pieceUsage (chunk s) !! pieceIndex pd); [|done].
      simpl in Hstep. case_match; by injection Hstep as <-.
  - by injection Hstep as <-.
  - by destruct (Hne tgAdd w piece).
  - unfold managedUnregisterWorker in Hstep.
    destruct (UDC.pieceUsage (chunk s) !! _); [|done].
    simpl in Hstep. by injection Hstep as <-.
  - by injection Hstep as <-.
Qed.


Lemma step_launchedAtMostOnce cfg s a s' :
  step cfg s a = Some s' ->
  launchedAtMostOnce (UDC.minPieces (UDC.st (chunk s))) s ->
  UDC.st (chunk s') = UDC.st (chunk s)
  /\ launchedAtMostOnce (UDC.minPieces (UDC.st (chunk s))) s'.
Proof.
  intros Hstep [Hle HK].
  assert (Hother : (forall tgAdd w piece, a <> ActComplete tgAdd w piece) ->
            UDC.st (chunk s') = UDC.st (chunk s)
            /\ launchedAtMostOnce (UDC.minPieces (UDC.st (chunk s))) s').
  { intros Hne. destruct (step_other cfg s a s' Hstep Hne) as (Hst & Hpc & Hrt).
    split; [done|]. unfold launchedAtMostOnce. by rewrite Hrt, Hpc. }
  destruct a as [now dc w| |tgAdd w piece|w|]; try (by apply Hother).
  clear Hother. simpl in Hstep. apply completePiece_effect in Hstep.
  cbv zeta in Hstep. destruct Hstep as (Hst & Hpc & _ & _ & _ & Hrt).
  split; [done|]. unfold launchedAtMostOnce. rewrite Hrt, Hpc.
  destruct (UDC.piecesCompleted (chunk s) + 1 =? _) eqn:Heq; simpl.
  - apply Z.eqb_eq in Heq.
    assert (recoveryThreads s = 0%nat) as ->.
    { destruct (recoveryThreads s) as [|[|n]]; [done| |lia].
      specialize (HK eq_refl). lia. }
    destruct tgAdd; simpl; split; lia.
  - rewrite Nat.add_0_r. split; [done|]. intros H. specialize (HK H). lia.
Qed.

Lemma run_launchedAtMostOnce cfg acts : forall s s',
  run cfg s acts = Some s' ->
  launchedAtMostOnce (UDC.minPieces (UDC.st (chunk s))) s ->
  UDC.st (chunk s') = UDC.st (chunk s)
  /\ launchedAtMostOnce (UDC.minPieces (UDC.st (chunk s))) s'.
Proof.
  induction acts as [|a acts IH]; intros s s' Hrun Hinv; simpl in Hrun.
  - by injection Hrun as <-.
  - destruct (step cfg s a) as [s1|] eqn:Hstep; [|done]. simpl in Hrun.
    destruct (step_launchedAtMostOnce cfg s a s1 Hstep Hinv) as [Hst Hinv1].
    rewrite <- Hst in Hinv1.
    destruct (IH s1 s' Hrun Hinv1) as [Hst' Hinv'].
    rewrite Hst in Hst', Hinv'. done.
Qed.

(** While no [tg.Add()] fails, the thread runs as soon as [MinPieces] pieces
    are completed. *)
Lemma run_launched cfg acts : forall s s',
  run cfg s acts = Some s' ->
  tgAddSucceeds acts = true ->
  0 < UDC.minPieces (UDC.st (chunk s)) ->
  (UDC.minPieces (UDC.st (chunk s)) <= UDC.piecesCompleted (chunk s) ->
   (1 <= recoveryThreads s)%nat) ->
  UDC.minPieces (UDC.st (chunk s)) <= UDC.piecesCompleted (chunk s') ->
  (1 <= recoveryThreads s')%nat.
Proof.
  induction acts as [|a acts IH]; intros s s' Hrun Htg HK Hinv; simpl in Hrun.
  - by injection Hrun as <-.
  - destruct (step cfg s a) as [s1|] eqn:Hstep; [|done]. simpl in Hrun.
    simpl in Htg. apply andb_prop in Htg as [Ha Htg].
    assert (Hst : UDC.st (chunk s1) = UDC.st (chunk s)
                  /\ (UDC.minPieces (UDC.st (chunk s)) <= UDC.piecesCompleted (chunk s1) ->
                      (1 <= recoveryThreads s1)%nat)).
    { assert (Hother : (forall tgAdd w piece, a <> ActComplete tgAdd w piece) ->
                UDC.st (chunk s1) = UDC.st (chunk s)
                /\ (UDC.minPieces (UDC.st (chunk s)) <= UDC.piecesCompleted (chunk s1) ->
                    (1 <= recoveryThreads s1)%nat)).
      { intros Hne. destruct (step_other cfg s a s1 Hstep Hne) as (Hst & Hpc & Hrt).
        split; [done|]. by rewrite Hrt, Hpc. }
      destruct a as [now dc w| |tgAdd w piece|w|]; try (by apply Hother).
      clear Hother. simpl in Hstep, Ha. subst tgAdd.
      apply completePiece_effect in Hstep.
      cbv zeta in Hstep. destruct Hstep as (Hst & Hpc & _ & _ & _ & Hrt).
      split; [done|]. rewrite Hrt, Hpc.
      destruct (UDC.piecesCompleted (chunk s) + 1 =? _) eqn:Heq; simpl; [lia|].
      apply Z.eqb_neq in Heq. intros H. rewrite Nat.add_0_r. apply Hinv. lia. }
    destruct Hst as [Hst Hinv1]. rewrite <- Hst in *.
    by apply (IH s1 s' Hrun Htg HK Hinv1).
Qed.

(** C2, as the code has it: in every state the workers of a chunk can reach
    from a fresh chunk, the recovery thread was started at most once, and not
    before piecesCompleted reached K.  It is started by the completion that
    makes piecesCompleted equal to K, provided [tg.Add()] succeeds there (the
    renter is not shutting down); if it fails, the thread is never started.
    Every completion, also one after that point, marks its piece completed
    and decrements piecesRegistered. *)
Theorem recovery_launched_at_most_once cfg s0 acts s :
  fresh s0 ->
  run cfg s0 acts = Some s ->
  let K := UDC.minPieces (UDC.st (chunk s0)) in
  (recoveryThreads s <= 1)%nat
  /\ (recoveryThreads s = 1%nat -> K <= UDC.piecesCompleted (chunk s))
  /\ (tgAddSucceeds acts = true -> 0 < K ->
      K <= UDC.piecesCompleted (chunk s) -> recoveryThreads s = 1%nat)
  /\ (forall tgAdd w piece s',
        completePiece tgAdd w piece s = Some s' ->
        UDC.piecesCompleted (chunk s') = UDC.piecesCompleted (chunk s) + 1
        /\ UDC.piecesRegistered (chunk s') = UDC.piecesRegistered (chunk s) - 1
        /\ UDC.completedPieces (chunk s') !! pieceIndex (lookupPiece (chunk s) w).1
             = Some true
        /\ recoveryThreads s' =
             (recoveryThreads s
              + if (UDC.piecesCompleted (chunk s') =? K)%Z && tgAdd then 1 else 0)%nat
        /\ (K <= UDC.piecesCompleted (chunk s) -> recoveryThreads s' = recoveryThreads s)).
Proof.
  intros [Hpc0 Hrt0] Hrun K.
  assert (Hinv0 : launchedAtMostOnce K s0).
  { split; rewrite Hrt0; [lia|done]. }
  destruct (run_launchedAtMostOnce cfg acts s0 s Hrun Hinv0) as [Hst [Hle HK]].
  split; [done|]. split; [done|]. split.
  - intros Htg HKpos Hreached.
    pose proof (run_launched cfg acts s0 s Hrun Htg HKpos) as Hl.
    fold K in Hl. rewrite Hpc0 in Hl.
    specialize (Hl ltac:(lia) Hreached). lia.
  - intros tgAdd w piece s' Hc. apply completePiece_effect in Hc.
    cbv zeta in Hc. destruct Hc as (_ & Hpc & Hpr & _ & Hmark & Hrt).
    rewrite Hst in Hrt. fold K in Hrt.
    repeat split; try done.
    intros Hafter. rewrite Hrt, Hpc.
    destruct (UDC.piecesCompleted (chunk s) + 1 =? K) eqn:Heq; [|simpl; lia].
    apply Z.eqb_eq in Heq. lia.
Qed.

(** C2, witness: the three workers of the example complete their pieces. *)
Lemma recovery_launched_at_most_once_witness :
  fresh exampleState
  /\ exists s, run exampleConfig exampleState (exampleRun true) = Some s
             /\ UDC.piecesCompleted (chunk s) = 3
             /\ recoveryThreads s = 1%nat.
Proof.
  split; [by split|].
  eexists. split; [vm_compute; reflexivity|]. split; [reflexivity|].
  refine (proj1 (proj2 (proj2
    (recovery_launched_at_most_once exampleConfig exampleState (exampleRun true) _
       (conj eq_refl eq_refl) _))) eq_refl _ _).
  - vm_compute. reflexivity.
  - vm_compute. reflexivity.
  - vm_compute. discriminate.
Defined.

(** C2, counterexample: worker B completes the second of the two pieces the
    chunk needs while [tg.Add()] fails; all three pieces end up completed
    and no recovery thread was started. *)
Lemma recovery_not_launched_when_tg_stopped :
  exists s, run exampleConfig exampleState (exampleRun false) = Some s
            /\ UDC.minPieces (UDC.st (chunk s)) = 2
            /\ UDC.piecesCompleted (chunk s) = 3
            /\ UDC.completedPieces (chunk s) = [true; true; true]
            /\ recoveryThreads s = 0%nat.
Proof. eexists. split; [vm_compute; reflexivity|]. repeat split. Qed.

End WorkerDownloadFacts.

(** ** Downloads *)
Section DownloadFacts.
Import BuildChunks Download.

Lemma managedFail_failed d e :
  complete d = true -> err d <> None -> managedFail d e = d.
Proof.
  intros Hc He. unfold managedFail, staticComplete. rewrite Hc.
  by rewrite (bool_decide_eq_true_2 _ He).
Qed.

Lemma managedFail_succeeded d e :
  complete d = true -> err d = None -> managedFail d e = logCritical d.
Proof.
  intros Hc He. unfold managedFail, staticComplete. rewrite Hc.
  rewrite (bool_decide_eq_true_2 _ He).
  rewrite bool_decide_eq_false_2; [done|]. intros H. by apply H.
Qed.

Lemma managedFail_running d e :
  complete d = false -> managedFail d e = markComplete (setErr d e).
Proof. intros Hc. unfold managedFail, staticComplete. by rewrite Hc. Qed.

(** C9: cancelling a download that is already complete leaves what it shows
    unchanged: the same recorded error, still complete, no complete function
    run again; and cancelling a download twice gives the same as cancelling
    it once. *)
Theorem managedCancel_idempotent d :
  (complete d = true ->
     observable (managedCancel d) = observable d
     /\ err (managedCancel d) = err d
     /\ complete (managedCancel d) = true
     /\ executed (managedCancel d) = executed d)
  /\ (complete d = true -> err d <> None -> managedCancel d = d)
  /\ observable (managedCancel (managedCancel d)) = observable (managedCancel d)
  /\ (complete d = false ->
       managedCancel (managedCancel d) = managedCancel d
       /\ complete (managedCancel d) = true
       /\ err (managedCancel d) = Some ErrDownloadCancelled).
Proof.
  unfold managedCancel.
  destruct (complete d) eqn:Hc.
  - destruct (err d) as [e|] eqn:He.
    + assert (Hne : err d <> None) by congruence.
      rewrite !(managedFail_failed d _ Hc Hne).
      repeat split; done.
    + rewrite (managedFail_succeeded d _ Hc He).
      rewrite (managedFail_succeeded (logCritical d)) by done.
      unfold observable. simpl. rewrite Hc, He.
      repeat split; done.
  - rewrite (managedFail_running d _ Hc).
    rewrite managedFail_failed by done.
    repeat split; done.
Qed.

(** C9, witness: a download that is under way is cancelled, and cancelled
    again. *)
Lemma managedCancel_idempotent_witness :
  managedCancel (managedCancel runningDownload) = managedCancel runningDownload
  /\ executed (managedCancel runningDownload)
     = [(SetEndTime, Some ErrDownloadCancelled);
        (CloseDestination, Some ErrDownloadCancelled)]
  /\ managedCancel (managedCancel (managedCancel runningDownload))
     = managedCancel runningDownload.
Proof.
  split; [|split].
  - exact (proj1 (proj2 (proj2 (proj2 (managedCancel_idempotent runningDownload)))
                   eq_refl)).
  - reflexivity.
  - exact (proj1 (proj2 (managedCancel_idempotent (managedCancel runningDownload)))
             eq_refl ltac:(discriminate)).
Defined.


Lemma managedNewDownload_staticLength params d chunks :
  managedNewDownload params = Ok (d, chunks) -> staticLength d = length params.
Proof.
  unfold managedNewDownload, ChunkIndexByOffset.
  destruct (file params) as [s|]; [|done].
  repeat (case_match; try done); intros [= <- <-]; reflexivity.
Qed.

(** A download of length zero is complete when it is created. *)
Lemma managedNewDownload_zero params d chunks :
  managedNewDownload params = Ok (d, chunks) ->
  length params = 0 ->
  chunks = [] /\ complete d = true /\ err d = None
  /\ chunksRemaining d = 0 /\ executed d = [(SetEndTime, None)].
Proof.
  unfold managedNewDownload. intros H Hlen.
  destruct (file params) as [s|]; [|done].
  rewrite Hlen in H. simpl in H.
  repeat (case_match; try done).
  by injection H as <- <-.
Qed.

(** C10: a download whose length is 0 is returned by [managedNewDownload]
    complete and without an error: no unfinished download chunk is built and
    none is queued.  [managedDownload] hands it on as it is, and the blocking
    [Download] returns nil at once, as it does for a file of zero bytes
    downloaded in full. *)
Theorem zero_length_download :
  (forall params s,
      file params = Some s -> length params = 0 ->
      0 <= offset params -> wrap64 (offset params) <= Size s ->
      exists d,
        managedNewDownload params = Ok (d, [])
        /\ complete d = true /\ err d = None
        /\ chunksRemaining d = 0 /\ executed d = [(SetEndTime, None)])
  /\ (forall env p d chunks,
        managedDownload env p = Ok (d, chunks) ->
        staticLength d = 0 ->
        chunks = [] /\ complete d = true /\ err d = None
        /\ (tgAdd env = true -> stopChan env = false ->
            Download env p = Ok (Returned None)))
  /\ (forall path,
        Download (oneFileEnv path 0 (exampleSnapshot 0 0))
                 {| Async := false; Httpwriter := false; Destination := "/tmp/out";
                    Length := 0; Offset := 0; SiaPath := path |}
        = Ok (Returned None)).
Proof.
  split; [|split].
  - intros params s Hfile Hlen Hoff Hsize.
    assert (Hnew : exists d chunks, managedNewDownload params = Ok (d, chunks)).
    { unfold managedNewDownload. rewrite Hfile, Hlen. simpl.
      rewrite (proj2 (Z.ltb_ge _ _) Hoff), Z.add_0_r.
      rewrite (proj2 (Z.ltb_ge _ _) Hsize). eauto. }
    destruct Hnew as (d & chunks & Hnew).
    destruct (managedNewDownload_zero params d chunks Hnew Hlen) as (-> & ?).
    by exists d.
  - intros env p d chunks Hmd Hlen.
    assert (Hinner : exists params d0,
               managedNewDownload params = Ok (d0, chunks)
               /\ d = onComplete d0 CloseDestination).
    { unfold managedDownload in Hmd.
      repeat (case_match; try done); simplify_eq; eauto. }
    destruct Hinner as (params & d0 & Hnew & ->).
    pose proof (managedNewDownload_staticLength _ _ _ Hnew) as Hsl.
    simpl in Hlen. rewrite Hsl in Hlen.
    destruct (managedNewDownload_zero _ _ _ Hnew Hlen) as (-> & Hc & He & _ & _).
    repeat split; [done|done|].
    intros Htg Hstop. unfold Download. rewrite Htg, Hmd, Hstop. simpl.
    by rewrite Hc, He.
  - intros path. unfold Download, managedDownload, oneFileEnv. simpl.
    rewrite String.eqb_refl. reflexivity.
Qed.

(** C10, witness: the whole of a file of zero bytes is asked for. *)
Lemma zero_length_download_witness :
  exists d,
    managedNewDownload
      {| destinationStringOf := "/tmp/out"; destinationType := "file";
         file := Some (exampleSnapshot 0 0); latencyTarget := 0; length := 0;
         needsMemory := true; offset := 0; overdrive := 3; priority := 5 |}
    = Ok (d, [])
    /\ complete d = true /\ err d = None.
Proof.
  destruct (proj1 zero_length_download
              {| destinationStringOf := "/tmp/out"; destinationType := "file";
                 file := Some (exampleSnapshot 0 0); latencyTarget := 0; length := 0;
                 needsMemory := true; offset := 0; overdrive := 3; priority := 5 |}
              (exampleSnapshot 0 0) eq_refl eq_refl)
    as (d & Hd & Hc & He & _).
  - simpl. lia.
  - vm_compute. discriminate.
  - exists d. by repeat split.
Defined.


Lemma chunkMaps_total s count : forall i,
  0 <= i -> i + Z.of_nat count <= NumChunks s ->
  exists maps, chunkMaps s i count = Some maps /\ List.length maps = count.
Proof.
  induction count as [|count IH]; intros i Hi Hn; simpl.
  { by exists []. }
  unfold SnapshotPieces. rewrite (proj2 (Z.ltb_ge _ _) Hi).
  destruct (staticChunks s !! Z.to_nat i) as [pieces|] eqn:Hp.
  2:{ apply lookup_ge_None in Hp. unfold NumChunks in Hn. lia. }
  simpl. destruct (IH (i + 1)) as (maps & -> & Hl); [lia|lia|].
  simpl. eexists. split; [done|]. simpl. by rewrite Hl.
Qed.

Section Windows.

Variables (params : downloadParams) (s : Snapshot).
Variables (o e minChunk maxChunk minOff maxOff : Z).
Let cs := ChunkSize s.

Hypothesis Hcs : 0 < cs < 2 ^ 64.
Hypothesis Hstart : o = minChunk * cs + minOff.
Hypothesis HminOff : 0 <= minOff < cs.
Hypothesis Hend : e = maxChunk * cs + (if maxOff =? 0 then cs else maxOff).
Hypothesis HmaxOff : 0 <= maxOff < cs.
Hypothesis Hrange : o < e.

(** Where the window of chunk [i] starts; past the last chunk, the end of
    the download. *)
Let startOf (i : Z) : Z :=
  if i <=? maxChunk then i * cs + (if i =? minChunk then minOff else 0) else e.

Lemma queueChunks_windows maps : forall i w,
  minChunk <= i ->
  i + Z.of_nat (List.length maps) = maxChunk + 1 ->
  o + w = startOf i ->
  let chunks :=
    queueChunks params s minChunk maxChunk minOff maxOff i maps w in
  chunkIndexOf <$> chunks = seqZ i (Z.of_nat (List.length maps))
  /\ tiles (o + w) e (fileWindow cs <$> chunks)
  /\ Forall (fun udc =>
               0 <= UDC.staticFetchOffset (UDC.st udc)
               /\ UDC.staticFetchOffset (UDC.st udc)
                    + UDC.staticFetchLength (UDC.st udc) <= cs
               /\ o + UDC.staticWriteOffset (UDC.st udc)
                  = chunkIndexOf udc * cs + UDC.staticFetchOffset (UDC.st udc))
            chunks.
Proof.
  induction maps as [|m maps IH]; intros i w Hi Hlen Hw; cbv zeta.
  { simpl in *. split; [done|]. split; [|constructor].
    rewrite Hw. unfold startOf.
    destruct (i <=? maxChunk) eqn:Hle; [apply Z.leb_le in Hle; lia|done]. }
  cbn [queueChunks List.length] in *.
  assert (Hle : i <= maxChunk) by lia.
  unfold startOf in Hw. rewrite (proj2 (Z.leb_le _ _) Hle) in Hw.
  set (fo := if i =? minChunk then minOff else 0) in *.
  assert (Hfo : 0 <= fo < cs).
  { subst fo. destruct (i =? minChunk); lia. }
  set (udc := newDownloadChunk params s minChunk maxChunk minOff maxOff i m w).
  assert (Hoff : UDC.staticFetchOffset (UDC.st udc) = fo) by reflexivity.
  assert (Hidx : chunkIndexOf udc = i) by reflexivity.
  assert (Hwo : UDC.staticWriteOffset (UDC.st udc) = w) by reflexivity.
  assert (Hfl : UDC.staticFetchLength (UDC.st udc)
                = if (i =? maxChunk) && negb (maxOff =? 0)
                  then maxOff - fo else cs - fo).
  { subst udc. unfold newDownloadChunk. cbn [UDC.staticFetchLength UDC.st].
    fold fo. fold cs.
    destruct ((i =? maxChunk) && negb (maxOff =? 0)) eqn:Hlast.
    - apply andb_prop in Hlast as [Hi' Hm]. apply Z.eqb_eq in Hi'.
      apply negb_true_iff, Z.eqb_neq in Hm.
      apply wrap64_small.
      assert (Hm0 : (maxOff =? 0) = false) by (by apply Z.eqb_neq).
      rewrite Hm0 in Hend. subst fo.
      destruct (i =? minChunk) eqn:Him.
      + apply Z.eqb_eq in Him. nia.
      + lia.
    - apply wrap64_small. lia. }
  assert (Hnext : o + (w + UDC.staticFetchLength (UDC.st udc)) = startOf (i + 1)
                  /\ 0 < UDC.staticFetchLength (UDC.st udc)
                  /\ fo + UDC.staticFetchLength (UDC.st udc) <= cs).
  { rewrite Hfl. unfold startOf.
    destruct (i =? maxChunk) eqn:Hi'.
    - apply Z.eqb_eq in Hi'. rewrite (proj2 (Z.leb_gt _ _)) by lia.
      destruct (maxOff =? 0) eqn:Hm; simpl.
      + lia.
      + apply Z.eqb_neq in Hm. subst fo.
        destruct (i =? minChunk) eqn:Him.
        * apply Z.eqb_eq in Him. nia.
        * lia.
    - apply Z.eqb_neq in Hi'. simpl.
      rewrite (proj2 (Z.leb_le _ _)) by lia.
      rewrite (proj2 (Z.eqb_neq _ _)) by lia. lia. }
  destruct Hnext as (Hnext & Hpos & Hin).
  destruct (IH (i + 1) (w + UDC.staticFetchLength (UDC.st udc)))
    as (Hix & Htiles & Hall); [lia|lia|done|].
  split; [|split].
  - rewrite fmap_cons, Hix, Hidx.
    replace (Z.of_nat (S (List.length maps))) with (Z.succ (Z.of_nat (List.length maps))) by lia.
    rewrite (seqZ_cons i) by lia.
    by rewrite Z.pred_succ.
  - rewrite fmap_cons. cbn [tiles fileWindow].
    rewrite Hidx, Hoff. split; [lia|]. split; [done|].
    by rewrite <- Z.add_assoc.
  - constructor; [|done]. rewrite Hoff, Hidx, Hwo. lia.
Qed.

End Windows.


Lemma wrap64_bound x : 0 <= wrap64 x < 2 ^ 64.
Proof. unfold wrap64. apply Z.mod_pos_bound. lia. Qed.

(** The last chunk of a range that ends at byte [e]: the one before [e / cs]
    when [e] is on a chunk boundary. *)
Lemma lastChunk_spec cs e :
  0 < cs -> 0 < e ->
  let maxChunk := if (0 <? e / cs) && (e mod cs =? 0) then e / cs - 1 else e / cs in
  maxChunk = ceilDiv e cs - 1
  /\ maxChunk = (e - 1) / cs
  /\ e = maxChunk * cs + (if e mod cs =? 0 then cs else e mod cs).
Proof.
  intros Hcs He. cbv zeta. unfold ceilDiv.
  pose proof (Z.div_mod e cs ltac:(lia)) as Hdm.
  pose proof (Z.mod_pos_bound e cs Hcs) as Hm.
  destruct (e mod cs =? 0) eqn:Hz.
  - apply Z.eqb_eq in Hz. rewrite Hz in *.
    assert (Hq : 0 < e / cs) by nia.
    rewrite (proj2 (Z.ltb_lt _ _) Hq). simpl.
    assert (H1 : (e + cs - 1) / cs = e / cs).
    { symmetry. apply (Z.div_unique _ _ _ (cs - 1)); lia. }
    assert (H2 : (e - 1) / cs = e / cs - 1).
    { symmetry. apply (Z.div_unique _ _ _ (cs - 1)); lia. }
    repeat split; lia.
  - apply Z.eqb_neq in Hz. rewrite andb_false_r.
    assert (H1 : (e + cs - 1) / cs = e / cs + 1).
    { symmetry. apply (Z.div_unique _ _ _ (e mod cs - 1)); lia. }
    assert (H2 : (e - 1) / cs = e / cs).
    { symmetry. apply (Z.div_unique _ _ _ (e mod cs - 1)); lia. }
    repeat split; lia.
Qed.

(** C8: for a download with length > 0 and offset + length within the file,
    [managedNewDownload] builds the unfinished download chunks of exactly the
    chunk indices floor(offset / chunkSize) up to
    ceil((offset + length) / chunkSize) - 1; when offset + length is a
    multiple of the chunk size, the chunk (offset + length) / chunkSize is
    not among them; and the fetch windows of the chunks follow one another
    from byte [offset] to byte [offset + length] of the file, each within its
    chunk and written where it belongs in the destination. *)
Theorem managedNewDownload_chunks params s :
  file params = Some s ->
  0 < length params ->
  0 <= offset params ->
  offset params + length params <= Size s ->
  0 < ChunkSize s ->
  Size s <= NumChunks s * ChunkSize s ->
  let cs := ChunkSize s in
  let minChunk := offset params / cs in
  let maxChunk := ceilDiv (offset params + length params) cs - 1 in
  exists d chunks,
    managedNewDownload params = Ok (d, chunks)
    /\ chunkIndexOf <$> chunks = seqZ minChunk (maxChunk - minChunk + 1)
    /\ minChunk <= maxChunk
    /\ ((offset params + length params) mod cs = 0 ->
        Forall (fun udc => chunkIndexOf udc <> (offset params + length params) / cs) chunks)
    /\ tiles (offset params) (offset params + length params) (fileWindow cs <$> chunks)
    /\ Forall (fun udc =>
                 0 <= UDC.staticFetchOffset (UDC.st udc)
                 /\ UDC.staticFetchOffset (UDC.st udc)
                      + UDC.staticFetchLength (UDC.st udc) <= cs
                 /\ offset params + UDC.staticWriteOffset (UDC.st udc)
                    = chunkIndexOf udc * cs + UDC.staticFetchOffset (UDC.st udc))
              chunks
    /\ chunksRemaining d = maxChunk - minChunk + 1
    /\ complete d = false.
Proof.
  intros Hfile Hlen Hoff Hfit Hcs Hnum. cbv zeta.
  set (cs := ChunkSize s) in *.
  set (o := offset params) in *.
  set (e := o + length params) in *.
  pose proof (wrap64_bound (staticFileSize s)) as Hsz. fold (Size s) in Hsz.
  assert (Hcs64 : cs < 2 ^ 64).
  { subst cs. unfold ChunkSize. apply wrap64_bound. }
  assert (He : wrap64 e = e) by (apply wrap64_small; lia).
  destruct (lastChunk_spec cs e Hcs ltac:(lia)) as (Hceil & Hlast & Hend).
  set (maxChunk := if (0 <? e / cs) && (e mod cs =? 0) then e / cs - 1 else e / cs) in *.
  pose proof (Z.div_mod o cs ltac:(lia)) as Hdm.
  pose proof (Z.mod_pos_bound o cs Hcs) as Hmo.
  pose proof (Z.mod_pos_bound e cs Hcs) as Hme.
  assert (Hmin0 : 0 <= o / cs) by (apply Z.div_pos; lia).
  assert (Hmm : o / cs <= maxChunk).
  { rewrite Hlast. apply Z.div_le_mono; lia. }
  assert (Hmax : maxChunk < NumChunks s).
  { rewrite Hlast. apply Z.div_lt_upper_bound; [lia|]. nia. }
  destruct (chunkMaps_total s (Z.to_nat (maxChunk - o / cs + 1)) (o / cs))
    as (maps & Hmaps & Hmlen); [lia|lia|].
  destruct (queueChunks_windows params s o e (o / cs) maxChunk (o mod cs) (e mod cs)
              ltac:(fold cs; lia) ltac:(fold cs; lia) ltac:(fold cs; lia)
              ltac:(fold cs; exact Hend) ltac:(fold cs; lia) ltac:(lia)
              maps (o / cs) 0)
    as (Hix & Htiles & Hall).
  { lia. }
  { rewrite Hmlen. lia. }
  { rewrite (proj2 (Z.leb_le _ _) Hmm), Z.eqb_refl. fold cs. lia. }
  fold cs in Hix, Htiles, Hall. rewrite Z.add_0_r in Htiles.
  rewrite Hmlen, Z2Nat.id in Hix by lia.
  eexists _, _. split.
  { unfold managedNewDownload. rewrite Hfile.
    fold o. fold e. rewrite He.
    rewrite (proj2 (Z.ltb_ge (length params) 0)) by lia.
    rewrite (proj2 (Z.ltb_ge o 0)) by lia.
    rewrite (proj2 (Z.ltb_ge (Size s) e)) by lia.
    cbn [onComplete staticLength complete].
    rewrite (proj2 (Z.eqb_neq (length params) 0)) by lia.
    fold cs. rewrite (proj2 (Z.eqb_neq cs 0)) by lia.
    unfold ChunkIndexByOffset. fold cs. fold maxChunk.
    rewrite (proj2 (Z.eqb_neq (o / cs) (NumChunks s))) by lia.
    rewrite (proj2 (Z.eqb_neq maxChunk (NumChunks s))) by lia.
    cbn [orb]. rewrite (proj2 (Z.ltb_ge maxChunk (o / cs))) by lia.
    rewrite Hmaps. reflexivity. }
  rewrite <- Hceil.
  split; [exact Hix|]. split; [exact Hmm|]. split.
  { intros Hmod. apply Forall_forall. intros udc Hin Heq.
    assert (Hin' : chunkIndexOf udc ∈ seqZ (o / cs) (maxChunk - o / cs + 1)).
    { rewrite <- Hix. apply list_elem_of_fmap. eauto. }
    apply elem_of_seqZ in Hin'.
    assert (Hq : 0 < e / cs).
    { pose proof (Z.div_mod e cs ltac:(lia)). nia. }
    subst maxChunk. rewrite (proj2 (Z.ltb_lt _ _) Hq), (proj2 (Z.eqb_eq _ _) Hmod) in Hin'.
    simpl in Hin'. lia. }
  split; [exact Htiles|]. split; [exact Hall|].
  split; reflexivity.
Qed.


(** C8, witness: the first 80 bytes of a file of three chunks of 40 bytes
    are planned as the chunks 0 and 1. *)
Lemma managedNewDownload_chunks_witness :
  exists d chunks,
    managedNewDownload boundaryParams = Ok (d, chunks)
    /\ chunkIndexOf <$> chunks = [0; 1]
    /\ tiles 0 80 (fileWindow 40 <$> chunks).
Proof.
  destruct (managedNewDownload_chunks boundaryParams (exampleSnapshot 100 3) eq_refl)
    as (d & chunks & Hnew & Hix & _ & _ & Htiles & _).
  - simpl. lia.
  - simpl. lia.
  - vm_compute. discriminate.
  - vm_compute. reflexivity.
  - vm_compute. discriminate.
  - exists d, chunks. split; [exact Hnew|]. split; [exact Hix|exact Htiles].
Defined.

End DownloadFacts.

(** * Facts about the segments of a sector *)
Section RecoveryFacts.
Import BuildChunks Recovery.

Lemma segmentsForRecovery_partial k off len rs :
  SupportsPartialEncoding rs = true ->
  0 < rsMinPieces rs * SegmentSize k < 2 ^ 64 ->
  0 <= off -> 0 <= len -> off + len < 2 ^ 64 ->
  let rss := rsMinPieces rs * SegmentSize k in
  segmentsForRecovery k off len rs
    = Some (off / rss, (off + len + rss - 1) / rss - off / rss).
Proof.
  intros Hp Hrss Hoff Hlen Hsum rss.
  unfold segmentsForRecovery. rewrite Hp. cbn [negb].
  fold rss. rewrite (wrap64_small rss) by (subst rss; lia).
  destruct (rss =? 0) eqn:Hz; [lia|].
  rewrite (wrap64_small (off + len)) by lia.
  assert (Hq : 0 <= (off + len) / rss <= off + len).
  { split; [apply Z.div_pos; lia|].
    apply Z.div_le_upper_bound; [lia|]. nia. }
  assert (Hs : 0 <= off / rss <= (off + len) / rss).
  { split; [apply Z.div_pos; lia|]. apply Z.div_le_mono; lia. }
  pose proof (Z.div_mod (off + len) rss ltac:(lia)) as Hdm.
  pose proof (Z.mod_pos_bound (off + len) rss ltac:(lia)) as Hmb.
  assert (Hceil : (off + len + rss - 1) / rss
                  = if (off + len) mod rss =? 0
                    then (off + len) / rss else (off + len) / rss + 1).
  { destruct ((off + len) mod rss =? 0) eqn:Hm.
    - apply Z.eqb_eq in Hm.
      symmetry. apply (Z.div_unique _ _ _ (rss - 1)); lia.
    - apply Z.eqb_neq in Hm.
      symmetry. apply (Z.div_unique _ _ _ ((off + len) mod rss - 1)); lia. }
  rewrite Hceil.
  destruct ((off + len) mod rss =? 0) eqn:Hm; cbn [negb].
  - rewrite wrap64_small by lia. reflexivity.
  - apply Z.eqb_neq in Hm.
    assert ((off + len) / rss < off + len \/ rss = 1).
    { destruct (decide (rss = 1)) as [|Hne]; [by right|left].
      apply Z.div_lt_upper_bound; [lia|]. nia. }
    assert (Hone : rss = 1 -> (off + len) mod rss = 0).
    { intros ->. apply Z.mod_1_r. }
    rewrite (wrap64_small ((off + len) / rss + 1)) by lia.
    rewrite wrap64_small by lia. reflexivity.
Qed.

(** X2: with an erasure coder that supports partial encoding,
    [segmentsForRecovery] returns the smallest run of recovered segments
    (of [MinPieces * SegmentSize] bytes each) that covers the bytes
    [chunkFetchOffset, chunkFetchOffset + chunkFetchLength) of the chunk: the
    first segment holds the first byte, the run reaches the end of the range,
    and a run one segment shorter would not. *)
Theorem segmentsForRecovery_covers k off len rs :
  SupportsPartialEncoding rs = true ->
  0 < rsMinPieces rs * SegmentSize k < 2 ^ 64 ->
  0 <= off -> 0 <= len -> off + len < 2 ^ 64 ->
  let rss := rsMinPieces rs * SegmentSize k in
  exists startSegment numSegments,
    segmentsForRecovery k off len rs = Some (startSegment, numSegments)
    /\ 0 <= startSegment /\ 0 <= numSegments
    /\ startSegment * rss <= off < (startSegment + 1) * rss
    /\ off + len <= (startSegment + numSegments) * rss
    /\ (0 < len -> (startSegment + numSegments - 1) * rss < off + len)
    /\ (len = 0 -> numSegments <= 1).
Proof.
  intros Hp Hrss Hoff Hlen Hsum rss.
  rewrite (segmentsForRecovery_partial k off len rs Hp Hrss Hoff Hlen Hsum).
  fold rss.
  eexists _, _. split; [reflexivity|].
  pose proof (Z.div_mod off rss ltac:(lia)) as Hdm.
  pose proof (Z.mod_pos_bound off rss ltac:(lia)) as Hmb.
  pose proof (Z.div_mod (off + len + rss - 1) rss ltac:(lia)) as Hdm'.
  pose proof (Z.mod_pos_bound (off + len + rss - 1) rss ltac:(lia)) as Hmb'.
  assert (0 <= off / rss) by (apply Z.div_pos; lia).
  assert (off / rss <= (off + len + rss - 1) / rss) by (apply Z.div_le_mono; lia).
  repeat split; try lia; try nia.
Qed.

(** X2, witness: the bytes 100 to 299 of a chunk with segments of 64 bytes
    and two data pieces lie in the recovered segments 0, 1 and 2. *)
Lemma segmentsForRecovery_covers_witness :
  exists startSegment numSegments,
    segmentsForRecovery {| SectorSize := 4096; SegmentSize := 64 |} 100 200
      {| SupportsPartialEncoding := true; rsMinPieces := 2 |}
      = Some (startSegment, numSegments)
    /\ startSegment * 128 <= 100 /\ 300 <= (startSegment + numSegments) * 128.
Proof.
  destruct (segmentsForRecovery_covers
              {| SectorSize := 4096; SegmentSize := 64 |} 100 200
              {| SupportsPartialEncoding := true; rsMinPieces := 2 |}
              eq_refl ltac:(simpl; lia) ltac:(lia) ltac:(lia) ltac:(lia))
    as (st & num & Heq & _ & _ & Hst & Hend & _).
  exists st, num. simpl in Hst, Hend. split; [exact Heq|]. lia.
Defined.

(** X3: [sectorOffsetAndLength] asks for the whole sector when the erasure
    coder does not support partial encoding.  When it does, and the range
    lies within a chunk of [MinPieces] pieces of [pieceLen] bytes, a positive
    multiple of the segment size, the offset and the length it returns are multiples
    of the segment size, stay within the piece, and the bytes they select in
    each of the [MinPieces] pieces decode to a part of the chunk that holds
    the range asked for. *)
Theorem sectorOffsetAndLength_within_piece k off len rs :
  (SupportsPartialEncoding rs = false ->
   0 < SegmentSize k -> 0 <= SectorSize k < 2 ^ 64 ->
   (SegmentSize k | SectorSize k) ->
   sectorOffsetAndLength k off len rs = Some (0, SectorSize k))
  /\ (forall pieceLen,
        SupportsPartialEncoding rs = true ->
        0 < SegmentSize k -> 0 < rsMinPieces rs ->
        0 < pieceLen -> (SegmentSize k | pieceLen) ->
        rsMinPieces rs * pieceLen < 2 ^ 64 ->
        0 <= off -> 0 <= len -> off + len <= rsMinPieces rs * pieceLen ->
        exists sectorOffset sectorLength,
          sectorOffsetAndLength k off len rs = Some (sectorOffset, sectorLength)
          /\ (SegmentSize k | sectorOffset) /\ (SegmentSize k | sectorLength)
          /\ 0 <= sectorOffset /\ 0 <= sectorLength
          /\ sectorOffset + sectorLength <= pieceLen
          /\ sectorOffset * rsMinPieces rs <= off
          /\ off + len <= (sectorOffset + sectorLength) * rsMinPieces rs).
Proof.
  split.
  - intros Hp Hseg Hsec [m Hm].
    unfold sectorOffsetAndLength, segmentsForRecovery. rewrite Hp. cbn.
    rewrite (wrap64_small (SectorSize k)) by lia.
    rewrite Hm, Z.div_mul by lia.
    rewrite !wrap64_small by lia. by rewrite Z.mul_0_l.
  - intros pieceLen Hp Hseg Hmin Hpl [m Hm] Hfit Hoff Hlen Hin.
    set (seg := SegmentSize k) in *. set (mp := rsMinPieces rs) in *.
    assert (Hm0 : 0 < m).
    { destruct (Z.lt_ge_cases 0 m) as [|Hneg]; [done|]. nia. }
    assert (Hsp : seg <= pieceLen) by nia.
    assert (Hrss : 0 < mp * seg < 2 ^ 64).
    { split; [apply Z.mul_pos_pos; lia|].
      apply Z.le_lt_trans with (mp * pieceLen); [|done].
      apply Z.mul_le_mono_nonneg_l; lia. }
    unfold sectorOffsetAndLength.
    rewrite (segmentsForRecovery_partial k off len rs Hp Hrss Hoff Hlen ltac:(nia)).
    fold seg mp. cbn.
    set (rss := mp * seg) in *.
    pose proof (Z.div_mod off rss ltac:(lia)) as Hdm.
    pose proof (Z.mod_pos_bound off rss ltac:(lia)) as Hmb.
    pose proof (Z.div_mod (off + len + rss - 1) rss ltac:(lia)) as Hdm'.
    pose proof (Z.mod_pos_bound (off + len + rss - 1) rss ltac:(lia)) as Hmb'.
    assert (Hs0 : 0 <= off / rss) by (apply Z.div_pos; lia).
    assert (Hse : off / rss <= (off + len + rss - 1) / rss)
      by (apply Z.div_le_mono; lia).
    assert (Hem : (off + len + rss - 1) / rss <= m).
    { apply Z.lt_succ_r. apply Z.div_lt_upper_bound; [lia|]. nia. }
    rewrite (wrap64_small (off / rss * seg)) by nia.
    rewrite (wrap64_small (_ * seg)) by nia.
    eexists _, _. split; [reflexivity|].
    split; [by eexists|]. split; [by eexists|].
    repeat split; try nia.
Qed.

(** X3, witness: the bytes 100 to 299 of a chunk of two pieces of 4096 bytes
    need the bytes 0 to 191 of each sector. *)
Lemma sectorOffsetAndLength_within_piece_witness :
  sectorOffsetAndLength {| SectorSize := 4096; SegmentSize := 64 |} 100 200
    {| SupportsPartialEncoding := false; rsMinPieces := 2 |} = Some (0, 4096)
  /\ exists sectorOffset sectorLength,
      sectorOffsetAndLength {| SectorSize := 4096; SegmentSize := 64 |} 100 200
        {| SupportsPartialEncoding := true; rsMinPieces := 2 |}
        = Some (sectorOffset, sectorLength)
      /\ sectorOffset + sectorLength <= 4096.
Proof.
  split.
  - apply (proj1 (sectorOffsetAndLength_within_piece
                    {| SectorSize := 4096; SegmentSize := 64 |} 100 200
                    {| SupportsPartialEncoding := false; rsMinPieces := 2 |}));
      simpl; try lia; try reflexivity.
    exists 64. reflexivity.
  - destruct (proj2 (sectorOffsetAndLength_within_piece
                       {| SectorSize := 4096; SegmentSize := 64 |} 100 200
                       {| SupportsPartialEncoding := true; rsMinPieces := 2 |})
                    4096 eq_refl ltac:(simpl; lia) ltac:(simpl; lia)
                    ltac:(lia) ltac:(exists 64; reflexivity) ltac:(simpl; lia)
                    ltac:(lia) ltac:(lia) ltac:(simpl; lia))
      as (so & sl & Heq & _ & _ & _ & _ & Hin & _).
    exists so, sl. split; [exact Heq|exact Hin].
Defined.

End RecoveryFacts.

(** * Facts about the download queue of a worker *)
Section WorkerQueueFacts.
Import WorkerQueue.
Context {chunk : Type}.

Implicit Types (h : history chunk) (w : queue chunk) (ops : list (op chunk)).

Lemma removedBy_RemoveWorker (cs : list chunk) :
  removedBy (RemoveWorker <$> cs) = cs.
Proof. induction cs as [|c cs IH]; [done|]. cbn. f_equal. exact IH. Qed.

Lemma queueInv_step h o : queueInv h -> queueInv (stepQueue h o).
Proof.
  intros (Hq & Hlive & Hdead). unfold queueInv.
  destruct o as [udc| |]; unfold stepQueue.
  - unfold managedQueueDownloadChunk.
    destruct (downloadTerminated (current h)) eqn:Hterm; cbn.
    + rewrite Hterm. split; [|split; [done|exact Hdead]].
      rewrite Hq, (Hdead eq_refl). by rewrite !app_nil_r, <- !app_assoc.
    + rewrite ?Hterm. split; [|split; [|done]].
      * rewrite Hq, app_nil_r. by rewrite <- !app_assoc.
      * intros _. by rewrite (Hlive eq_refl).
  - unfold managedNextDownloadChunk.
    destruct (downloadChunks (current h)) as [|c rest] eqn:Hc; cbn.
    + rewrite Hc. split; [|split; [exact Hlive|done]].
      by rewrite Hq, !app_nil_r.
    + destruct (downloadTerminated (current h)) eqn:Hterm.
      { by specialize (Hdead eq_refl). }
      split; [|split; [exact Hlive|done]].
      rewrite Hq, (Hlive eq_refl). cbn. by rewrite <- app_assoc.
  - unfold managedKillDownloading. cbn. split; [|split; done].
    rewrite Hq, removedBy_RemoveWorker. by rewrite app_nil_r.
Qed.

Lemma queueInv_run ops : forall h, queueInv h -> queueInv (runQueue ops h).
Proof.
  induction ops as [|o ops IH]; intros h Hh; [done|].
  apply IH. by apply queueInv_step.
Qed.

(** X4: whatever calls of [managedQueueDownloadChunk],
    [managedNextDownloadChunk] and [managedKillDownloading] are made on a new
    worker, the chunks that were queued are, in the order of their arrival,
    those [managedNextDownloadChunk] returned, then those on which
    [managedRemoveWorker] was called, then those still in the queue: no chunk
    is lost, handed out twice or removed twice, and the queue is first in,
    first out.  No chunk is removed before the worker is killed, and none
    stays in the queue afterwards. *)
Theorem worker_queue_conservation ops :
  let h := runQueue ops (startOf (@newQueue chunk)) in
  queued h = returned h ++ removed h ++ downloadChunks (current h)
  /\ (downloadTerminated (current h) = false -> removed h = [])
  /\ (downloadTerminated (current h) = true -> downloadChunks (current h) = []).
Proof.
  apply queueInv_run. repeat split; done.
Qed.

Lemma terminated_step h o :
  downloadTerminated (current h) = true ->
  downloadChunks (current h) = [] ->
  returned h = [] -> removed h = queued h ->
  let h' := stepQueue h o in
  downloadTerminated (current h') = true
  /\ downloadChunks (current h') = []
  /\ returned h' = [] /\ removed h' = queued h'.
Proof.
  intros Hterm Hc Hret Hrem. destruct o as [udc| |]; unfold stepQueue.
  - unfold managedQueueDownloadChunk. rewrite Hterm. cbn.
    by rewrite Hrem.
  - unfold managedNextDownloadChunk. rewrite Hc. cbn.
    by rewrite Hret.
  - unfold managedKillDownloading. rewrite Hc. cbn.
    by rewrite app_nil_r.
Qed.

(** X5: [managedKillDownloading] calls [managedRemoveWorker] once on each
    chunk of the queue, in the order of the queue, and empties it.  From then
    on, whatever calls follow, [managedNextDownloadChunk] returns nil, and
    each chunk passed to [managedQueueDownloadChunk] is not queued but has
    [managedRemoveWorker] called on it at once. *)
Theorem killed_worker_takes_no_work w ops :
  let '(w0, evs) := managedKillDownloading w in
  let h := runQueue ops (startOf w0) in
  evs = RemoveWorker <$> downloadChunks w
  /\ downloadTerminated (current h) = true
  /\ downloadChunks (current h) = []
  /\ returned h = []
  /\ removed h = queued h.
Proof.
  unfold managedKillDownloading. cbn zeta. split; [done|].
  set (h0 := startOf _).
  assert (Hinv : downloadTerminated (current h0) = true
                 /\ downloadChunks (current h0) = []
                 /\ returned h0 = [] /\ removed h0 = queued h0) by done.
  clearbody h0. revert h0 Hinv.
  induction ops as [|o ops IH]; intros h0 (Ht & Hc & Hr & Hq); [done|].
  apply IH. by apply terminated_step.
Qed.

End WorkerQueueFacts.

(** * Facts about the download history *)
Section HistoryFacts.
Import Download History.

Implicit Types (h : list historyDownload) (d : historyDownload).

Lemma withinTimespan_spec after before t :
  withinTimespan after before t = true <-> after <= t <= before.
Proof. unfold withinTimespan. lia. Qed.

Lemma outsideTimespan_filter after before h :
  outsideTimespan after before h
  = List.filter (fun d => negb (withinTimespan after before (staticStartTime d))) h.
Proof.
  unfold outsideTimespan.
  enough (forall acc,
    foldl (fun filtered d =>
             if negb (withinTimespan after before (staticStartTime d))
             then filtered ++ [d] else filtered) acc h
    = acc ++ List.filter
               (fun d => negb (withinTimespan after before (staticStartTime d))) h)
    as H by apply (H []).
  induction h as [|d h IH]; intros acc; cbn; [by rewrite app_nil_r|].
  rewrite IH. destruct (negb _); [|done]. by rewrite <- app_assoc.
Qed.

Lemma filter_all_within after before h :
  Forall (fun d => after <= staticStartTime d <= before) h ->
  List.filter (fun d => negb (withinTimespan after before (staticStartTime d))) h = [].
Proof.
  induction 1 as [|d h Hd _ IH]; cbn; [done|].
  apply withinTimespan_spec in Hd. by rewrite Hd.
Qed.

(** X6: when the renter is up and [after] is not later than [before],
    [ClearDownloadHistory] returns no error and removes from the history
    exactly the downloads whose start time lies between [after] and [before],
    both ends included; the other downloads stay, in their order.  (Start
    times are taken to lie between the zero time and [types.EndOfTime], as
    those of [time.Now()] do.) *)
Theorem ClearDownloadHistory_removes_window EndOfTime h after before :
  after <= before ->
  Forall (fun d => zeroTime <= staticStartTime d <= EndOfTime) h ->
  ClearDownloadHistory true EndOfTime h after before
  = (None,
     List.filter (fun d => negb (withinTimespan after before (staticStartTime d))) h)
  /\ (forall d,
        d ∈ (ClearDownloadHistory true EndOfTime h after before).2
        <-> d ∈ h /\ ~ (after <= staticStartTime d <= before)).
Proof.
  intros Hord Hrange.
  assert (Heq : ClearDownloadHistory true EndOfTime h after before
    = (None,
       List.filter (fun d => negb (withinTimespan after before (staticStartTime d))) h)).
  { unfold ClearDownloadHistory. cbn [negb].
    destruct h as [|d0 h0]; [done|].
    set (h := d0 :: h0) in *.
    replace (List.length h =? 0)%nat with false by done.
    destruct (before <? after) eqn:Hba; [lia|].
    destruct ((before =? EndOfTime) && (after =? zeroTime)) eqn:Hall.
    - apply andb_true_iff in Hall as [Hb Ha].
      apply Z.eqb_eq in Hb, Ha. subst before after.
      by rewrite filter_all_within.
    - by rewrite outsideTimespan_filter. }
  split; [exact Heq|].
  intros d. rewrite Heq. cbn [snd].
  rewrite list_elem_of_In, filter_In, <- list_elem_of_In.
  rewrite negb_true_iff, <- not_true_iff_false, withinTimespan_spec. done.
Qed.

(** X6, witness: of three downloads started at the times 10, 20 and 30, the
    window from 15 to 25 removes the second. *)
Lemma ClearDownloadHistory_removes_window_witness :
  ClearDownloadHistory true (2 ^ 63 - 1) [startedAt 10; startedAt 20; startedAt 30] 15 25
  = (None, [startedAt 10; startedAt 30]).
Proof.
  apply (ClearDownloadHistory_removes_window (2 ^ 63 - 1)
           [startedAt 10; startedAt 20; startedAt 30] 15 25); [lia|].
  repeat constructor; cbn; unfold zeroTime; lia.
Defined.

(** X7: [ClearDownloadHistory] returns an error in two cases only, when the
    renter is shutting down and when [before] is earlier than [after] while
    the history is not empty, and then it leaves the history as it is; on an
    empty history it returns nil whatever the timestamps.  Calling it a
    second time with the same timestamps changes nothing more. *)
Theorem ClearDownloadHistory_errors tgAdd EndOfTime h after before :
  let '(e, h') := ClearDownloadHistory tgAdd EndOfTime h after before in
  (e <> None <-> tgAdd = false \/ (h <> [] /\ before < after))
  /\ (e <> None -> h' = h)
  /\ (ClearDownloadHistory tgAdd EndOfTime h' after before).2 = h'.
Proof.
  unfold ClearDownloadHistory.
  destruct tgAdd; cbn [negb].
  2:{ split; [|split]; [|done|done]. split; [by left|done]. }
  destruct h as [|d0 h0].
  { cbn. split; [|split]; [|done|done].
    split; [done|]. intros [|[]]; done. }
  set (h := d0 :: h0) in *.
  replace (List.length h =? 0)%nat with false by done.
  destruct (before <? after) eqn:Hba.
  { split; [|split]; [|done|].
    - split; [|done]. intros _. right. split; [done|lia].
    - cbn [snd]. by replace (List.length h =? 0)%nat with false by done. }
  destruct ((before =? EndOfTime) && (after =? zeroTime)) eqn:Hall.
  { split; [|split]; [|done|done].
    split; [done|]. intros [|[]]; [done|lia]. }
  split; [|split]; [|done|].
  { split; [done|]. intros [|[]]; [done|lia]. }
  destruct (List.length (outsideTimespan after before h) =? 0)%nat; [done|].
  cbn [snd]. rewrite !outsideTimespan_filter.
  induction h as [|d h' IH]; [done|]. cbn.
  destruct (negb (withinTimespan after before (staticStartTime d))) eqn:Hd; [|done].
  cbn. rewrite Hd. by f_equal.
Qed.

Lemma DownloadHistory_rev h :
  DownloadHistory h = Some (reverse (downloadInfo <$> h)).
Proof.
  unfold DownloadHistory.
  apply mapM_Some. apply Forall2_same_length_lookup_2.
  - by rewrite length_seq, length_reverse, length_fmap.
  - intros i n info Hn Hinfo.
    apply lookup_seq in Hn as [-> Hi]. cbn.
    rewrite reverse_lookup in Hinfo.
    2:{ apply lookup_lt_Some in Hinfo. by rewrite length_reverse in Hinfo. }
    rewrite length_fmap in Hinfo. rewrite list_lookup_fmap in Hinfo.
    replace (List.length h - i - 1)%nat with (List.length h - S i)%nat by lia.
    exact Hinfo.
Qed.

(** X8: [DownloadHistory] never fails and lists every download of the
    history once, the most recent one first: it is the history in reverse,
    so the download that was appended last comes out first. *)
Theorem DownloadHistory_most_recent_first h d :
  DownloadHistory h = Some (reverse (downloadInfo <$> h))
  /\ DownloadHistory (h ++ [d])
     = Some (downloadInfo d :: reverse (downloadInfo <$> h)).
Proof.
  split; [apply DownloadHistory_rev|].
  rewrite DownloadHistory_rev, fmap_app, reverse_app. done.
Qed.

End HistoryFacts.

(** * Facts about the complete functions of a download *)
Section CompletionFacts.
Import Download Completion.

(** What the calls keep true of a download. *)
Lemma stepCall_inv (fs : list completeFunc) d c :
  (executed d).*1 ++ downloadCompleteFuncs d = fs ->
  (complete d = true -> downloadCompleteFuncs d = []) ->
  (complete d = false -> executed d = [] /\ err d = None) ->
  Forall (fun fe => fe.2 = err d) (executed d) ->
  let d' := stepCall d c in
  (executed d').*1 ++ downloadCompleteFuncs d' = fs ++ registered [c]
  /\ (complete d' = true -> downloadCompleteFuncs d' = [])
  /\ (complete d' = false -> executed d' = [] /\ err d' = None)
  /\ Forall (fun fe => fe.2 = err d') (executed d').
Proof.
  intros Hfs Hdone Hrun Herr.
  assert (Hmark : forall d0,
    (executed d0).*1 ++ downloadCompleteFuncs d0 = fs ->
    Forall (fun fe => fe.2 = err d0) (executed d0) ->
    let d' := markComplete d0 in
    (executed d').*1 ++ downloadCompleteFuncs d' = fs ++ []
    /\ (complete d' = true -> downloadCompleteFuncs d' = [])
    /\ (complete d' = false -> executed d' = [] /\ err d' = None)
    /\ Forall (fun fe => fe.2 = err d') (executed d')).
  { intros d0 Hfs0 Herr0. cbn. rewrite !app_nil_r.
    split; [|split; [done|split; [done|]]].
    - rewrite fmap_app, <- list_fmap_compose.
      rewrite <- Hfs0. f_equal. by rewrite list_fmap_id.
    - apply Forall_app. split; [exact Herr0|].
      apply Forall_fmap. by apply Forall_true. }
  destruct c as [f|e| |]; cbn [stepCall registered omap].
  - unfold OnComplete, onComplete. cbn.
    destruct (complete d) eqn:Hc.
    + rewrite (Hdone eq_refl) in *. rewrite app_nil_r in *.
      split; [|split; [done|split; [done|]]].
      * rewrite fmap_app. cbn. by rewrite Hfs.
      * apply Forall_app. split; [done|]. by repeat constructor.
    + destruct (Hrun eq_refl) as [Hex He].
      split; [|split; [done|split; [done|done]]].
      by rewrite app_assoc, Hfs.
  - destruct (complete d) eqn:Hc.
    + destruct (err d) as [e0|] eqn:He.
      * rewrite managedFail_failed by (rewrite ?He; done).
        rewrite app_nil_r, Hc, He. done.
      * rewrite managedFail_succeeded by done. cbn.
        rewrite app_nil_r, Hc, He. done.
    + rewrite managedFail_running by done.
      destruct (Hrun eq_refl) as [Hex He].
      apply Hmark; cbn; [done|]. rewrite Hex. constructor.
  - unfold managedCancel. destruct (complete d) eqn:Hc.
    + destruct (err d) as [e0|] eqn:He.
      * rewrite managedFail_failed by (rewrite ?He; done).
        rewrite app_nil_r, Hc, He. done.
      * rewrite managedFail_succeeded by done. cbn.
        rewrite app_nil_r, Hc, He. done.
    + rewrite managedFail_running by done.
      destruct (Hrun eq_refl) as [Hex He].
      apply Hmark; cbn; [done|]. rewrite Hex. constructor.
  - by apply Hmark.
Qed.

Lemma registered_app cs1 cs2 : registered (cs1 ++ cs2) = registered cs1 ++ registered cs2.
Proof. unfold registered. apply omap_app. Qed.

Lemma runCalls_inv cs : forall fs d,
  (executed d).*1 ++ downloadCompleteFuncs d = fs ->
  (complete d = true -> downloadCompleteFuncs d = []) ->
  (complete d = false -> executed d = [] /\ err d = None) ->
  Forall (fun fe => fe.2 = err d) (executed d) ->
  let d' := runCalls cs d in
  (executed d').*1 ++ downloadCompleteFuncs d' = fs ++ registered cs
  /\ (complete d' = true -> downloadCompleteFuncs d' = [])
  /\ (complete d' = false -> executed d' = [] /\ err d' = None)
  /\ Forall (fun fe => fe.2 = err d') (executed d').
Proof.
  induction cs as [|c cs IH]; intros fs d Hfs Hdone Hrun Herr.
  - cbn. by rewrite app_nil_r.
  - destruct (stepCall_inv fs d c Hfs Hdone Hrun Herr) as (H1 & H2 & H3 & H4).
    destruct (IH _ _ H1 H2 H3 H4) as (H1' & H2' & H3' & H4').
    change (runCalls (c :: cs) d) with (runCalls cs (stepCall d c)).
    cbv zeta in *. split; [|done].
    rewrite H1'. rewrite <- app_assoc. f_equal.
    change (c :: cs) with ([c] ++ cs). by rewrite registered_app.
Qed.

(** X9: whatever calls of [OnComplete], [managedFail], [managedCancel] and
    [markComplete] are made on a new download, in a release build (where
    [build.Critical] logs and goes on): the complete functions that have run,
    followed by those still waiting, are the functions that were registered,
    in the order of their registration, so none runs twice and none is
    dropped; none has run while the download is not complete and none waits
    once it is; and every one that ran was given the error the download ends
    with. *)
Theorem complete_funcs_run_once d cs :
  created d ->
  let d' := runCalls cs d in
  (executed d').*1 ++ downloadCompleteFuncs d' = registered cs
  /\ (complete d' = true -> downloadCompleteFuncs d' = [])
  /\ (complete d' = false -> executed d' = [])
  /\ Forall (fun fe => fe.2 = err d') (executed d').
Proof.
  intros (Hc & He & Hf & Hx).
  destruct (runCalls_inv cs [] d) as (H1 & H2 & H3 & H4).
  - by rewrite Hf, Hx.
  - by rewrite Hc.
  - done.
  - rewrite Hx. constructor.
  - cbn. split; [exact H1|]. split; [exact H2|]. split; [|exact H4].
    intros H. by destruct (H3 H).
Qed.

(** X9, witness: two functions are registered, the download is cancelled, a
    third function is registered and the download is cancelled again: the
    three functions ran once each, with the error of the cancellation. *)
Lemma complete_funcs_run_once_witness :
  let cs := [CallOnComplete SetEndTime; CallOnComplete CloseDestination; CallCancel;
             CallOnComplete (Callback "late"); CallCancel] in
  (executed (runCalls cs createdDownload)).*1
    = [SetEndTime; CloseDestination; Callback "late"]
  /\ Forall (fun fe => fe.2 = Some ErrDownloadCancelled)
            (executed (runCalls cs createdDownload)).
Proof.
  intros cs.
  destruct (complete_funcs_run_once createdDownload cs) as (H1 & H2 & _ & H4).
  { by repeat split. }
  split.
  - rewrite (H2 eq_refl), app_nil_r in H1. exact H1.
  - exact H4.
Defined.

Lemma managedNewDownload_funcs params d chunks :
  managedNewDownload params = Ok (d, chunks) ->
  err d = None
  /\ ((complete d = true /\ executed d = [(SetEndTime, None)]
       /\ downloadCompleteFuncs d = [])
      \/ (complete d = false /\ executed d = []
          /\ downloadCompleteFuncs d = [SetEndTime])).
Proof.
  unfold managedNewDownload, ChunkIndexByOffset.
  destruct (file params) as [s|]; [|done].
  repeat (case_match; try done); intros [= <- <-]; cbn; auto.
Qed.

Lemma managedDownload_inner env p d chunks :
  managedDownload env p = Ok (d, chunks) ->
  exists params d0,
    managedNewDownload params = Ok (d0, chunks)
    /\ d = onComplete d0 CloseDestination.
Proof.
  unfold managedDownload. intros Hmd.
  repeat (case_match; try done); simplify_eq; eauto.
Qed.

(** X10: when [DownloadAsync] succeeds with a callback [f], the download has
    three complete functions, in this order: the one that sets the end time,
    the one that closes the destination, and [f].  If the download is
    complete at once (nothing to fetch), the three have run with a nil
    error.  Otherwise the three wait, and the cancel function that
    [DownloadAsync] returned completes the download with
    [ErrDownloadCancelled] and runs each of the three once, in order, with
    that error. *)
Theorem DownloadAsync_cancel_runs_callbacks env p f d chunks :
  DownloadAsync env p (Some f) = Ok (d, chunks) ->
  (complete d = true /\ err d = None
   /\ executed d = [(SetEndTime, None); (CloseDestination, None); (f, None)]
   /\ downloadCompleteFuncs d = [])
  \/ (complete d = false /\ executed d = []
      /\ downloadCompleteFuncs d = [SetEndTime; CloseDestination; f]
      /\ complete (managedCancel d) = true
      /\ err (managedCancel d) = Some ErrDownloadCancelled
      /\ executed (managedCancel d)
         = [(SetEndTime, Some ErrDownloadCancelled);
            (CloseDestination, Some ErrDownloadCancelled);
            (f, Some ErrDownloadCancelled)]
      /\ downloadCompleteFuncs (managedCancel d) = []).
Proof.
  unfold DownloadAsync. intros H.
  destruct (tgAdd env); [|done]. cbn [negb] in H.
  destruct (managedDownload env p) as [[d1 chunks1]| |] eqn:Hmd; [|done|done].
  injection H as <- <-.
  destruct (managedDownload_inner _ _ _ _ Hmd) as (params & d0 & Hnew & ->).
  destruct (managedNewDownload_funcs _ _ _ Hnew)
    as (He & [(Hc & Hx & Hf)|(Hc & Hx & Hf)]).
  - left. cbn. rewrite Hc, He, Hx, Hf. done.
  - right. unfold managedCancel.
    rewrite managedFail_running by (cbn; by rewrite Hc).
    cbn. rewrite Hc, Hx, Hf. done.
Qed.

(** X10, witness: an asynchronous download of 60 bytes with the callback
    "done" is cancelled. *)
Lemma DownloadAsync_cancel_runs_callbacks_witness :
  exists d chunks,
    DownloadAsync (oneFileEnv "file" 100 (exampleSnapshot 100 3))
                  (asyncParameters "file") (Some (Callback "done")) = Ok (d, chunks)
    /\ (executed (managedCancel d)).*1 = [SetEndTime; CloseDestination; Callback "done"].
Proof.
  destruct (DownloadAsync (oneFileEnv "file" 100 (exampleSnapshot 100 3))
              (asyncParameters "file") (Some (Callback "done")))
    as [[d chunks]| |] eqn:Hda; [|by vm_compute in Hda..].
  exists d, chunks. split; [done|].
  destruct (DownloadAsync_cancel_runs_callbacks _ _ _ _ _ Hda)
    as [(Hc & _)|(_ & _ & _ & _ & _ & Hx & _)].
  - exfalso. vm_compute in Hda. injection Hda as <- _. discriminate Hc.
  - by rewrite Hx.
Defined.

End CompletionFacts.

(** * Facts about the order of the upload heap *)

Lemma Float_lt_asym x y : Float.lt x y = true -> Float.lt y x = false.
Proof.
  destruct x as [|[]|p], y as [|[]|q]; simpl; try done.
  rewrite Float_Qltb_spec. intros H.
  apply not_true_iff_false. rewrite Float_Qltb_spec.
  intros H'. exact (Qlt_irrefl _ (Qlt_trans _ _ _ H H')).
Qed.

Lemma Float_lt_negtrans x y z :
  y <> Float.NaN ->
  Float.lt x z = true -> Float.lt x y = true \/ Float.lt y z = true.
Proof.
  intros Hy.
  destruct x as [|[]|p], y as [|[]|q], z as [|[]|r]; simpl; try done; auto.
  rewrite !Float_Qltb_spec. intros H.
  destruct (Qlt_le_dec p q) as [|Hle]; [by left|right].
  exact (Qle_lt_trans _ _ _ Hle H).
Qed.

Section HeapOrderFacts.
Import UploadHeap HeapOrder.

Implicit Types (h : uploadChunkHeap) (uh : uploadHeap).

Lemma hasRatio_completion c : hasRatio c -> completion c <> Float.NaN.
Proof.
  unfold hasRatio, completion, Float.div. intros H.
  destruct (UUC.piecesNeeded c); [|done|done].
  destruct (UUC.piecesCompleted c =? 0) eqn:Hz; [|done].
  apply Z.eqb_eq in Hz. destruct H; done.
Qed.

Lemma chunkLess_irrefl c : chunkLess c c = false.
Proof.
  unfold chunkLess. destruct (UUC.stuck c); simpl; apply Float_lt_irrefl.
Qed.

Lemma chunkLess_asym a b : chunkLess a b = true -> chunkLess b a = false.
Proof.
  unfold chunkLess.
  destruct (UUC.stuck a), (UUC.stuck b); simpl; try done; apply Float_lt_asym.
Qed.

Lemma chunkLess_negtrans a b c :
  hasRatio b ->
  chunkLess a c = true -> chunkLess a b = true \/ chunkLess b c = true.
Proof.
  intros Hb%hasRatio_completion. unfold chunkLess.
  destruct (UUC.stuck a), (UUC.stuck b), (UUC.stuck c); simpl; try done; auto;
    by apply Float_lt_negtrans.
Qed.

Lemma Float_lt_trans x y z :
  Float.lt x y = true -> Float.lt y z = true -> Float.lt x z = true.
Proof.
  destruct x as [|[]|p], y as [|[]|q], z as [|[]|r]; simpl; try done.
  rewrite !Float_Qltb_spec. apply Qlt_trans.
Qed.

Lemma chunkLess_trans a b c :
  chunkLess a b = true -> chunkLess b c = true -> chunkLess a c = true.
Proof.
  unfold chunkLess.
  destruct (UUC.stuck a), (UUC.stuck b), (UUC.stuck c); simpl; try done;
    apply Float_lt_trans.
Qed.

(** X21: the order of [Less] is a strict weak order on the chunks that have
    a completion quotient: no chunk is before itself, two chunks are never
    each before the other, the order is transitive, and so is "not before"
    as long as the chunk in the middle has a quotient, which is what
    container/heap needs to hand out a least chunk.  A chunk with 0 of 0
    pieces breaks the last property: [Less] puts it neither before nor after
    any chunk of its class. *)
Theorem Less_strict_weak_order :
  (forall c, chunkLess c c = false)
  /\ (forall a b, chunkLess a b = true -> chunkLess b a = false)
  /\ (forall a b c, chunkLess a b = true -> chunkLess b c = true ->
                    chunkLess a c = true)
  /\ (forall a b c, hasRatio b ->
         chunkLess a b = false -> chunkLess b c = false -> chunkLess a c = false)
  /\ (chunkLess quarterChunk emptyRatioChunk = false
      /\ chunkLess emptyRatioChunk halfChunk = false
      /\ chunkLess quarterChunk halfChunk = true).
Proof.
  split; [exact chunkLess_irrefl|]. split; [exact chunkLess_asym|].
  split; [exact chunkLess_trans|]. split; [|by vm_compute].
  intros a b c Hb Hab Hbc.
  destruct (chunkLess a c) eqn:Hac; [|done].
  destruct (chunkLess_negtrans a b c Hb Hac); congruence.
Qed.

Lemma notAfter_refl c : notAfter c c.
Proof. apply chunkLess_irrefl. Qed.

Lemma notAfter_trans a b c :
  hasRatio b -> notAfter a b -> notAfter b c -> notAfter a c.
Proof.
  unfold notAfter. intros Hb Hab Hbc.
  destruct (chunkLess c a) eqn:Hca; [|done].
  destruct (chunkLess_negtrans c b a Hb Hca) as [H|H]; congruence.
Qed.

Lemma Swap_lookup_l h i j ci cj :
  h !! i = Some ci -> h !! j = Some cj -> Swap h i j !! i = Some cj.
Proof.
  intros Hi Hj. unfold Swap. rewrite Hi, Hj.
  apply list_lookup_insert_eq. rewrite length_insert.
  by apply lookup_lt_Some in Hi.
Qed.

Lemma Swap_lookup_r h i j ci cj :
  i <> j -> h !! i = Some ci -> h !! j = Some cj -> Swap h i j !! j = Some ci.
Proof.
  intros Hne Hi Hj. unfold Swap. rewrite Hi, Hj.
  rewrite list_lookup_insert_ne by done.
  apply list_lookup_insert_eq. by apply lookup_lt_Some in Hj.
Qed.

(** The child [down] picks is not after the other child. *)
Lemma pickChild_spec h i n :
  (2 * i + 1 < n)%nat -> (n <= List.length h)%nat ->
  let j := pickChild h i n in
  (j = 2 * i + 1 \/ j = 2 * i + 2)%nat
  /\ exists cj, h !! j = Some cj
     /\ forall c cc, (c < n)%nat -> (c = 2 * i + 1 \/ c = 2 * i + 2)%nat ->
                     h !! c = Some cc -> notAfter cj cc.
Proof.
  intros Hn Hlen. unfold pickChild. cbv zeta.
  destruct (lookup_lt_is_Some_2 h (2 * i + 1)%nat ltac:(lia)) as [c1 H1].
  destruct (2 * i + 1 + 1 <? n)%nat eqn:H2n; cbn [andb].
  - apply Nat.ltb_lt in H2n.
    destruct (lookup_lt_is_Some_2 h (2 * i + 1 + 1)%nat ltac:(lia)) as [c2 H2].
    unfold Less. rewrite H1, H2.
    destruct (chunkLess c2 c1) eqn:Hless.
    + split; [lia|]. exists c2. split; [done|].
      intros c cc Hc [->| ->] Hcc.
      * rewrite H1 in Hcc. injection Hcc as <-. by apply chunkLess_asym.
      * replace (2 * i + 2)%nat with (2 * i + 1 + 1)%nat in Hcc by lia.
        rewrite H2 in Hcc. injection Hcc as <-. apply notAfter_refl.
    + split; [lia|]. exists c1. split; [done|].
      intros c cc Hc [->| ->] Hcc.
      * rewrite H1 in Hcc. injection Hcc as <-. apply notAfter_refl.
      * replace (2 * i + 2)%nat with (2 * i + 1 + 1)%nat in Hcc by lia.
        rewrite H2 in Hcc. by injection Hcc as <-.
  - apply Nat.ltb_ge in H2n.
    split; [lia|]. exists c1. split; [done|].
    intros c cc Hc [->| ->] Hcc; [|lia].
    rewrite H1 in Hcc. injection Hcc as <-. apply notAfter_refl.
Qed.

(** [down] restores the invariant when only the element it starts from is
    out of place. *)
Lemma down_heapOrdered fuel : forall h i n,
  (n <= List.length h)%nat -> (n - i <= fuel)%nat ->
  Forall hasRatio h ->
  orderedExcept h n i -> heapOrdered (down fuel h i n) n.
Proof.
  induction fuel as [|fuel IH]; intros h i n Hlen Hfuel Hratio [Hother Hgrand].
  - intros p c cp cc Hc Hpc Hp Hcc. simpl in *.
    apply (Hother p c); try done. lia.
  - rewrite down_S.
    destruct (n <=? 2 * i + 1)%nat eqn:Hn.
    { apply Nat.leb_le in Hn.
      intros p c cp cc Hc Hpc Hp Hcc. apply (Hother p c); try done. lia. }
    apply Nat.leb_gt in Hn.
    assert (Hi : (i < List.length h)%nat) by lia.
    destruct (lookup_lt_is_Some_2 h i Hi) as [ci Hci].
    destruct (pickChild_spec h i n Hn Hlen) as (Hj & cj & Hcj & Hmin).
    pose proof (pickChild_bounds h i n Hn) as Hjb.
    set (j := pickChild h i n) in *.
    assert (Hrj : hasRatio cj).
    { rewrite Forall_lookup in Hratio. by apply (Hratio j). }
    unfold Less at 1. rewrite Hcj, Hci.
    destruct (chunkLess cj ci) eqn:Hless; simpl.
    + (* the element moves down to [j] *)
      apply IH.
      * by rewrite Swap_length.
      * lia.
      * by rewrite Swap_Permutation.
      * split.
        -- intros p c cp cc Hc Hpc Hpj Hp Hcc.
           destruct (decide (p = i)) as [->|Hpi].
           ++ rewrite (Swap_lookup_l h i j ci cj) in Hp by done.
              injection Hp as <-.
              destruct (decide (c = j)) as [->|Hcj'].
              ** rewrite (Swap_lookup_r h i j ci cj) in Hcc by (done || lia).
                 injection Hcc as <-. by apply chunkLess_asym.
              ** rewrite Swap_lookup_other in Hcc by (done || lia).
                 by apply (Hmin c).
           ++ destruct (decide (c = i)) as [->|Hci'].
              ** rewrite (Swap_lookup_l h i j ci cj) in Hcc by done.
                 injection Hcc as <-.
                 rewrite Swap_lookup_other in Hp by done.
                 apply (Hgrand p j); try done. lia.
              ** assert (c <> j) by lia.
                 rewrite Swap_lookup_other in Hp by done.
                 rewrite Swap_lookup_other in Hcc by done.
                 by apply (Hother p c).
        -- intros g c cg cc Hg Hc Hcj' Hgl Hcc.
           assert (g = i) as -> by lia.
           rewrite (Swap_lookup_l h i j ci cj) in Hgl by done.
           injection Hgl as <-.
           rewrite Swap_lookup_other in Hcc by lia.
           apply (Hother j c); try done. lia.
    + (* the element stays *)
      intros p c cp cc Hc Hpc Hp Hcc.
      destruct (decide (p = i)) as [->|Hpi]; [|by apply (Hother p c)].
      rewrite Hci in Hp. injection Hp as <-.
      apply (notAfter_trans _ cj); [done|done|].
      by apply (Hmin c).
Qed.

(** The root of an ordered heap is not after any of its elements. *)
Lemma heapOrdered_root h c0 :
  Forall hasRatio h -> heapOrdered h (List.length h) ->
  h !! 0%nat = Some c0 ->
  forall k c, h !! k = Some c -> notAfter c0 c.
Proof.
  intros Hratio Hord H0 k.
  induction (lt_wf k) as [k _ IH]. intros c Hk.
  destruct k as [|k].
  - rewrite H0 in Hk. injection Hk as <-. apply notAfter_refl.
  - set (p := (k / 2)%nat).
    assert (Hp : (S k = 2 * p + 1 \/ S k = 2 * p + 2)%nat).
    { subst p. pose proof (Nat.div_mod_eq k 2).
      pose proof (Nat.mod_upper_bound k 2). lia. }
    assert (Hpk : (p < S k)%nat) by lia.
    pose proof (lookup_lt_Some _ _ _ Hk) as Hklen.
    destruct (lookup_lt_is_Some_2 h p ltac:(lia)) as [cp Hcp].
    apply (notAfter_trans _ cp).
    + rewrite Forall_lookup in Hratio. by apply (Hratio p).
    + by apply (IH p).
    + by apply (Hord p (S k)).
Qed.

Lemma heapPop_heapOrdered c t :
  Forall hasRatio (c :: t) ->
  heapOrdered (c :: t) (List.length (c :: t)) ->
  exists h', heapPop (c :: t) = (Some c, h') /\ h' ≡ₚ t
             /\ heapOrdered h' (List.length h').
Proof.
  intros Hratio Hord.
  destruct (heapPop_cons c t) as (h' & Hpop & Hperm).
  exists h'. split; [done|]. split; [done|].
  unfold heapPop in Hpop.
  replace (List.length (c :: t) - 1)%nat with (List.length t) in Hpop by (simpl; lia).
  set (n := List.length t) in *.
  set (h1 := Swap (c :: t) 0 n) in *.
  set (h2 := down n h1 0 n) in *.
  assert (Hlen1 : List.length h1 = S n).
  { subst h1. by rewrite Swap_length. }
  assert (Hlen2 : List.length h2 = S n).
  { subst h2. by rewrite down_length. }
  assert (Hh' : h' = take n h2).
  { unfold Pop in Hpop. rewrite Hlen2 in Hpop.
    replace (S n - 1)%nat with n in Hpop by lia. by injection Hpop as _ <-. }
  assert (Hord2 : heapOrdered h2 n).
  { subst h2. apply down_heapOrdered.
    - lia.
    - lia.
    - subst h1. by rewrite Swap_Permutation.
    - split.
      + intros p k cp ck Hk Hpk Hp0 Hp Hck.
        subst h1. rewrite Swap_lookup_other in Hp by lia.
        rewrite Swap_lookup_other in Hck by lia.
        apply (Hord p k); try done. simpl. lia.
      + intros g k cg ck Hg. lia. }
  rewrite Hh'. rewrite length_take, Hlen2.
  replace (n `min` S n)%nat with n by lia.
  intros p k cp ck Hk Hpk Hp Hck.
  rewrite lookup_take_lt in Hp by lia.
  rewrite lookup_take_lt in Hck by lia.
  by apply (Hord2 p k).
Qed.

Lemma managedPop_ordered uh c t :
  heap uh = c :: t ->
  Forall hasRatio (heap uh) ->
  heapOrdered (heap uh) (List.length (heap uh)) ->
  exists h', managedPop uh =
    (Some c, {| heap := h';
                heapChunks := heapChunks uh ∖ {[UUC.id c]};
                repairingChunks := repairingChunks uh |})
    /\ h' ≡ₚ t /\ heapOrdered h' (List.length h')
    /\ forall x, x ∈ heap uh -> notAfter c x.
Proof.
  intros Hh Hratio Hord. rewrite Hh in Hratio, Hord.
  destruct (heapPop_heapOrdered c t Hratio Hord) as (h' & Hpop & Hperm & Hord').
  exists h'. split; [|split; [done|split; [done|]]].
  - unfold managedPop. rewrite Hh, Hpop. done.
  - intros x [k Hk]%list_elem_of_lookup. rewrite Hh in Hk.
    by apply (heapOrdered_root (c :: t) c Hratio Hord eq_refl k).
Qed.

(** X11: on a heap whose slice satisfies the invariant of container/heap and
    whose chunks all have a completion quotient, [managedPop] returns a chunk
    that [Less] puts after none of the chunks of the heap, the other chunks
    stay in the heap, and the slice satisfies the invariant again. *)
Theorem managedPop_returns_first uh :
  Forall hasRatio (heap uh) ->
  heapOrdered (heap uh) (List.length (heap uh)) ->
  heap uh <> [] ->
  exists c uh',
    managedPop uh = (Some c, uh')
    /\ (forall x, x ∈ heap uh -> chunkLess x c = false)
    /\ heap uh ≡ₚ c :: heap uh'
    /\ Forall hasRatio (heap uh')
    /\ heapOrdered (heap uh') (List.length (heap uh')).
Proof.
  intros Hratio Hord Hne.
  destruct (heap uh) as [|c t] eqn:Hh; [done|].
  rewrite <- Hh in Hratio, Hord.
  destruct (managedPop_ordered uh c t Hh Hratio Hord)
    as (h' & Hpop & Hperm & Hord' & Hmin).
  eexists c, _. split; [exact Hpop|]. cbn [heap].
  split; [|split; [|split]].
  - intros x Hx. apply Hmin. by rewrite Hh.
  - by rewrite Hperm.
  - rewrite Hperm. rewrite Hh in Hratio. by inversion Hratio.
  - done.
Qed.

Lemma popN_ordered k : forall uh,
  Forall hasRatio (heap uh) ->
  heapOrdered (heap uh) (List.length (heap uh)) ->
  StronglySorted notAfter (popN k uh).1
  /\ (popN k uh).1 ++ heap (popN k uh).2 ≡ₚ heap uh
  /\ List.length (popN k uh).1 = (k `min` List.length (heap uh))%nat.
Proof.
  induction k as [|k IH]; intros uh Hratio Hord.
  - cbn. split; [constructor|]. split; [done|lia].
  - cbn [popN].
    destruct (heap uh) as [|c t] eqn:Hh.
    + rewrite managedPop_nil by done. cbn. rewrite Hh.
      split; [constructor|]. split; [done|]. cbn. lia.
    + rewrite <- Hh in Hratio, Hord.
      destruct (managedPop_ordered uh c t Hh Hratio Hord)
        as (h' & Hpop & Hperm & Hord' & Hmin).
      rewrite Hpop.
      set (uh' := {| heap := h' |}).
      assert (Hratio' : Forall hasRatio (heap uh')).
      { cbn. rewrite Hperm. rewrite Hh in Hratio. by inversion Hratio. }
      destruct (IH uh' Hratio' Hord') as (Hs & Hp & Hl).
      destruct (popN k uh') as [cs uh''] eqn:HpopN. cbn in *.
      split; [|split].
      * constructor; [done|].
        apply Forall_forall. intros x Hx. apply Hmin.
        rewrite Hh. apply elem_of_cons. right.
        rewrite <- Hperm, <- Hp. apply elem_of_app. by left.
      * by rewrite Hp, Hperm.
      * rewrite Hl. rewrite Hperm. lia.
Qed.

Lemma sorted_heapOrdered cs :
  StronglySorted notAfter cs -> heapOrdered cs (List.length cs).
Proof.
  intros Hs i j ci cj Hj Hij Hi Hcj.
  assert (Hlt : (i < j)%nat) by lia.
  revert i j ci cj Hj Hij Hi Hcj Hlt.
  induction Hs as [|c cs Hs IH Hall]; intros i j ci cj Hj _ Hi Hcj Hlt; [done|].
  destruct j as [|j]; [lia|]. cbn in Hcj.
  destruct i as [|i]; cbn in Hi.
  - injection Hi as <-. rewrite Forall_forall in Hall.
    apply Hall. by eapply list_elem_of_lookup_2.
  - clear Hall.
    assert (Hgen : forall i j ci cj, (i < j)%nat ->
              cs !! i = Some ci -> cs !! j = Some cj -> notAfter ci cj).
    { clear -Hs. induction Hs as [|c cs Hs IH Hall]; intros i j ci cj Hlt Hi Hj; [done|].
      destruct j as [|j]; [lia|]. destruct i as [|i]; cbn in *.
      - injection Hi as <-. rewrite Forall_forall in Hall.
        apply Hall. by eapply list_elem_of_lookup_2.
      - apply (IH i j); [lia|done|done]. }
    apply (Hgen i j); [lia|done|done].
Qed.

Lemma orderingScenario_hasRatio : Forall hasRatio orderingScenario.
Proof.
  unfold orderingScenario.
  repeat (constructor; [left; vm_compute; discriminate|]). constructor.
Qed.

Lemma orderingScenario_sorted : StronglySorted notAfter orderingScenario.
Proof. repeat constructor. Qed.

Lemma orderingScenario_heap : heap (pushAll orderingScenario) = orderingScenario.
Proof. vm_compute. reflexivity. Qed.

(** X11, witness: the first pop from the heap of scenario S6 returns a chunk
    that [Less] puts after none of the four. *)
Lemma managedPop_returns_first_witness :
  exists c uh',
    managedPop (pushAll orderingScenario) = (Some c, uh')
    /\ forall x, x ∈ orderingScenario -> chunkLess x c = false.
Proof.
  destruct (managedPop_returns_first (pushAll orderingScenario))
    as (c & uh' & Hpop & Hmin & _).
  - rewrite orderingScenario_heap. exact orderingScenario_hasRatio.
  - rewrite orderingScenario_heap.
    apply sorted_heapOrdered. exact orderingScenario_sorted.
  - rewrite orderingScenario_heap. discriminate.
  - exists c, uh'. split; [exact Hpop|].
    intros x Hx. apply Hmin. by rewrite orderingScenario_heap.
Defined.

(** X12: from a heap whose slice satisfies the invariant of container/heap
    and whose chunks all have a completion quotient, repeated calls of
    [managedPop] return the chunks in the order of [Less]: a chunk that was
    popped earlier is never put after a chunk popped later (stuck chunks come
    before the others, and within a class lower completion comes first).
    [k] calls return [k] chunks, or all chunks if the heap holds fewer, and
    each is a chunk of the heap. *)
Theorem popN_priority_order k uh :
  Forall hasRatio (heap uh) ->
  heapOrdered (heap uh) (List.length (heap uh)) ->
  StronglySorted (fun a b => chunkLess b a = false) (popN k uh).1
  /\ (popN k uh).1 ++ heap (popN k uh).2 ≡ₚ heap uh
  /\ List.length (popN k uh).1 = (k `min` List.length (heap uh))%nat.
Proof. apply popN_ordered. Qed.

(** X12, witness: three pops from the heap of scenario S6. *)
Lemma popN_priority_order_witness :
  StronglySorted (fun a b => chunkLess b a = false)
                 (popN 3 (pushAll orderingScenario)).1
  /\ List.length (popN 3 (pushAll orderingScenario)).1 = 3%nat.
Proof.
  destruct (popN_priority_order 3 (pushAll orderingScenario)) as (Hs & _ & Hl).
  - rewrite orderingScenario_heap. exact orderingScenario_hasRatio.
  - rewrite orderingScenario_heap.
    apply sorted_heapOrdered. exact orderingScenario_sorted.
  - split; [exact Hs|]. rewrite Hl, orderingScenario_heap. reflexivity.
Defined.

Lemma pushAll_distinct cs : forall uh,
  heapInv uh ->
  NoDup (UUC.id <$> cs) ->
  (forall c, c ∈ cs ->
             (UUC.id c ∉ heapChunks uh) /\ (UUC.id c ∉ repairingChunks uh)) ->
  heap (foldl managedPush uh cs) = heap uh ++ cs.
Proof.
  induction cs as [|c cs IH]; intros uh Hinv Hnd Hfresh.
  - cbn. by rewrite app_nil_r.
  - cbn [foldl]. rewrite fmap_cons in Hnd. apply NoDup_cons in Hnd as [Hc Hnd].
    assert (Hpush : managedPush uh c =
                    {| heap := heap uh ++ [c];
                       heapChunks := {[UUC.id c]} ∪ heapChunks uh;
                       repairingChunks := repairingChunks uh |}).
    { apply managedPush_accepted; apply Hfresh; by left. }
    rewrite IH.
    + rewrite Hpush. cbn. by rewrite <- app_assoc.
    + by apply heapInv_managedPush.
    + done.
    + intros c' Hc'. rewrite Hpush. cbn.
      destruct (Hfresh c' ltac:(by right)) as [Hh Hr].
      split; [|done].
      apply not_elem_of_union. split; [|done].
      intros Heq%elem_of_singleton. apply Hc. rewrite <- Heq.
      apply list_elem_of_fmap. by exists c'.
Qed.

(** X13: chunks with distinct ids, each with a completion quotient (not 0
    of 0 pieces), that are pushed into the empty heap in the order of [Less]
    (no chunk is put after one pushed later) are returned by as many calls of
    [managedPop] in the order of [Less] again, each chunk once; scenario S6
    of the specification is an instance. *)
Theorem pushed_in_order_popped_in_order cs :
  Forall hasRatio cs ->
  NoDup (UUC.id <$> cs) ->
  StronglySorted (fun a b => chunkLess b a = false) cs ->
  let popped := (popN (List.length cs) (pushAll cs)).1 in
  popped ≡ₚ cs
  /\ StronglySorted (fun a b => chunkLess b a = false) popped.
Proof.
  intros Hratio Hnd Hs popped.
  assert (Hheap : heap (pushAll cs) = cs).
  { unfold pushAll. rewrite pushAll_distinct.
    - done.
    - apply heapInv_empty.
    - done.
    - intros c _. cbn. set_solver. }
  destruct (popN_ordered (List.length cs) (pushAll cs)) as (Hsorted & Hperm & Hlen).
  - by rewrite Hheap.
  - rewrite Hheap. by apply sorted_heapOrdered.
  - split; [|exact Hsorted].
    rewrite Hheap in Hperm, Hlen. rewrite Nat.min_id in Hlen.
    fold popped in Hperm, Hlen.
    assert (Hnil : heap (popN (List.length cs) (pushAll cs)).2 = []).
    { apply Permutation_length in Hperm. rewrite length_app in Hperm.
      apply nil_length_inv. lia. }
    by rewrite Hnil, app_nil_r in Hperm.
Qed.

(** X13, witness: scenario S6. *)
Lemma pushed_in_order_popped_in_order_witness :
  (popN 4 (pushAll orderingScenario)).1 ≡ₚ orderingScenario
  /\ StronglySorted (fun a b => chunkLess b a = false)
                    (popN 4 (pushAll orderingScenario)).1.
Proof.
  apply (pushed_in_order_popped_in_order orderingScenario).
  - exact orderingScenario_hasRatio.
  - apply (bool_decide_unpack _). vm_compute. reflexivity.
  - exact orderingScenario_sorted.
Defined.

End HeapOrderFacts.

(** * Facts about filling the upload heap *)
Section BuildAndPushFacts.
Import UploadHeap BuildChunks BuildAndPush.

Lemma buildUnfinishedChunks_unfinished r entrys hosts target chunks effs :
  buildUnfinishedChunks r entrys hosts target = Some (chunks, effs) ->
  Forall (fun c => UUC.piecesCompleted c < UUC.piecesNeeded c) chunks.
Proof.
  destruct entrys as [|entry0 rest].
  { intros [= <- <-]. constructor. }
  intros [->|(chunks0 & effs2 & chunks' & _ & _ & ->)]%buildUnfinishedChunks_inv.
  - constructor.
  - apply incompleteChunks_kept.
Qed.

(** X14: [managedBuildAndPushChunks] returns at the first file for which
    [buildUnfinishedChunks] yields no chunk (a file that is fully uploaded,
    or has no chunk of the target kind, or needs more workers than there
    are): the files behind it are not built and none of their chunks is
    pushed, whatever they are. *)
Theorem managedBuildAndPushChunks_stops_at_empty_file
    r copyEntry files1 file files2 hosts target uh effs :
  buildUnfinishedChunks r (copyEntry file) hosts target = Some ([], effs) ->
  managedBuildAndPushChunks r copyEntry (files1 ++ file :: files2) hosts target uh
  = managedBuildAndPushChunks r copyEntry (files1 ++ [file]) hosts target uh.
Proof.
  intros Hfile. revert uh.
  induction files1 as [|f files1 IH]; intros uh; cbn.
  - by rewrite Hfile.
  - destruct (buildUnfinishedChunks r (copyEntry f) hosts target)
      as [[chunks effs1]|]; [|done]. cbn.
    destruct (List.length chunks =? 0)%nat; [done|].
    by rewrite IH.
Qed.

(** X14, witness: the file "complete" stands between two files that miss
    pieces; the chunk of the first file is pushed, those of the last file are
    never pushed. *)
Lemma managedBuildAndPushChunks_stops_at_empty_file_witness :
  exists uh effss,
    managedBuildAndPushChunks (exampleRenter 3) exampleCopies
      ([exampleEntry] ++ completeEntry :: [otherEntry]) exampleHosts
      targetUnstuckChunks emptyHeap = Some (uh, effss)
    /\ UUC.fileEntry <$> heap uh = ["file"].
Proof.
  rewrite (managedBuildAndPushChunks_stops_at_empty_file (exampleRenter 3)
             exampleCopies [exampleEntry] completeEntry [otherEntry] exampleHosts
             targetUnstuckChunks emptyHeap [EffClose 0]);
    [|vm_compute; reflexivity].
  eexists _, _. split; vm_compute; reflexivity.
Defined.

Lemma managedPush_cases uh c :
  managedPush uh c = uh
  \/ (heap (managedPush uh c) = heap uh ++ [c]
      /\ repairingChunks (managedPush uh c) = repairingChunks uh).
Proof.
  unfold managedPush. destruct (_ && _); [right|left]; done.
Qed.

Lemma foldl_managedPush_inv (P : unfinishedUploadChunk -> Prop) chunks : forall uh,
  heapInv uh -> Forall P chunks ->
  let uh' := foldl managedPush uh chunks in
  heapInv uh'
  /\ repairingChunks uh' = repairingChunks uh
  /\ (exists added, heap uh' = heap uh ++ added /\ Forall P added /\ added ⊆ chunks).
Proof.
  induction chunks as [|c chunks IH]; intros uh Hinv HP.
  - cbn. split; [done|]. split; [done|]. exists []. by rewrite app_nil_r.
  - apply Forall_cons in HP as [Hc HP].
    destruct (IH (managedPush uh c) (heapInv_managedPush _ _ Hinv) HP)
      as (Hinv' & Hrep & added & Hheap & Hadded & Hsub).
    change (foldl managedPush uh (c :: chunks))
      with (foldl managedPush (managedPush uh c) chunks).
    cbv zeta. split; [done|].
    destruct (managedPush_cases uh c) as [Hsame|[Hh Hr]].
    + rewrite Hsame in *. split; [done|].
      exists added. split; [done|]. split; [done|]. set_solver.
    + split; [by rewrite Hrep|].
      exists (c :: added). rewrite Hheap, Hh, <- app_assoc.
      split; [done|]. split; [by constructor|]. set_solver.
Qed.

(** X15: [managedBuildAndPushChunks] keeps the invariant of the upload heap
    (no chunk id twice, [heapChunks] the ids of the slice, disjoint from
    [repairingChunks]), leaves the chunks that were in the heap where they
    are, and appends behind them only chunks that still miss pieces
    ([piecesCompleted < piecesNeeded]); [repairingChunks] is not changed. *)
Theorem managedBuildAndPushChunks_adds_unfinished
    r copyEntry files hosts target uh uh' effss :
  heapInv uh ->
  managedBuildAndPushChunks r copyEntry files hosts target uh = Some (uh', effss) ->
  heapInv uh'
  /\ repairingChunks uh' = repairingChunks uh
  /\ exists added,
      heap uh' = heap uh ++ added
      /\ Forall (fun c => UUC.piecesCompleted c < UUC.piecesNeeded c) added.
Proof.
  revert uh uh' effss.
  induction files as [|file files IH]; intros uh uh' effss Hinv; cbn.
  - intros [= <- <-]. split; [done|]. split; [done|].
    exists []. by rewrite app_nil_r.
  - destruct (buildUnfinishedChunks r (copyEntry file) hosts target)
      as [[chunks effs]|] eqn:Hbuild; [|done]. cbn.
    destruct (List.length chunks =? 0)%nat.
    { intros [= <- <-]. split; [done|]. split; [done|].
      exists []. by rewrite app_nil_r. }
    destruct (managedBuildAndPushChunks r copyEntry files hosts target
                (foldl managedPush uh chunks)) as [[uh1 effss1]|] eqn:Hrest; [|done].
    cbn. intros [= <- <-].
    pose proof (buildUnfinishedChunks_unfinished _ _ _ _ _ _ Hbuild) as Hunf.
    destruct (foldl_managedPush_inv _ chunks uh Hinv Hunf)
      as (Hinv1 & Hrep1 & added1 & Hheap1 & Hadded1 & _).
    destruct (IH _ _ _ Hinv1 Hrest) as (Hinv2 & Hrep2 & added2 & Hheap2 & Hadded2).
    split; [done|]. split; [by rewrite Hrep2|].
    exists (added1 ++ added2). split.
    + by rewrite Hheap2, Hheap1, app_assoc.
    + by apply Forall_app.
Qed.

(** X15, witness: the two example files are built into the empty heap. *)
Lemma managedBuildAndPushChunks_adds_unfinished_witness :
  exists uh effss,
    managedBuildAndPushChunks (exampleRenter 3) exampleCopies
      [exampleEntry; otherEntry] exampleHosts targetUnstuckChunks emptyHeap
    = Some (uh, effss)
    /\ heapInv uh
    /\ UUC.id <$> heap uh
       = [ {| fileUID := "file"; chunkIdx := 1 |};
           {| fileUID := "other"; chunkIdx := 0 |};
           {| fileUID := "other"; chunkIdx := 1 |} ].
Proof.
  destruct (managedBuildAndPushChunks (exampleRenter 3) exampleCopies
              [exampleEntry; otherEntry] exampleHosts targetUnstuckChunks emptyHeap)
    as [[uh effss]|] eqn:Hrun; [|by vm_compute in Hrun].
  exists uh, effss. split; [done|].
  destruct (managedBuildAndPushChunks_adds_unfinished _ _ _ _ _ _ _ _
              heapInv_empty Hrun) as (Hinv & _).
  split; [exact Hinv|].
  vm_compute in Hrun. injection Hrun as <- _. vm_compute. reflexivity.
Defined.

(** X16: [managedBuildAndPushRandomChunk] adds at most one chunk to the
    heap, whatever the random choices: it either leaves the heap as it is, or
    appends one chunk that still misses pieces and has [stuckRepair] set.  It
    keeps the invariant of the heap and does not change [repairingChunks]. *)
Theorem managedBuildAndPushRandomChunk_one_chunk
    r copyEntry randFile randChunk files hosts target uh uh' :
  heapInv uh ->
  managedBuildAndPushRandomChunk r copyEntry randFile randChunk files hosts target uh
    = Some uh' ->
  heapInv uh'
  /\ repairingChunks uh' = repairingChunks uh
  /\ (uh' = uh
      \/ exists c, heap uh' = heap uh ++ [c]
                   /\ UUC.stuckRepair c = true
                   /\ UUC.piecesCompleted c < UUC.piecesNeeded c).
Proof.
  intros Hinv. unfold managedBuildAndPushRandomChunk.
  destruct (List.length files =? 0)%nat.
  { intros [= <-]. auto. }
  destruct (files !! randFile (List.length files)) as [file|]; [|done]. cbn.
  destruct (buildUnfinishedChunks r (copyEntry file) hosts target)
    as [[chunks effs]|] eqn:Hbuild; [|done]. cbn.
  destruct (List.length chunks =? 0)%nat.
  { intros [= <-]. auto. }
  destruct (chunks !! randChunk (List.length chunks)) as [c|] eqn:Hc; [|done]. cbn.
  intros [= <-].
  split; [by apply heapInv_managedPush|].
  destruct (managedPush_cases uh (setStuckRepair c)) as [Hsame|[Hh Hr]].
  - rewrite Hsame. auto.
  - split; [done|]. right. exists (setStuckRepair c).
    split; [done|]. split; [done|]. cbn.
    pose proof (buildUnfinishedChunks_unfinished _ _ _ _ _ _ Hbuild) as Hunf.
    rewrite Forall_lookup in Hunf. by apply (Hunf _ _ Hc).
Qed.

(** X16, witness: the second chunk of the file "other" is picked. *)
Lemma managedBuildAndPushRandomChunk_one_chunk_witness :
  exists uh,
    managedBuildAndPushRandomChunk (exampleRenter 3) exampleCopies
      (fun _ => 1%nat) (fun _ => 1%nat) [exampleEntry; otherEntry] exampleHosts
      targetUnstuckChunks emptyHeap = Some uh
    /\ heapInv uh
    /\ UUC.stuckRepair <$> heap uh = [true].
Proof.
  destruct (managedBuildAndPushRandomChunk (exampleRenter 3) exampleCopies
              (fun _ => 1%nat) (fun _ => 1%nat) [exampleEntry; otherEntry]
              exampleHosts targetUnstuckChunks emptyHeap)
    as [uh|] eqn:Hrun; [|by vm_compute in Hrun].
  exists uh. split; [done|].
  destruct (managedBuildAndPushRandomChunk_one_chunk _ _ _ _ _ _ _ _ _
              heapInv_empty Hrun) as (Hinv & _).
  split; [exact Hinv|].
  vm_compute in Hrun. injection Hrun as <-. vm_compute. reflexivity.
Defined.

End BuildAndPushFacts.

(** * Facts about the rounds of the repair loop *)
Section RepairRoundsFacts.
Import UploadHeap RepairLoop RepairRounds.

Lemma poppedIn_checkHealth e c : poppedIn (checkHealth e c) = [].
Proof. unfold checkHealth. by destruct (Float.Qltb _ _). Qed.

Lemma poppedIn_prepare granted c : poppedIn (managedPrepareNextChunk granted c) = [].
Proof. unfold managedPrepareNextChunk. by destruct granted. Qed.

Lemma poppedIn_app evs1 evs2 : poppedIn (evs1 ++ evs2) = poppedIn evs1 ++ poppedIn evs2.
Proof. apply omap_app. Qed.

Lemma poppedBy_cons c rest rounds :
  poppedIn rest = [] ->
  poppedBy ((EvPop c :: rest) :: rounds) = c :: poppedBy rounds.
Proof.
  intros Hrest. unfold poppedBy. cbn [concat].
  rewrite poppedIn_app. cbn. fold (poppedIn rest). by rewrite Hrest.
Qed.

(** The draining loop pops every chunk of the heap and keeps the stuck
    ones. *)
Lemma drain_spec fuel : forall uh popped0 stuck0,
  heapInv uh -> (List.length (heap uh) <= fuel)%nat ->
  exists p uh'',
    drain fuel uh popped0 stuck0
    = (popped0 ++ p, stuck0 ++ filter (fun c => UUC.stuck c = true) p, uh'')
    /\ p ≡ₚ heap uh /\ heap uh'' = [] /\ heapInv uh''
    /\ repairingChunks uh'' = repairingChunks uh.
Proof.
  induction fuel as [|fuel IH]; intros uh popped0 stuck0 Hinv Hlen.
  { exists [], uh. cbn. rewrite !app_nil_r.
    destruct (heap uh) eqn:Hh; [done|cbn in Hlen; lia]. }
  cbn [drain]. unfold managedLen.
  destruct (heap uh) as [|c t] eqn:Hh.
  { cbn. exists [], uh. rewrite !app_nil_r. by rewrite Hh. }
  replace (0 <? Z.of_nat (List.length (c :: t))) with true
    by (symmetry; apply Z.ltb_lt; cbn; lia).
  destruct (managedPop_cons uh c t Hh) as (h' & Hpop & Hperm).
  pose proof (heapInv_managedPop uh Hinv) as Hinv'.
  rewrite Hpop in Hinv' |- *. cbn [snd] in Hinv'.
  set (uh1 := {| heap := h' |}) in *.
  destruct (IH uh1 (popped0 ++ [c])
              (if UUC.stuck c then stuck0 ++ [c] else stuck0) Hinv')
    as (p & uh'' & Hdrain & Hp & Hnil & Hinv'' & Hrep).
  { cbn. rewrite (Permutation_length Hperm). cbn in Hlen. lia. }
  exists (c :: p), uh''. rewrite Hdrain. split; [|split; [|done]].
  - rewrite <- (app_assoc popped0 [c] p). cbn [app]. f_equal. f_equal.
    destruct (UUC.stuck c) eqn:Hs.
    + rewrite filter_cons_True by done. by rewrite <- app_assoc.
    + rewrite filter_cons_False by (rewrite Hs; done). done.
  - cbn in Hp. by rewrite Hp, Hperm.
Qed.

(** What the loop leaves when it drains the heap. *)
Lemma drain_repush uh :
  heapInv uh ->
  exists p uh'',
    drain (List.length (heap uh)) uh [] []
    = (p, filter (fun c => UUC.stuck c = true) p, uh'')
    /\ p ≡ₚ heap uh
    /\ heap (foldl managedPush uh'' (filter (fun c => UUC.stuck c = true) p))
       = filter (fun c => UUC.stuck c = true) p
    /\ heapInv (foldl managedPush uh'' (filter (fun c => UUC.stuck c = true) p))
    /\ repairingChunks (foldl managedPush uh'' (filter (fun c => UUC.stuck c = true) p))
       = repairingChunks uh.
Proof.
  intros Hinv.
  destruct (drain_spec (List.length (heap uh)) uh [] [] Hinv ltac:(lia))
    as (p & uh'' & Hdrain & Hp & Hnil & Hinv'' & Hrep).
  exists p, uh''. split; [exact Hdrain|]. split; [done|].
  assert (Hndp : NoDup (UUC.id <$> p)).
  { rewrite Hp. by destruct Hinv. }
  assert (Hnd : NoDup (UUC.id <$> filter (fun c => UUC.stuck c = true) p)).
  { eapply sublist_NoDup; [exact Hndp|]. apply fmap_sublist, sublist_filter. }
  assert (Hfresh : forall c, c ∈ filter (fun c => UUC.stuck c = true) p ->
             (UUC.id c ∉ heapChunks uh'') /\ (UUC.id c ∉ repairingChunks uh'')).
  { intros c [_ Hc]%list_elem_of_filter.
    destruct Hinv'' as (_ & Hset & _). rewrite Hset, Hnil, Hrep. cbn.
    split; [set_solver|].
    destruct Hinv as (_ & Hset' & Hdisj).
    assert (UUC.id c ∈ heapChunks uh).
    { rewrite Hset'. apply elem_of_list_to_set, list_elem_of_fmap.
      exists c. split; [done|]. by rewrite <- Hp. }
    set_solver. }
  rewrite (pushAll_distinct _ uh'' Hinv'' Hnd Hfresh), Hnil. cbn [app].
  split; [done|].
  destruct (foldl_managedPush_inv (fun _ => True)
              (filter (fun c => UUC.stuck c = true) p) uh'' Hinv'')
    as (Hinv3 & Hrep3 & _).
  { by apply Forall_true. }
  split; [done|]. by rewrite Hrep3, Hrep.
Qed.

Lemma managedRepairLoop_rounds e fuel : forall round n uh,
  heapInv uh ->
  let '(rounds, uh') := managedRepairLoop fuel e round n uh in
  (List.length rounds <= List.length (heap uh))%nat
  /\ Forall popsNextChunkOnce rounds
  /\ poppedBy rounds ++ heap uh' ⊆+ heap uh
  /\ heapInv uh'
  /\ repairingChunks uh' = repairingChunks uh.
Proof.
  induction fuel as [|fuel IH]; intros round n uh Hinv.
  { cbn. split; [lia|]. split; [constructor|]. done. }
  cbn [managedRepairLoop].
  destruct (stopped e round).
  { cbn. split; [lia|]. split; [constructor|]. done. }
  destruct (negb (online e round)).
  { cbn. split; [lia|]. split; [constructor|]. done. }
  destruct (heap uh) as [|c t] eqn:Hh.
  { rewrite managedPop_nil by done. cbn. rewrite Hh.
    split; [done|]. split; [constructor|]. done. }
  destruct (managedPop_cons uh c t Hh) as (h' & Hpop & Hperm).
  pose proof (heapInv_managedPop uh Hinv) as Hinv'.
  rewrite Hpop in Hinv' |- *. cbn [snd] in Hinv'.
  set (uh1 := {| heap := h' |}) in *.
  assert (Hstep : forall rest rounds uh',
    poppedIn rest = [] ->
    (List.length rounds <= List.length (heap uh1))%nat
    /\ Forall popsNextChunkOnce rounds
    /\ poppedBy rounds ++ heap uh' ⊆+ heap uh1
    /\ heapInv uh'
    /\ repairingChunks uh' = repairingChunks uh1 ->
    (List.length ((EvPop c :: rest) :: rounds) <= List.length (c :: t))%nat
    /\ Forall popsNextChunkOnce ((EvPop c :: rest) :: rounds)
    /\ poppedBy ((EvPop c :: rest) :: rounds) ++ heap uh' ⊆+ c :: t
    /\ heapInv uh'
    /\ repairingChunks uh' = repairingChunks uh).
  { intros rest rounds uh' Hrest (Hl & Hall & Hsub & Hi & Hr).
    cbn in Hl, Hsub. rewrite (Permutation_length Hperm) in Hl.
    split; [cbn; lia|]. split; [constructor; [by exists c, rest|done]|].
    split; [|done].
    rewrite poppedBy_cons by done. cbn. apply submseteq_skip.
    by rewrite <- Hperm. }
  destruct (workerPoolSize e round <? UUC.minimumPieces c).
  { specialize (IH (S round) n uh1 Hinv').
    destruct (managedRepairLoop fuel e (S round) n uh1) as [rounds uh'].
    apply Hstep; [|done].
    rewrite poppedIn_app, poppedIn_checkHealth. done. }
  destruct (maxConsecutiveChunkRepairs e <=? n + 1).
  - destruct (drain_repush uh1 Hinv')
      as (p & uh'' & Hdrain & Hp & Hheap & Hinv3 & Hrep3).
    rewrite Hdrain.
    apply Hstep.
    + rewrite !poppedIn_app, poppedIn_checkHealth, poppedIn_prepare. done.
    + split; [cbn; lia|]. split; [constructor|].
      split; [|done].
      unfold poppedBy. cbn [concat poppedIn omap app].
      rewrite Hheap, <- Hp.
      apply sublist_submseteq, sublist_filter.
  - specialize (IH (S round) (n + 1) uh1 Hinv').
    destruct (managedRepairLoop fuel e (S round) (n + 1) uh1) as [rounds uh'].
    apply Hstep; [|done].
    rewrite poppedIn_app, poppedIn_checkHealth, poppedIn_prepare. done.
Qed.

Lemma allPoppedIn_app evs1 evs2 :
  allPoppedIn (evs1 ++ evs2) = allPoppedIn evs1 ++ allPoppedIn evs2.
Proof. apply flat_map_app. Qed.

Lemma allPoppedIn_checkHealth e c : allPoppedIn (checkHealth e c) = [].
Proof. unfold checkHealth. by destruct (Float.Qltb _ _). Qed.

Lemma allPoppedIn_prepare granted c :
  allPoppedIn (managedPrepareNextChunk granted c) = [].
Proof. unfold managedPrepareNextChunk. by destruct granted. Qed.

Lemma allPoppedBy_cons c rest rounds :
  allPoppedBy ((EvPop c :: rest) :: rounds)
  = c :: allPoppedIn rest ++ allPoppedBy rounds.
Proof.
  unfold allPoppedBy. cbn [concat]. rewrite allPoppedIn_app. done.
Qed.

(** All pops of a run, those of the draining loop included, take chunks
    of the heap, each at most once. *)
Lemma managedRepairLoop_allPopped e fuel : forall round n uh,
  heapInv uh ->
  allPoppedBy (managedRepairLoop fuel e round n uh).1 ⊆+ heap uh.
Proof.
  induction fuel as [|fuel IH]; intros round n uh Hinv.
  { cbn. apply submseteq_nil_l. }
  cbn [managedRepairLoop].
  destruct (stopped e round); [apply submseteq_nil_l|].
  destruct (negb (online e round)); [apply submseteq_nil_l|].
  destruct (heap uh) as [|c t] eqn:Hh.
  { rewrite managedPop_nil by done. cbn. done. }
  destruct (managedPop_cons uh c t Hh) as (h' & Hpop & Hperm).
  pose proof (heapInv_managedPop uh Hinv) as Hinv'.
  rewrite Hpop in Hinv' |- *. cbn [snd] in Hinv'.
  set (uh1 := {| heap := h' |}) in *.
  destruct (workerPoolSize e round <? UUC.minimumPieces c).
  { specialize (IH (S round) n uh1 Hinv').
    destruct (managedRepairLoop fuel e (S round) n uh1) as [rounds uh'].
    cbn [fst] in *. change (?a :: ?l ++ ?r) with ((a :: l) ++ r).
    cbn [app]. rewrite allPoppedBy_cons, allPoppedIn_app, allPoppedIn_checkHealth.
    cbn. apply submseteq_skip. cbn in IH. by rewrite <- Hperm. }
  destruct (maxConsecutiveChunkRepairs e <=? n + 1).
  - destruct (drain_repush uh1 Hinv')
      as (p & uh'' & Hdrain & Hp & _).
    rewrite Hdrain. cbn [fst app].
    rewrite allPoppedBy_cons, !allPoppedIn_app, allPoppedIn_checkHealth,
      allPoppedIn_prepare.
    cbn. rewrite !app_nil_r. apply submseteq_skip.
    apply Permutation_submseteq. cbn in Hp. by rewrite Hp, Hperm.
  - specialize (IH (S round) (n + 1) uh1 Hinv').
    destruct (managedRepairLoop fuel e (S round) (n + 1) uh1) as [rounds uh'].
    cbn [fst app] in *.
    rewrite allPoppedBy_cons, !allPoppedIn_app, allPoppedIn_checkHealth,
      allPoppedIn_prepare.
    cbn. apply submseteq_skip. cbn in IH. by rewrite <- Hperm.
Qed.

Lemma repairedIn_app evs1 evs2 :
  repairedIn (evs1 ++ evs2) = repairedIn evs1 ++ repairedIn evs2.
Proof. apply omap_app. Qed.

Lemma repairedIn_checkHealth e c : repairedIn (checkHealth e c) = [].
Proof. unfold checkHealth. by destruct (Float.Qltb _ _). Qed.

Lemma repairedIn_prepare granted c :
  repairedIn (managedPrepareNextChunk granted c) = if granted then [c] else [].
Proof. unfold managedPrepareNextChunk. by destruct granted. Qed.

(** The chunks handed to a repair thread are chunks popped as
    [nextChunk], in the order of the pops, each handed out once for its
    pop. *)
Lemma managedRepairLoop_repaired e fuel : forall round n uh,
  let rounds := (managedRepairLoop fuel e round n uh).1 in
  repairedBy rounds `sublist_of` poppedBy rounds.
Proof.
  assert (Hround : forall c rest rounds,
            repairedIn rest `sublist_of` [c] -> poppedIn rest = [] ->
            repairedBy rounds `sublist_of` poppedBy rounds ->
            repairedBy ((EvPop c :: rest) :: rounds)
              `sublist_of` poppedBy ((EvPop c :: rest) :: rounds)).
  { intros c rest rounds Hrest Hpop IH.
    rewrite poppedBy_cons by done.
    unfold repairedBy. cbn [concat]. rewrite repairedIn_app.
    change (repairedIn (EvPop c :: rest)) with (repairedIn rest).
    change (c :: poppedBy rounds) with ([c] ++ poppedBy rounds).
    by apply sublist_app. }
  assert (Hprep : forall (granted : bool) (c : unfinishedUploadChunk),
            (if granted then [c] else []) `sublist_of` [c]).
  { intros [] c; [done|apply sublist_nil_l]. }
  induction fuel as [|fuel IH]; intros round n uh; cbv zeta.
  { cbn. done. }
  cbn [managedRepairLoop].
  destruct (stopped e round); [done|].
  destruct (negb (online e round)); [done|].
  destruct (managedPop uh) as [[c|] uh1]; [|done].
  destruct (workerPoolSize e round <? UUC.minimumPieces c).
  { specialize (IH (S round) n uh1). cbv zeta in IH.
    destruct (managedRepairLoop fuel e (S round) n uh1) as [rounds uh'].
    cbn [fst app] in *. apply Hround; [| |done].
    - rewrite repairedIn_app, repairedIn_checkHealth. cbn. apply sublist_nil_l.
    - rewrite poppedIn_app, poppedIn_checkHealth. done. }
  destruct (maxConsecutiveChunkRepairs e <=? n + 1).
  - destruct (drain _ _ _ _) as [[popped stuckChunks] uh''].
    cbn [fst app]. apply Hround; [| |done].
    + rewrite !repairedIn_app, repairedIn_checkHealth, repairedIn_prepare.
      cbn. rewrite app_nil_r. apply Hprep.
    + rewrite !poppedIn_app, poppedIn_checkHealth, poppedIn_prepare. done.
  - specialize (IH (S round) (n + 1) uh1). cbv zeta in IH.
    destruct (managedRepairLoop fuel e (S round) (n + 1) uh1) as [rounds uh'].
    cbn [fst app] in *. apply Hround; [| |done].
    + rewrite repairedIn_app, repairedIn_checkHealth, repairedIn_prepare.
      cbn. apply Hprep.
    + rewrite poppedIn_app, poppedIn_checkHealth, poppedIn_prepare. done.
Qed.

(** X17: a run of [managedRepairLoop] on a heap that satisfies the heap's
    invariant makes at most as many rounds as the heap has chunks; every
    round starts with the pop of its [nextChunk] and pops no other chunk as
    [nextChunk]; all chunks that [managedPop] returns in the run, to the
    rounds and to the draining loop of the last round, are chunks that were
    in the heap before, each popped at most once; the chunks handed to a
    repair thread are among those popped as [nextChunk], once for each pop,
    so no chunk is handed out twice; the chunks popped as [nextChunk] and the
    chunks left in the heap are chunks of the heap before, each counted
    once; and the heap that is left satisfies the invariant, with
    [repairingChunks] as before. *)
Theorem repair_loop_hands_out_once e fuel round n uh :
  heapInv uh ->
  let '(rounds, uh') := managedRepairLoop fuel e round n uh in
  (List.length rounds <= List.length (heap uh))%nat
  /\ Forall popsNextChunkOnce rounds
  /\ allPoppedBy rounds ⊆+ heap uh
  /\ repairedBy rounds `sublist_of` poppedBy rounds
  /\ poppedBy rounds ++ heap uh' ⊆+ heap uh
  /\ heapInv uh'
  /\ repairingChunks uh' = repairingChunks uh.
Proof.
  intros Hinv.
  pose proof (managedRepairLoop_rounds e fuel round n uh Hinv) as H.
  pose proof (managedRepairLoop_allPopped e fuel round n uh Hinv) as Hall.
  pose proof (managedRepairLoop_repaired e fuel round n uh) as Hrep.
  cbv zeta in Hrep.
  destruct (managedRepairLoop fuel e round n uh) as [rounds uh'].
  destruct H as (H1 & H2 & H3 & H4 & H5). done.
Qed.

(** X17, witness: with a limit of one chunk, the loop hands out the first
    chunk of scenario S6 and its draining loop pops the other three: four
    pops in one round, one chunk handed to a repair thread. *)
Lemma repair_loop_hands_out_once_witness :
  let '(rounds, uh') :=
    managedRepairLoop 5 (limitedEnv 1) 0 0 (pushAll orderingScenario) in
  List.length rounds = 1%nat
  /\ allPoppedBy rounds = orderingScenario
  /\ repairedBy rounds = [testChunk "stuck" 1 true 1 1]
  /\ allPoppedBy rounds ⊆+ heap (pushAll orderingScenario)
  /\ heapInv uh'.
Proof.
  pose proof (repair_loop_hands_out_once (limitedEnv 1) 5 0 0
                (pushAll orderingScenario)
                (heapInv_runOps (OpPush <$> orderingScenario) emptyHeap heapInv_empty))
    as H.
  destruct (managedRepairLoop 5 (limitedEnv 1) 0 0 (pushAll orderingScenario))
    as [rounds uh'] eqn:Hrun.
  destruct H as (_ & _ & Hall & _ & _ & Hinv & _).
  vm_compute in Hrun. injection Hrun as <- <-.
  split; [reflexivity|]. split; [vm_compute; reflexivity|].
  split; [vm_compute; reflexivity|]. split; [exact Hall|exact Hinv].
Defined.

Lemma drainedIn_checkHealth e c : drainedIn (checkHealth e c) = [].
Proof. unfold checkHealth. by destruct (Float.Qltb _ _). Qed.

Lemma drainedIn_prepare granted c : drainedIn (managedPrepareNextChunk granted c) = [].
Proof. unfold managedPrepareNextChunk. by destruct granted. Qed.

Lemma drainedIn_app evs1 evs2 : drainedIn (evs1 ++ evs2) = drainedIn evs1 ++ drainedIn evs2.
Proof. apply omap_app. Qed.

Lemma final_round e c granted p s :
  let evs := (EvPop c :: checkHealth e c)
             ++ managedPrepareNextChunk granted c ++ [EvDrained p s] in
  poppedIn evs = [c] /\ drainedIn evs = [(p, s)].
Proof.
  unfold checkHealth, managedPrepareNextChunk.
  destruct (Float.Qltb _ _), granted; done.
Qed.

Lemma managedRepairLoop_drained e fuel : forall round n uh,
  heapInv uh ->
  let '(rounds, uh') := managedRepairLoop fuel e round n uh in
  forall evs popped repushed,
    evs ∈ rounds -> (popped, repushed) ∈ drainedIn evs ->
    last rounds = Some evs
    /\ repushed = filter (fun c => UUC.stuck c = true) popped
    /\ heap uh' = repushed
    /\ poppedBy rounds ++ popped ≡ₚ heap uh.
Proof.
  induction fuel as [|fuel IH]; intros round n uh Hinv.
  { cbn. intros evs popped repushed Hin. by apply elem_of_nil in Hin. }
  cbn [managedRepairLoop].
  destruct (stopped e round).
  { intros evs popped repushed Hin. by apply elem_of_nil in Hin. }
  destruct (negb (online e round)).
  { intros evs popped repushed Hin. by apply elem_of_nil in Hin. }
  destruct (heap uh) as [|c t] eqn:Hh.
  { rewrite managedPop_nil by done.
    intros evs popped repushed Hin. by apply elem_of_nil in Hin. }
  destruct (managedPop_cons uh c t Hh) as (h' & Hpop & Hperm).
  pose proof (heapInv_managedPop uh Hinv) as Hinv'.
  rewrite Hpop in Hinv' |- *. cbn [snd] in Hinv'.
  set (uh1 := {| heap := h' |}) in *.
  assert (Hstep : forall rest rounds uh',
    poppedIn rest = [] -> drainedIn rest = [] ->
    (forall evs popped repushed,
        evs ∈ rounds -> (popped, repushed) ∈ drainedIn evs ->
        last rounds = Some evs
        /\ repushed = filter (fun c => UUC.stuck c = true) popped
        /\ heap uh' = repushed
        /\ poppedBy rounds ++ popped ≡ₚ heap uh1) ->
    forall evs popped repushed,
      evs ∈ (EvPop c :: rest) :: rounds -> (popped, repushed) ∈ drainedIn evs ->
      last ((EvPop c :: rest) :: rounds) = Some evs
      /\ repushed = filter (fun c => UUC.stuck c = true) popped
      /\ heap uh' = repushed
      /\ poppedBy ((EvPop c :: rest) :: rounds) ++ popped ≡ₚ c :: t).
  { intros rest rounds uh' Hrest Hnodrain Hrec evs popped repushed Hin Hd.
    apply elem_of_cons in Hin as [->|Hin].
    { cbn in Hd. fold (drainedIn rest) in Hd. rewrite Hnodrain in Hd.
      by apply elem_of_nil in Hd. }
    destruct (Hrec evs popped repushed Hin Hd) as (Hlast & Hre & Hheap & Hp).
    split; [|split; [done|split; [done|]]].
    - destruct rounds as [|r rounds]; [by apply elem_of_nil in Hin|]. exact Hlast.
    - rewrite poppedBy_cons by done. cbn. f_equiv.
      cbn in Hp. by rewrite Hp. }
  destruct (workerPoolSize e round <? UUC.minimumPieces c).
  { specialize (IH (S round) n uh1 Hinv').
    destruct (managedRepairLoop fuel e (S round) n uh1) as [rounds uh'].
    apply Hstep; [| |done].
    - rewrite poppedIn_app, poppedIn_checkHealth. done.
    - rewrite drainedIn_app, drainedIn_checkHealth. done. }
  destruct (maxConsecutiveChunkRepairs e <=? n + 1).
  - destruct (drain_repush uh1 Hinv')
      as (p & uh'' & Hdrain & Hp & Hheap & Hinv3 & Hrep3).
    rewrite Hdrain.
    intros evs popped repushed Hin Hd.
    apply list_elem_of_singleton in Hin as ->.
    destruct (final_round e c (memoryGranted e round) p
                (filter (fun c => UUC.stuck c = true) p)) as [Hp1 Hd1].
    cbv zeta in Hp1, Hd1. rewrite Hd1 in Hd.
    apply list_elem_of_singleton in Hd. injection Hd as -> ->.
    split; [done|]. split; [done|]. split; [exact Hheap|].
    unfold poppedBy. cbn [concat]. rewrite app_nil_r, Hp1.
    cbn. f_equiv. by rewrite Hp.
  - specialize (IH (S round) (n + 1) uh1 Hinv').
    destruct (managedRepairLoop fuel e (S round) (n + 1) uh1) as [rounds uh'].
    apply Hstep; [| |done].
    + rewrite poppedIn_app, poppedIn_checkHealth, poppedIn_prepare. done.
    + rewrite drainedIn_app, drainedIn_checkHealth, drainedIn_prepare. done.
Qed.

(** X18: when [managedRepairLoop] has handed out
    [maxConsecutiveChunkRepairs] chunks and empties the heap, this is its
    last round; every chunk that was in the heap before the run has by then
    been popped in a round or by the draining loop; the chunks pushed back
    are exactly the stuck ones among the drained chunks, in the order in
    which they were popped, and they are the heap the run leaves: the chunks
    that are not stuck are dropped from the heap. *)
Theorem repair_loop_drain_keeps_stuck e fuel round n uh :
  heapInv uh ->
  let '(rounds, uh') := managedRepairLoop fuel e round n uh in
  forall evs popped repushed,
    evs ∈ rounds -> (popped, repushed) ∈ drainedIn evs ->
    last rounds = Some evs
    /\ repushed = filter (fun c => UUC.stuck c = true) popped
    /\ heap uh' = repushed
    /\ poppedBy rounds ++ popped ≡ₚ heap uh.
Proof. apply managedRepairLoop_drained. Qed.

(** X18, witness: with a limit of one chunk, the loop hands out the first
    chunk of scenario S6 and drains the other three; the stuck one among
    them is the heap it leaves. *)
Lemma repair_loop_drain_keeps_stuck_witness :
  let '(rounds, uh') :=
    managedRepairLoop 5 (limitedEnv 1) 0 0 (pushAll orderingScenario) in
  exists evs popped,
    last rounds = Some evs
    /\ (popped, [testChunk "stuck" 2 true 2 1]) ∈ drainedIn evs
    /\ heap uh' = [testChunk "stuck" 2 true 2 1].
Proof.
  pose proof (repair_loop_drain_keeps_stuck (limitedEnv 1) 5 0 0
                (pushAll orderingScenario)
                (heapInv_runOps (OpPush <$> orderingScenario) emptyHeap heapInv_empty))
    as H.
  destruct (managedRepairLoop 5 (limitedEnv 1) 0 0 (pushAll orderingScenario))
    as [rounds uh'] eqn:Hrun.
  vm_compute in Hrun. injection Hrun as <- <-.
  eexists _, _.
  match goal with
  | |- last [?evs] = _ /\ _ =>
      destruct (H evs
                  [testChunk "stuck" 2 true 2 1; testChunk "unstuck" 1 false 1 1;
                   testChunk "unstuck" 2 false 2 1]
                  [testChunk "stuck" 2 true 2 1]) as (Hlast & _ & Hheap & _)
  end.
  - apply list_elem_of_singleton. reflexivity.
  - vm_compute. apply list_elem_of_singleton. reflexivity.
  - split; [exact Hlast|]. split; [|exact Hheap].
    vm_compute. apply list_elem_of_singleton. reflexivity.
Defined.

End RepairRoundsFacts.

(** * Facts about the counters of a download chunk *)
Section WorkerAccountingFacts.
Import WorkerDownload WorkerAccounting.

Implicit Types (udc : unfinishedDownloadChunk) (w : worker) (s : state).

(** What the completion of a piece adds to [atomicDataReceived]. *)
Lemma completePiece_received tgAdd w piece s s' :
  completePiece tgAdd w piece s = Some s' ->
  let K := UDC.minPieces (UDC.st (chunk s)) in
  let fetchLength := UDC.staticFetchLength (UDC.st (chunk s)) in
  let pc' := UDC.piecesCompleted (chunk s) + 1 in
  atomicDataReceived s'
  = atomicDataReceived s
    + (if pc' <=? K then fetchLength / K else 0)
    + (if pc' =? K then fetchLength - K * (fetchLength / K) else 0)
  /\ atomicTotalDataTransferred s' = atomicTotalDataTransferred s.
Proof.
  unfold completePiece, markPieceCompleted, storePiece. cbv zeta.
  set (i := pieceIndex (lookupPiece (chunk s) w).1).
  destruct (UDC.completedPieces (chunk s) !! i) as [b|] eqn:Hb; [|done].
  cbn.
  destruct (UDC.piecesCompleted (chunk s) + 1 <=? UDC.minPieces (UDC.st (chunk s)));
    [destruct (UDC.physicalChunkData (chunk s) !! i); [|done]|]; cbn;
    destruct (UDC.piecesCompleted (chunk s) + 1 =? UDC.minPieces (UDC.st (chunk s)));
    intros [= <-]; cbn; split; lia.
Qed.

(** The other steps do not touch [atomicDataReceived]. *)
Lemma step_other_received cfg s a s' :
  step cfg s a = Some s' ->
  (forall tgAdd w piece, a <> ActComplete tgAdd w piece) ->
  atomicDataReceived s' = atomicDataReceived s.
Proof.
  intros Hstep Hne. destruct a as [now dc w| |tgAdd w piece|w|]; simpl in Hstep.
  - destruct (ownedProcessDownloadChunk cfg now dc w (chunk s)); [|done].
    by injection Hstep as <-.
  - by injection Hstep as <-.
  - by destruct (Hne tgAdd w piece).
  - destruct (managedUnregisterWorker (chunk s) w); [|done].
    by injection Hstep as <-.
  - by injection Hstep as <-.
Qed.

Lemma step_received cfg s a s' :
  step cfg s a = Some s' ->
  let K := UDC.minPieces (UDC.st (chunk s)) in
  let fetchLength := UDC.staticFetchLength (UDC.st (chunk s)) in
  0 < K -> 0 <= UDC.piecesCompleted (chunk s) ->
  UDC.st (chunk s') = UDC.st (chunk s)
  /\ 0 <= UDC.piecesCompleted (chunk s')
  /\ atomicDataReceived s' - receivedAfter K fetchLength (UDC.piecesCompleted (chunk s'))
     = atomicDataReceived s - receivedAfter K fetchLength (UDC.piecesCompleted (chunk s)).
Proof.
  intros Hstep K fetchLength HK Hpc.
  assert (Hother : (forall tgAdd w piece, a <> ActComplete tgAdd w piece) ->
    UDC.st (chunk s') = UDC.st (chunk s)
    /\ 0 <= UDC.piecesCompleted (chunk s')
    /\ atomicDataReceived s' - receivedAfter K fetchLength (UDC.piecesCompleted (chunk s'))
       = atomicDataReceived s - receivedAfter K fetchLength (UDC.piecesCompleted (chunk s))).
  { intros Hne.
    destruct (step_other cfg s a s' Hstep Hne) as (Hst & Hpc' & _).
    rewrite (step_other_received cfg s a s' Hstep Hne), Hpc'. done. }
  destruct a as [now dc w| |tgAdd w piece|w|]; try (by apply Hother).
  clear Hother. cbn in Hstep.
  destruct (completePiece_effect _ _ _ _ _ Hstep) as (Hst & Hpc' & _).
  destruct (completePiece_received _ _ _ _ _ Hstep) as (Hrec & _).
  cbv zeta in Hpc', Hrec. fold K fetchLength in Hrec.
  split; [done|]. split; [lia|].
  rewrite Hrec, Hpc'. unfold receivedAfter.
  destruct (UDC.piecesCompleted (chunk s) + 1 <=? K) eqn:H1;
    destruct (UDC.piecesCompleted (chunk s) + 1 =? K) eqn:H2;
    destruct (K <=? UDC.piecesCompleted (chunk s) + 1) eqn:H3;
    destruct (K <=? UDC.piecesCompleted (chunk s)) eqn:H4; lia.
Qed.

(** X19: in every state the workers of a chunk reach from a fresh chunk
    that needs [K > 0] pieces, [atomicDataReceived] has grown by
    [piecesCompleted * (staticFetchLength / K)] while fewer than [K] pieces
    are completed, and by exactly [staticFetchLength] from the completion of
    the [K]-th piece on: the remainder of the division is added with the
    [K]-th piece, and the pieces that overdrive workers complete later add
    nothing. *)
Theorem data_received_adds_up cfg s0 acts s :
  fresh s0 ->
  0 < UDC.minPieces (UDC.st (chunk s0)) ->
  run cfg s0 acts = Some s ->
  let K := UDC.minPieces (UDC.st (chunk s0)) in
  let fetchLength := UDC.staticFetchLength (UDC.st (chunk s0)) in
  atomicDataReceived s
  = atomicDataReceived s0
    + (if K <=? UDC.piecesCompleted (chunk s) then fetchLength
       else UDC.piecesCompleted (chunk s) * (fetchLength / K)).
Proof.
  intros [Hpc0 _] HK Hrun K fetchLength.
  enough (Hgen : forall acts s0 s,
    run cfg s0 acts = Some s ->
    0 < UDC.minPieces (UDC.st (chunk s0)) ->
    0 <= UDC.piecesCompleted (chunk s0) ->
    UDC.st (chunk s) = UDC.st (chunk s0)
    /\ atomicDataReceived s
       - receivedAfter (UDC.minPieces (UDC.st (chunk s0)))
                       (UDC.staticFetchLength (UDC.st (chunk s0)))
                       (UDC.piecesCompleted (chunk s))
       = atomicDataReceived s0
         - receivedAfter (UDC.minPieces (UDC.st (chunk s0)))
                         (UDC.staticFetchLength (UDC.st (chunk s0)))
                         (UDC.piecesCompleted (chunk s0))).
  { destruct (Hgen acts s0 s Hrun HK ltac:(lia)) as [_ Heq].
    fold K fetchLength in Heq. rewrite Hpc0 in Heq.
    unfold receivedAfter in Heq at 2.
    replace (K <=? 0) with false in Heq by (symmetry; apply Z.leb_gt; exact HK).
    unfold receivedAfter in Heq. lia. }
  clear. induction acts as [|a acts IH]; intros s0 s Hrun HK Hpc; cbn in Hrun.
  - by injection Hrun as <-.
  - destruct (step cfg s0 a) as [s1|] eqn:Hstep; [|done]. cbn in Hrun.
    destruct (step_received cfg s0 a s1 Hstep HK Hpc) as (Hst & Hpc1 & Hrec).
    destruct (IH s1 s Hrun) as (Hst' & Hrec').
    + by rewrite Hst.
    + done.
    + rewrite Hst in Hst', Hrec'. split; [done|]. lia.
Qed.

(** X19, witness: of a chunk that needs two pieces, 41 bytes are asked for;
    the first piece counts for 20 bytes, the second brings the count to 41,
    and the third, an overdrive piece, leaves it there. *)
Lemma data_received_adds_up_witness :
  exists s, run exampleConfig oddState (exampleRun true) = Some s
            /\ UDC.piecesCompleted (chunk s) = 3
            /\ atomicDataReceived s = 41.
Proof.
  eexists. split; [vm_compute; reflexivity|]. split; [reflexivity|].
  rewrite (data_received_adds_up exampleConfig oddState (exampleRun true) _
             (conj eq_refl eq_refl) ltac:(vm_compute; reflexivity)
             ltac:(vm_compute; reflexivity)).
  vm_compute. reflexivity.
Defined.

Lemma ownedProcessDownloadChunk_total cfg now downloadComplete w udc :
  wellFormed udc ->
  is_Some (ownedProcessDownloadChunk cfg now downloadComplete w udc).
Proof.
  intros Hwf.
  pose proof (lookupPiece_in_range udc w Hwf) as Hrange.
  destruct Hwf as (_ & Hlen & _).
  destruct (lookup_lt_is_Some_2 (UDC.completedPieces udc) _ Hrange) as [b Hb].
  destruct (lookup_lt_is_Some_2 (UDC.pieceUsage udc)
              (pieceIndex (lookupPiece udc w).1) ltac:(lia)) as [u Hu].
  unfold ownedProcessDownloadChunk.
  destruct (lookupPiece udc w) as [pd hp]. cbn in Hb, Hu.
  rewrite Hb. cbn. destruct (_ || _ || _ || _ || _); [eauto|].
  rewrite Hu. cbn. destruct (_ && _); eauto.
Qed.

(** X20: a worker whose fetch fails (no downloader, a failed download or a
    failed decryption) leaves the chunk registered as it found it: on a
    well-formed chunk [managedDownload] returns without a panic, and
    [pieceUsage], [piecesRegistered], [piecesCompleted], [completedPieces],
    [atomicDataReceived] and the recovery are as before the call; a slot that
    the worker had taken is free again.  ([managedRemoveWorker], which the
    call ends with, is taken to change [workersRemaining] only.) *)
Theorem failed_fetch_gives_slot_back cfg now downloadComplete fetch tgAdd w s :
  wellFormed (chunk s) ->
  fetchFailed fetch = true ->
  exists s',
    managedDownload cfg now downloadComplete fetch tgAdd w s = Some s'
    /\ UDC.pieceUsage (chunk s') = UDC.pieceUsage (chunk s)
    /\ UDC.piecesRegistered (chunk s') = UDC.piecesRegistered (chunk s)
    /\ UDC.piecesCompleted (chunk s') = UDC.piecesCompleted (chunk s)
    /\ UDC.completedPieces (chunk s') = UDC.completedPieces (chunk s)
    /\ atomicDataReceived s' = atomicDataReceived s
    /\ recoveryThreads s' = recoveryThreads s.
Proof.
  intros Hwf Hfail.
  pose proof (lookupPiece_in_range (chunk s) w Hwf) as Hrange.
  destruct Hwf as (_ & Hlen & _).
  set (i := pieceIndex (lookupPiece (chunk s) w).1) in *.
  destruct (lookup_lt_is_Some_2 (UDC.completedPieces (chunk s)) i Hrange) as [b Hb].
  destruct (lookup_lt_is_Some_2 (UDC.pieceUsage (chunk s)) i ltac:(lia)) as [u Hu].
  assert (Hproc : exists udc' returned,
    ownedProcessDownloadChunk cfg now downloadComplete w (chunk s) = Some (udc', returned)
    /\ (returned = false ->
        UDC.pieceUsage udc' = UDC.pieceUsage (chunk s)
        /\ UDC.piecesRegistered udc' = UDC.piecesRegistered (chunk s)
        /\ UDC.piecesCompleted udc' = UDC.piecesCompleted (chunk s)
        /\ UDC.completedPieces udc' = UDC.completedPieces (chunk s))
    /\ (returned = true -> udc' = registerPiece (chunk s) i /\ u = false)).
  { unfold ownedProcessDownloadChunk.
    destruct (lookupPiece (chunk s) w) as [pd hp] eqn:Hlp. cbn in i. subst i.
    rewrite Hb. cbn.
    destruct (_ || _ || _ || _ || _).
    - eexists _, _. split; [reflexivity|]. split; [done|done].
    - rewrite Hu. cbn.
      destruct (_ && _) eqn:Hdes.
      + eexists _, _. split; [reflexivity|]. split; [done|]. intros _.
        split; [done|].
        apply andb_prop in Hdes as [Hdes _]. apply andb_prop in Hdes as [_ Hdes].
        by destruct u.
      + eexists _, _. split; [reflexivity|]. split; [done|done]. }
  destruct Hproc as (udc' & returned & Hproc & Hdrop & Hreg).
  unfold managedDownload, managedDownloadSteps. rewrite Hproc.
  destruct returned.
  - destruct (Hreg eq_refl) as [-> ->].
    assert (Hunreg : managedUnregisterWorker (registerPiece (chunk s) i) w
                     = Some {| UDC.st := UDC.st (chunk s);
                               UDC.completedPieces := UDC.completedPieces (chunk s);
                               UDC.physicalChunkData := UDC.physicalChunkData (chunk s);
                               UDC.pieceUsage := UDC.pieceUsage (chunk s);
                               UDC.piecesCompleted := UDC.piecesCompleted (chunk s);
                               UDC.piecesRegistered := UDC.piecesRegistered (chunk s);
                               UDC.workersRemaining := UDC.workersRemaining (chunk s);
                               UDC.workersStandby := UDC.workersStandby (chunk s) |}).
    { unfold managedUnregisterWorker.
      change (lookupPiece (registerPiece (chunk s) i) w) with (lookupPiece (chunk s) w).
      fold i. cbn [registerPiece UDC.pieceUsage].
      rewrite list_lookup_insert_eq by (by eapply lookup_lt_Some).
      cbn. f_equal. f_equal.
      - rewrite list_insert_insert_eq. by apply list_insert_id.
      - lia. }
    destruct fetch as [| | |piece]; [| | |done]; cbn [run step];
      rewrite Hproc; cbn; rewrite Hunreg; cbn; eexists; (split; [reflexivity|]);
      cbn; done.
  - destruct (Hdrop eq_refl) as (H1 & H2 & H3 & H4).
    cbn [run step]. rewrite Hproc. cbn. eexists. split; [reflexivity|]. cbn. done.
Qed.

(** X20, witness: worker A registers with the example chunk and its
    download fails. *)
Lemma failed_fetch_gives_slot_back_witness :
  exists s',
    managedDownload exampleConfig 100 false DownloadFailed true
                    (exampleWorker "hostA") exampleState = Some s'
    /\ UDC.pieceUsage (chunk s') = [false; false; false]
    /\ UDC.piecesRegistered (chunk s') = 0.
Proof.
  destruct (failed_fetch_gives_slot_back exampleConfig 100 false DownloadFailed true
              (exampleWorker "hostA") exampleState exampleChunk_wellFormed eq_refl)
    as (s' & Hrun & Hu & Hr & _).
  exists s'. split; [exact Hrun|]. split; [exact Hu|exact Hr].
Defined.

Lemma stored_insert (data : list (option string)) i piece :
  (List.length (filter (fun p => p <> None) (<[i := Some piece]> data))
   <= S (List.length (filter (fun p => p <> None) data)))%nat.
Proof.
  revert i. induction data as [|p data IH]; intros i; [destruct i; cbn; lia|].
  destruct i as [|i].
  - change (<[0%nat := Some piece]> (p :: data)) with (Some piece :: data).
    rewrite filter_cons_True by done.
    destruct p; [rewrite filter_cons_True by done|rewrite filter_cons_False by auto];
      cbn [List.length]; lia.
  - change (<[S i := Some piece]> (p :: data)) with (p :: <[i := Some piece]> data).
    specialize (IH i).
    destruct p; [rewrite !filter_cons_True by done|rewrite !filter_cons_False by auto];
      cbn [List.length]; lia.
Qed.

Lemma step_stored cfg s a s' :
  step cfg s a = Some s' ->
  let K := UDC.minPieces (UDC.st (chunk s)) in
  storedPieces (chunk s) <= UDC.piecesCompleted (chunk s) ->
  storedPieces (chunk s) <= Z.max 0 K ->
  UDC.st (chunk s') = UDC.st (chunk s)
  /\ storedPieces (chunk s') <= UDC.piecesCompleted (chunk s')
  /\ storedPieces (chunk s') <= Z.max 0 K.
Proof.
  intros Hstep K Hpc HK.
  destruct a as [now dc w| |tgAdd w piece|w|]; cbn in Hstep.
  - unfold ownedProcessDownloadChunk in Hstep.
    destruct (lookupPiece (chunk s) w) as [pd hp].
    destruct (UDC.completedPieces (chunk s) !! pieceIndex pd); [|done].
    cbn in Hstep. case_match.
    + by injection Hstep as <-.
    + destruct (UDC.pieceUsage (chunk s) !! pieceIndex pd); [|done].
      cbn in Hstep. case_match; by injection Hstep as <-.
  - by injection Hstep as <-.
  - revert Hstep. unfold completePiece, markPieceCompleted, storePiece. cbv zeta.
    set (i := pieceIndex (lookupPiece (chunk s) w).1).
    destruct (UDC.completedPieces (chunk s) !! i) as [b|]; [|done].
    cbn. fold K.
    pose proof (stored_insert (UDC.physicalChunkData (chunk s)) i piece) as Hins.
    unfold storedPieces in *.
    destruct (UDC.piecesCompleted (chunk s) + 1 <=? K) eqn:Hle;
      [destruct (UDC.physicalChunkData (chunk s) !! i); [|done]|]; cbn;
      destruct (UDC.piecesCompleted (chunk s) + 1 =? K);
      intros [= <-]; cbn; (split; [done|]);
      try (apply Z.leb_le in Hle); lia.
  - unfold managedUnregisterWorker in Hstep.
    destruct (UDC.pieceUsage (chunk s) !! _); [|done].
    cbn in Hstep. by injection Hstep as <-.
  - by injection Hstep as <-.
Qed.

(** X27: in every state the workers of a chunk reach from a chunk that
    holds no data and has no piece completed, [physicalChunkData] holds the
    data of at most [MinPieces] pieces, and of no more pieces than are
    completed: the pieces that overdrive workers complete after the
    [MinPieces]-th are not kept. *)
Theorem stored_pieces_bounded cfg s0 acts s :
  UDC.piecesCompleted (chunk s0) = 0 ->
  storedPieces (chunk s0) = 0 ->
  run cfg s0 acts = Some s ->
  storedPieces (chunk s) <= UDC.piecesCompleted (chunk s)
  /\ storedPieces (chunk s) <= Z.max 0 (UDC.minPieces (UDC.st (chunk s0))).
Proof.
  intros Hpc0 Hst0 Hrun.
  enough (Hgen : forall acts s0 s,
    run cfg s0 acts = Some s ->
    storedPieces (chunk s0) <= UDC.piecesCompleted (chunk s0) ->
    storedPieces (chunk s0) <= Z.max 0 (UDC.minPieces (UDC.st (chunk s0))) ->
    UDC.st (chunk s) = UDC.st (chunk s0)
    /\ storedPieces (chunk s) <= UDC.piecesCompleted (chunk s)
    /\ storedPieces (chunk s) <= Z.max 0 (UDC.minPieces (UDC.st (chunk s0)))).
  { destruct (Hgen acts s0 s Hrun) as (_ & H1 & H2); [lia|lia|done]. }
  clear. induction acts as [|a acts IH]; intros s0 s Hrun H1 H2; cbn in Hrun.
  - by injection Hrun as <-.
  - destruct (step cfg s0 a) as [s1|] eqn:Hstep; [|done]. cbn in Hrun.
    destruct (step_stored cfg s0 a s1 Hstep H1 H2) as (Hst & H1' & H2').
    destruct (IH s1 s Hrun) as (Hst' & H1'' & H2'').
    + done.
    + by rewrite Hst.
    + rewrite Hst in Hst', H2''. done.
Qed.

(** X27, witness: the three workers of the example complete their pieces;
    the data of two pieces is kept. *)
Lemma stored_pieces_bounded_witness :
  exists s, run exampleConfig exampleState (exampleRun true) = Some s
            /\ UDC.piecesCompleted (chunk s) = 3
            /\ storedPieces (chunk s) <= 2.
Proof.
  eexists. split; [vm_compute; reflexivity|]. split; [reflexivity|].
  apply (stored_pieces_bounded exampleConfig exampleState (exampleRun true) _
           eq_refl eq_refl).
  vm_compute. reflexivity.
Defined.

End WorkerAccountingFacts.

(** * Facts about the chunks that [buildUnfinishedChunks] returns *)
Section ChunkAccountingFacts.
Import BuildChunks ChunkAccounting.

Lemma used_insert (usage : list bool) i :
  usage !! i = Some false ->
  List.length (filter (fun b => b = true) (<[i := true]> usage))
  = S (List.length (filter (fun b => b = true) usage)).
Proof.
  revert i. induction usage as [|b usage IH]; intros i Hi; [done|].
  destruct i as [|i]; cbn in Hi.
  - injection Hi as ->.
    change (<[0%nat := true]> (false :: usage)) with (true :: usage).
    rewrite filter_cons_True by done. by rewrite filter_cons_False by done.
  - specialize (IH i Hi).
    change (<[S i := true]> (b :: usage)) with (b :: <[i := true]> usage).
    destruct b.
    + rewrite !filter_cons_True by done. cbn [List.length]. by rewrite IH.
    + rewrite !filter_cons_False by done. exact IH.
Qed.

Lemma used_replicate n :
  filter (fun b => b = true) (replicate n false) = [].
Proof.
  induction n as [|n IH]; [done|].
  change (replicate (S n) false) with (false :: replicate n false).
  by rewrite filter_cons_False by done.
Qed.

Lemma newUnfinishedChunk_accounted entry hosts index :
  accounted hosts (newUnfinishedChunk entry hosts index).
Proof.
  unfold accounted, usedSlots. cbn. rewrite used_replicate, length_replicate. done.
Qed.

Lemma markPiece_accounted r pks hosts pieceIndex c piece c' :
  markPiece r pks pieceIndex c piece = Some c' ->
  accounted hosts c -> accounted hosts c'.
Proof.
  unfold markPiece. intros H (Hpc & Hlen & Hsub).
  destruct (ContractUtilityOf r !! _) as [u|]; [|by injection H as <-].
  destruct (negb (GoodForRenew u)); [by injection H as <-|].
  destruct (UUC.pieceUsage c !! pieceIndex) as [redundant|] eqn:Hu; [|done].
  cbn in H.
  destruct (bool_decide (_ ∈ UUC.unusedHosts c)); cbn in H.
  - destruct redundant; cbn in H; injection H as <-.
    + split; [done|]. split; [done|]. cbn. set_solver.
    + unfold accounted, usedSlots in *. cbn.
      rewrite used_insert by done. rewrite length_insert.
      split; [lia|]. split; [done|]. set_solver.
  - by injection H as <-.
Qed.

Lemma markPieceSet_accounted r pks hosts pieceIndex pieceSet : forall c c',
  markPieceSet r pks pieceIndex pieceSet c = Some c' ->
  accounted hosts c -> accounted hosts c'.
Proof.
  induction pieceSet as [|piece rest IH]; intros c c' H Hc; cbn in H.
  - by injection H as <-.
  - destruct (markPiece r pks pieceIndex c piece) as [c1|] eqn:H1; [|done].
    cbn in H. apply (IH c1 c' H). by eapply markPiece_accounted.
Qed.

Lemma markPieceSets_accounted r pks hosts pieces : forall pieceIndex c c',
  markPieceSets r pks pieceIndex pieces c = Some c' ->
  accounted hosts c -> accounted hosts c'.
Proof.
  induction pieces as [|pieceSet rest IH]; intros pieceIndex c c' H Hc; cbn in H.
  - by injection H as <-.
  - destruct (markPieceSet r pks pieceIndex pieceSet c) as [c1|] eqn:H1; [|done].
    cbn in H. apply (IH _ c1 c' H). by eapply markPieceSet_accounted.
Qed.

Lemma newUnfinishedChunks_built entrys hosts chunkIndexes : forall i chunks effs,
  newUnfinishedChunks entrys hosts i chunkIndexes = Some (chunks, effs) ->
  Forall2 (fun index c => exists entry,
             entry ∈ entrys /\ c = newUnfinishedChunk entry hosts index)
          chunkIndexes chunks.
Proof.
  induction chunkIndexes as [|index rest IH]; intros i chunks effs H; cbn in H.
  - injection H as <- <-. constructor.
  - destruct (entrys !! i) as [entry|] eqn:Hentry; [|done]. cbn in H.
    destruct (newUnfinishedChunks entrys hosts (S i) rest) as [[chunks1 effs1]|] eqn:Hrest;
      [|done].
    cbn in H. injection H as <- <-. constructor; [|by eapply IH].
    exists entry. split; [by eapply list_elem_of_lookup_2|done].
Qed.

(** What the function returns when it gets to its last loop: each chunk is
    the chunk built for a selected index, with its pieces marked. *)
Lemma buildUnfinishedChunks_marked r entry0 rest hosts target chunks effs c :
  buildUnfinishedChunks r (entry0 :: rest) hosts target = Some (chunks, effs) ->
  c ∈ chunks ->
  exists index entry pieces,
    index ∈ (selectChunkIndexes target 0 (entry0 :: rest)).1
    /\ entry ∈ entry0 :: rest
    /\ markPieceSets r (list_to_set (HostPublicKeys entry0)) 0 pieces
         (newUnfinishedChunk entry hosts index) = Some c.
Proof.
  intros [->|(chunks0 & effs2 & chunks' & Hnew & Hcnt & ->)]%buildUnfinishedChunks_inv Hc.
  { by apply elem_of_nil in Hc. }
  apply incompleteChunks_sub in Hc.
  apply newUnfinishedChunks_built in Hnew.
  apply countPieces_spec in Hcnt.
  apply list_elem_of_lookup in Hc as [k Hk].
  destruct (Forall2_lookup_r _ _ _ _ _ Hcnt Hk) as ([index c0] & Hzip & pieces & _ & Hmark).
  cbn in Hmark.
  apply lookup_zip_with_Some in Hzip as (index' & c0' & [= <- <-] & Hidx & Hc0).
  destruct (Forall2_lookup_l _ _ _ _ _ Hnew Hidx) as (c0' & Hc0' & entry & Hentry & ->).
  rewrite Hc0 in Hc0'. injection Hc0' as ->.
  exists index, entry, pieces. split; [by eapply list_elem_of_lookup_2|done].
Qed.

(** X22: every chunk that [buildUnfinishedChunks] returns is accounted for:
    its [piecesCompleted] is the number of slots of [pieceUsage] that are
    marked used, [pieceUsage] has one slot per piece needed,
    [piecesCompleted] lies between 0 and [piecesNeeded - 1], and its
    [unusedHosts] are among the hosts the function was given. *)
Theorem buildUnfinishedChunks_accounted r entrys hosts target chunks effs :
  buildUnfinishedChunks r entrys hosts target = Some (chunks, effs) ->
  Forall (fun c =>
            UUC.piecesCompleted c = usedSlots c
            /\ List.length (UUC.pieceUsage c) = Z.to_nat (UUC.piecesNeeded c)
            /\ 0 <= UUC.piecesCompleted c < UUC.piecesNeeded c
            /\ UUC.unusedHosts c ⊆ hosts) chunks.
Proof.
  intros Hbuild.
  pose proof (buildUnfinishedChunks_unfinished _ _ _ _ _ _ Hbuild) as Hunf.
  destruct entrys as [|entry0 rest].
  { injection Hbuild as <- <-. constructor. }
  apply Forall_forall. intros c Hc.
  rewrite Forall_forall in Hunf. specialize (Hunf c Hc).
  destruct (buildUnfinishedChunks_marked _ _ _ _ _ _ _ _ Hbuild Hc)
    as (index & entry & pieces & _ & _ & Hmark).
  destruct (markPieceSets_accounted r _ hosts pieces 0 _ c Hmark
              (newUnfinishedChunk_accounted entry hosts index))
    as (Hpc & Hlen & Hsub).
  split; [done|]. split; [done|]. split; [|done].
  split; [|done]. rewrite Hpc. unfold usedSlots. lia.
Qed.

(** X22, witness: the chunk of the example file that misses a piece has two
    of its three slots used. *)
Lemma buildUnfinishedChunks_accounted_witness :
  exists chunks effs,
    buildUnfinishedChunks (exampleRenter 3) [exampleEntry; exampleEntry] exampleHosts
                          targetUnstuckChunks = Some (chunks, effs)
    /\ Forall (fun c => UUC.piecesCompleted c = usedSlots c) chunks
    /\ UUC.pieceUsage <$> chunks = [[true; false; true]].
Proof.
  destruct (buildUnfinishedChunks (exampleRenter 3) [exampleEntry; exampleEntry]
              exampleHosts targetUnstuckChunks) as [[chunks effs]|] eqn:Hb;
    [|by vm_compute in Hb].
  exists chunks, effs. split; [done|]. split.
  - eapply Forall_impl; [exact (buildUnfinishedChunks_accounted _ _ _ _ _ _ Hb)|].
    intros c (Hc & _). exact Hc.
  - vm_compute in Hb. injection Hb as <- _. reflexivity.
Defined.

Lemma markPiece_keeps r pks pieceIndex c piece c' :
  markPiece r pks pieceIndex c piece = Some c' ->
  UUC.stuck c' = UUC.stuck c /\ UUC.id c' = UUC.id c
  /\ UUC.index c' = UUC.index c /\ UUC.stuckRepair c' = UUC.stuckRepair c.
Proof.
  unfold markPiece. intros H.
  repeat (case_match; simplify_option_eq); done.
Qed.

Lemma markPieceSet_keeps r pks pieceIndex pieceSet : forall c c',
  markPieceSet r pks pieceIndex pieceSet c = Some c' ->
  UUC.stuck c' = UUC.stuck c /\ UUC.id c' = UUC.id c
  /\ UUC.index c' = UUC.index c /\ UUC.stuckRepair c' = UUC.stuckRepair c.
Proof.
  induction pieceSet as [|piece rest IH]; intros c c' H; cbn in H.
  - by injection H as <-.
  - destruct (markPiece r pks pieceIndex c piece) as [c1|] eqn:H1; [|done].
    cbn in H. apply markPiece_keeps in H1 as (? & ? & ? & ?).
    apply IH in H as (? & ? & ? & ?). repeat split; congruence.
Qed.

Lemma markPieceSets_keeps r pks pieces : forall pieceIndex c c',
  markPieceSets r pks pieceIndex pieces c = Some c' ->
  UUC.stuck c' = UUC.stuck c /\ UUC.id c' = UUC.id c
  /\ UUC.index c' = UUC.index c /\ UUC.stuckRepair c' = UUC.stuckRepair c.
Proof.
  induction pieces as [|pieceSet rest IH]; intros pieceIndex c c' H; cbn in H.
  - by injection H as <-.
  - destruct (markPieceSet r pks pieceIndex pieceSet c) as [c1|] eqn:H1; [|done].
    cbn in H. apply markPieceSet_keeps in H1 as (? & ? & ? & ?).
    apply IH in H as (? & ? & ? & ?). repeat split; congruence.
Qed.

Lemma selectChunkIndexes_selected target entrys : forall i index,
  index ∈ (selectChunkIndexes target i entrys).1 ->
  exists entry, entry ∈ entrys
    /\ entrys !! (index - i)%nat = Some entry
    /\ StuckChunkByIndex entry index = bool_decide (target = targetStuckChunks).
Proof.
  induction entrys as [|entry rest IH]; intros i index; cbn.
  { intros H. by apply elem_of_nil in H. }
  pose proof (selectChunkIndexes_bounds target rest (S i) index) as Hb.
  specialize (IH (S i) index).
  destruct (selectChunkIndexes target (S i) rest) as [idx effs].
  assert (Hrest : index ∈ idx ->
            exists entry0, entry0 ∈ entry :: rest
              /\ (entry :: rest) !! (index - i)%nat = Some entry0
              /\ StuckChunkByIndex entry0 index = bool_decide (target = targetStuckChunks)).
  { intros Hin. destruct (IH Hin) as (entry0 & He & Hl & Hs).
    specialize (Hb Hin). exists entry0. split; [by right|]. split; [|done].
    replace (index - i)%nat with (S (index - S i))%nat by lia. done. }
  destruct (eqb _ _) eqn:Heq; cbn.
  - intros [->|Hin]%elem_of_cons; [|by apply Hrest].
    exists entry. split; [by left|]. rewrite Nat.sub_diag. split; [done|].
    apply eqb_prop in Heq. done.
  - exact Hrest.
Qed.

Lemma selectChunkIndexes_NoDup target entrys : forall i,
  NoDup (selectChunkIndexes target i entrys).1.
Proof.
  induction entrys as [|entry rest IH]; intros i; cbn; [constructor|].
  pose proof (selectChunkIndexes_bounds target rest (S i)) as Hb.
  specialize (IH (S i)).
  destruct (selectChunkIndexes target (S i) rest) as [idx effs].
  destruct (negb _); cbn; [done|].
  constructor; [|done]. intros Hin. specialize (Hb i Hin). cbn in Hb. lia.
Qed.

Lemma incompleteChunks_sublist chunks : forall i,
  (incompleteChunks i chunks).1 `sublist_of` chunks.
Proof.
  induction chunks as [|c rest IH]; intros i; cbn; [done|].
  specialize (IH (S i)). destruct (incompleteChunks (S i) rest) as [kept effs].
  destruct (UUC.piecesCompleted c <? UUC.piecesNeeded c); cbn.
  - by apply sublist_skip.
  - by apply sublist_cons.
Qed.

(** X23: when the entries are copies of the entry of one file,
    [buildUnfinishedChunks] returns only chunks of the kind asked for (stuck
    chunks for [targetStuckChunks], chunks that are not stuck otherwise), each
    with the id made of the file's UID and its chunk index, an index below
    the number of entries, and [stuckRepair] not set; no two of them have the
    same id, so [managedPush] never rejects one because of another. *)
Theorem buildUnfinishedChunks_target r file entrys hosts target chunks effs :
  copiesOf file entrys ->
  Z.of_nat (List.length entrys) <= 2 ^ 64 ->
  buildUnfinishedChunks r entrys hosts target = Some (chunks, effs) ->
  Forall (fun c =>
            UUC.stuck c = bool_decide (target = targetStuckChunks)
            /\ UUC.id c = {| fileUID := UID file; chunkIdx := UUC.index c |}
            /\ 0 <= UUC.index c < Z.of_nat (List.length entrys)
            /\ UUC.stuckRepair c = false) chunks
  /\ NoDup (UUC.id <$> chunks).
Proof.
  intros Hcopies Hlen Hbuild.
  destruct entrys as [|entry0 rest].
  { injection Hbuild as <- <-. split; constructor. }
  assert (Hfile : forall entry, entry ∈ entry0 :: rest -> entry = file).
  { intros entry He. unfold copiesOf in Hcopies.
    rewrite Forall_forall in Hcopies. by apply Hcopies. }
  assert (Hwrap : forall index,
    index ∈ (selectChunkIndexes target 0 (entry0 :: rest)).1 ->
    wrap64 (Z.of_nat index) = Z.of_nat index
    /\ 0 <= Z.of_nat index < Z.of_nat (List.length (entry0 :: rest))).
  { intros index Hin. apply selectChunkIndexes_bounds in Hin.
    split; [apply wrap64_small|]; lia. }
  split.
  - apply Forall_forall. intros c Hc.
    destruct (buildUnfinishedChunks_marked _ _ _ _ _ _ _ _ Hbuild Hc)
      as (index & entry & pieces & Hidx & Hentry & Hmark).
    apply markPieceSets_keeps in Hmark as (Hs & Hid & Hi & Hsr).
    rewrite Hs, Hid, Hi, Hsr.
    cbn [newUnfinishedChunk UUC.stuck UUC.id UUC.index UUC.stuckRepair].
    destruct (Hwrap index Hidx) as [Hw Hb]. rewrite Hw.
    rewrite (Hfile entry Hentry).
    destruct (selectChunkIndexes_selected _ _ _ _ Hidx) as (entry' & He' & _ & Hstuck).
    rewrite (Hfile entry' He') in Hstuck.
    split; [done|]. split; [done|]. split; [lia|done].
  - destruct (buildUnfinishedChunks_inv _ _ _ _ _ _ _ Hbuild)
      as [->|(chunks0 & effs2 & chunks' & Hnew & Hcnt & ->)]; [constructor|].
    eapply sublist_NoDup; [|apply fmap_sublist, incompleteChunks_sublist].
    apply newUnfinishedChunks_built in Hnew.
    apply countPieces_spec in Hcnt.
    set (idx := (selectChunkIndexes target 0 (entry0 :: rest)).1) in *.
    pose proof (Forall2_length _ _ _ Hnew) as Hl1.
    pose proof (Forall2_length _ _ _ Hcnt) as Hl2.
    rewrite length_zip_with in Hl2.
    assert (Hids : UUC.id <$> chunks'
                   = (fun index => {| fileUID := UID file;
                                      chunkIdx := Z.of_nat index |}) <$> idx).
    { apply list_eq. intros k. rewrite !list_lookup_fmap.
      destruct (chunks' !! k) as [c'|] eqn:Hk; cbn.
      - destruct (Forall2_lookup_r _ _ _ _ _ Hcnt Hk)
          as ([index c0] & Hzip & pieces & _ & Hmark).
        cbn in Hmark.
        apply lookup_zip_with_Some in Hzip as (index' & c0' & [= <- <-] & Hidx & Hc0).
        destruct (Forall2_lookup_l _ _ _ _ _ Hnew Hidx)
          as (c0' & Hc0' & entry & Hentry & ->).
        rewrite Hc0 in Hc0'. injection Hc0' as ->.
        apply markPieceSets_keeps in Hmark as (_ & Hid & _).
        rewrite Hidx. cbn. rewrite Hid. cbn.
        rewrite (Hfile entry Hentry).
        destruct (Hwrap index) as [-> _]; [by eapply list_elem_of_lookup_2|done].
      - apply lookup_ge_None in Hk.
        rewrite (proj2 (lookup_ge_None idx k)); [done|lia]. }
    rewrite Hids. apply NoDup_fmap_2_strong; [|apply selectChunkIndexes_NoDup].
    intros x y _ _ [= Heq]. lia.
Qed.

(** X23, witness: of the file "mixed", whose second chunk is stuck, the
    repair loop gets the chunks 0 and 2. *)
Lemma buildUnfinishedChunks_target_witness :
  exists chunks effs,
    buildUnfinishedChunks (exampleRenter 3) (replicate 3 mixedEntry) exampleHosts
                          targetUnstuckChunks = Some (chunks, effs)
    /\ UUC.index <$> chunks = [0; 2]
    /\ Forall (fun c => UUC.stuck c = false) chunks
    /\ NoDup (UUC.id <$> chunks).
Proof.
  destruct (buildUnfinishedChunks (exampleRenter 3) (replicate 3 mixedEntry)
              exampleHosts targetUnstuckChunks) as [[chunks effs]|] eqn:Hb;
    [|by vm_compute in Hb].
  exists chunks, effs. split; [done|].
  destruct (buildUnfinishedChunks_target (exampleRenter 3) mixedEntry
              (replicate 3 mixedEntry) exampleHosts targetUnstuckChunks chunks effs)
    as [Hall Hnd].
  - by repeat constructor.
  - cbn. lia.
  - exact Hb.
  - split; [|split; [|exact Hnd]].
    + vm_compute in Hb. injection Hb as <- _. reflexivity.
    + eapply Forall_impl; [exact Hall|]. intros c (Hs & _). exact Hs.
Defined.

End ChunkAccountingFacts.

(** * Facts about the chunks the download planner hands out *)
Section PlannedChunksFacts.
Import BuildChunks Download PlannedChunks.

Lemma pieceSet_map_spec i (pieceSet : list Piece) :
  forall (m : gmap string downloadPieceInfo) host info,
  foldl (fun m piece =>
           <[HostPubKey piece := {| pieceIndex := i; pieceRoot := MerkleRoot piece |}]> m)
        m pieceSet !! host = Some info ->
  m !! host = Some info
  \/ exists piece, piece ∈ pieceSet /\ HostPubKey piece = host
                   /\ info = {| pieceIndex := i; pieceRoot := MerkleRoot piece |}.
Proof.
  induction pieceSet as [|piece rest IH]; intros m host info H; cbn in H; [by left|].
  destruct (IH _ _ _ H) as [Hm|(piece' & Hin & Hh & Hi)].
  - destruct (decide (HostPubKey piece = host)) as [Heq|Hne].
    + rewrite <- Heq, lookup_insert_eq in Hm. injection Hm as <-.
      right. exists piece. split; [by left|done].
    + rewrite lookup_insert_ne in Hm by done. by left.
  - right. exists piece'. split; [by right|done].
Qed.

Lemma pieceSet_map_mono i (pieceSet : list Piece) : forall (m : gmap string downloadPieceInfo) host,
  is_Some (m !! host) ->
  is_Some (foldl (fun m piece =>
                    <[HostPubKey piece := {| pieceIndex := i;
                                              pieceRoot := MerkleRoot piece |}]> m)
                 m pieceSet !! host).
Proof.
  induction pieceSet as [|piece rest IH]; intros m host Hm; cbn; [done|].
  apply IH. destruct (decide (HostPubKey piece = host)) as [<-|Hne].
  - rewrite lookup_insert_eq. eauto.
  - by rewrite lookup_insert_ne.
Qed.

Lemma pieceSet_map_mem i (pieceSet : list Piece) : forall (m : gmap string downloadPieceInfo) piece,
  piece ∈ pieceSet ->
  is_Some (foldl (fun m piece =>
                    <[HostPubKey piece := {| pieceIndex := i;
                                              pieceRoot := MerkleRoot piece |}]> m)
                 m pieceSet !! HostPubKey piece).
Proof.
  induction pieceSet as [|piece0 rest IH]; intros m piece Hin; cbn.
  { by apply elem_of_nil in Hin. }
  apply elem_of_cons in Hin as [->|Hin]; [|by apply IH].
  apply pieceSet_map_mono. rewrite lookup_insert_eq. eauto.
Qed.

Lemma chunkMapOf_spec pieces : forall i (m : gmap string downloadPieceInfo) host info,
  chunkMapOf i pieces m !! host = Some info ->
  m !! host = Some info
  \/ exists k pieceSet piece,
      pieces !! k = Some pieceSet /\ piece ∈ pieceSet /\ HostPubKey piece = host
      /\ info = {| pieceIndex := i + k; pieceRoot := MerkleRoot piece |}.
Proof.
  induction pieces as [|pieceSet rest IH]; intros i m host info H; cbn in H; [by left|].
  destruct (IH _ _ _ _ H) as [Hm|(k & ps & piece & Hk & Hin & Hh & Hi)].
  - destruct (pieceSet_map_spec _ _ _ _ _ Hm) as [Hm'|(piece & Hin & Hh & Hi)];
      [by left|].
    right. exists 0%nat, pieceSet, piece. by rewrite Nat.add_0_r.
  - right. exists (S k), ps, piece.
    replace (i + S k)%nat with (S i + k)%nat by lia. done.
Qed.

Lemma chunkMapOf_mono pieces : forall i (m : gmap string downloadPieceInfo) host,
  is_Some (m !! host) -> is_Some (chunkMapOf i pieces m !! host).
Proof.
  induction pieces as [|pieceSet rest IH]; intros i m host Hm; cbn; [done|].
  apply IH. by apply pieceSet_map_mono.
Qed.

Lemma chunkMapOf_mem pieces : forall i (m : gmap string downloadPieceInfo) k pieceSet piece,
  pieces !! k = Some pieceSet -> piece ∈ pieceSet ->
  is_Some (chunkMapOf i pieces m !! HostPubKey piece).
Proof.
  induction pieces as [|pieceSet0 rest IH]; intros i m k pieceSet piece Hk Hin; [done|].
  cbn. destruct k as [|k]; cbn in Hk.
  - injection Hk as ->. apply chunkMapOf_mono. by apply pieceSet_map_mem.
  - by eapply IH.
Qed.

Lemma chunkMaps_lookup s count : forall i maps k chunkMap,
  chunkMaps s i count = Some maps ->
  maps !! k = Some chunkMap ->
  exists pieces,
    SnapshotPieces s (i + Z.of_nat k) = Some pieces
    /\ chunkMap = chunkMapOf 0 pieces ∅.
Proof.
  induction count as [|count IH]; intros i maps k chunkMap H Hk; cbn in H.
  { injection H as <-. done. }
  destruct (SnapshotPieces s i) as [pieces|] eqn:Hp; [|done]. cbn in H.
  destruct (chunkMaps s (i + 1) count) as [rest|] eqn:Hrest; [|done].
  cbn in H. injection H as <-.
  destruct k as [|k]; cbn in Hk.
  - injection Hk as <-. exists pieces. by rewrite Z.add_0_r.
  - destruct (IH _ _ _ _ Hrest Hk) as (pieces' & Hp' & Hc).
    exists pieces'. split; [|done].
    replace (i + Z.of_nat (S k)) with (i + 1 + Z.of_nat k) by lia. done.
Qed.

Lemma queueChunks_lookup params s minChunk maxChunk minOff maxOff maps : forall i w k udc,
  queueChunks params s minChunk maxChunk minOff maxOff i maps w !! k = Some udc ->
  exists chunkMap w',
    maps !! k = Some chunkMap
    /\ udc = newDownloadChunk params s minChunk maxChunk minOff maxOff
                               (i + Z.of_nat k) chunkMap w'.
Proof.
  induction maps as [|chunkMap rest IH]; intros i w k udc H; cbn in H; [done|].
  destruct k as [|k]; cbn in H.
  - injection H as <-. exists chunkMap, w. by rewrite Z.add_0_r.
  - destruct (IH _ _ _ _ H) as (cm & w' & Hcm & ->).
    exists cm, w'. split; [done|].
    by replace (i + Z.of_nat (S k)) with (i + 1 + Z.of_nat k) by lia.
Qed.

Lemma managedNewDownload_queued params s d chunks :
  file params = Some s ->
  managedNewDownload params = Ok (d, chunks) ->
  chunks = []
  \/ exists minChunk maxChunk minOff maxOff maps,
      chunkMaps s minChunk (Z.to_nat (maxChunk - minChunk + 1)) = Some maps
      /\ chunks = queueChunks params s minChunk maxChunk minOff maxOff minChunk maps 0.
Proof.
  intros Hfile. unfold managedNewDownload, ChunkIndexByOffset. rewrite Hfile.
  repeat (case_match; try done); intros [= <- <-]; eauto 10.
Qed.

Lemma slotsPerPiece_index n udc w :
  slotsPerPiece n udc ->
  (pieceIndex (WorkerDownload.lookupPiece udc w).1 < n)%nat.
Proof.
  intros (Hpos & _ & _ & _ & Hmap). unfold WorkerDownload.lookupPiece.
  destruct (UDC.staticChunkMap (UDC.st udc) !! staticHostPubKey w) as [info|] eqn:Hl.
  - cbn. by eapply Hmap.
  - cbn. done.
Qed.

(** A step of a worker on a chunk with one slot per piece does not index
    out of range, and leaves a chunk with one slot per piece. *)
Lemma step_slotsPerPiece n cfg st a :
  slotsPerPiece n (WorkerDownload.chunk st) ->
  exists st', WorkerDownload.step cfg st a = Some st'
              /\ slotsPerPiece n (WorkerDownload.chunk st').
Proof.
  intros Hslots.
  assert (Hidx := fun w => slotsPerPiece_index n _ w Hslots).
  destruct Hslots as (Hpos & Hc & Hu & Hd & Hmap).
  assert (Hkeep : forall udc,
            UDC.st udc = UDC.st (WorkerDownload.chunk st) ->
            List.length (UDC.completedPieces udc) = n ->
            List.length (UDC.pieceUsage udc) = n ->
            List.length (UDC.physicalChunkData udc) = n ->
            slotsPerPiece n udc).
  { intros udc Hst H1 H2 H3. unfold slotsPerPiece. rewrite Hst. done. }
  destruct a as [now dc w| |tgAdd w piece|w|]; cbn [WorkerDownload.step].
  - specialize (Hidx w).
    destruct (lookup_lt_is_Some_2 (UDC.completedPieces (WorkerDownload.chunk st))
                (pieceIndex (WorkerDownload.lookupPiece (WorkerDownload.chunk st) w).1)
                ltac:(lia)) as [b Hb].
    destruct (lookup_lt_is_Some_2 (UDC.pieceUsage (WorkerDownload.chunk st))
                (pieceIndex (WorkerDownload.lookupPiece (WorkerDownload.chunk st) w).1)
                ltac:(lia)) as [u Hu'].
    unfold WorkerDownload.ownedProcessDownloadChunk.
    destruct (WorkerDownload.lookupPiece (WorkerDownload.chunk st) w) as [pd hp].
    cbn [fst] in Hb, Hu'. rewrite Hb. cbn [mbind option_bind].
    destruct (_ || _ || _ || _ || _).
    { eexists. split; [reflexivity|]. by apply Hkeep. }
    rewrite Hu'. cbn [mbind option_bind].
    destruct (_ && _); eexists; (split; [reflexivity|]); apply Hkeep;
      try done.
    cbn [WorkerDownload.chunk WorkerDownload.withChunk fst
         WorkerDownload.registerPiece UDC.pieceUsage].
    by rewrite length_insert.
  - eexists. split; [reflexivity|]. by apply Hkeep.
  - specialize (Hidx w).
    destruct (lookup_lt_is_Some_2 (UDC.completedPieces (WorkerDownload.chunk st))
                (pieceIndex (WorkerDownload.lookupPiece (WorkerDownload.chunk st) w).1)
                ltac:(lia)) as [b Hb].
    destruct (lookup_lt_is_Some_2 (UDC.physicalChunkData (WorkerDownload.chunk st))
                (pieceIndex (WorkerDownload.lookupPiece (WorkerDownload.chunk st) w).1)
                ltac:(lia)) as [p Hp].
    unfold WorkerDownload.completePiece, WorkerDownload.markPieceCompleted,
      WorkerDownload.storePiece. cbv zeta.
    rewrite Hb.
    cbn [mbind option_bind WorkerDownload.decrementRegistered
         UDC.st UDC.physicalChunkData UDC.piecesCompleted].
    destruct (_ <=? _); [rewrite Hp|];
      cbn [mbind option_bind UDC.piecesCompleted UDC.st];
      destruct (_ =? _); eexists; (split; [reflexivity|]); apply Hkeep;
      cbn [WorkerDownload.chunk WorkerDownload.decrementRegistered UDC.st
           UDC.completedPieces UDC.pieceUsage UDC.physicalChunkData];
      rewrite ?length_insert; done.
  - specialize (Hidx w).
    destruct (lookup_lt_is_Some_2 (UDC.pieceUsage (WorkerDownload.chunk st))
                (pieceIndex (WorkerDownload.lookupPiece (WorkerDownload.chunk st) w).1)
                ltac:(lia)) as [u Hu'].
    unfold WorkerDownload.managedUnregisterWorker. cbv zeta. rewrite Hu'.
    cbn [mbind option_bind].
    eexists. split; [reflexivity|]. apply Hkeep; try done.
    cbn [WorkerDownload.chunk WorkerDownload.withChunk UDC.pieceUsage].
    by rewrite length_insert.
  - eexists. split; [reflexivity|]. by apply Hkeep.
Qed.

Lemma run_slotsPerPiece n cfg acts : forall st,
  slotsPerPiece n (WorkerDownload.chunk st) ->
  exists st', WorkerDownload.run cfg st acts = Some st'
              /\ slotsPerPiece n (WorkerDownload.chunk st').
Proof.
  induction acts as [|a acts IH]; intros st Hslots; cbn [WorkerDownload.run].
  - eauto.
  - destruct (step_slotsPerPiece n cfg st a Hslots) as (st1 & -> & Hslots1).
    cbn. by apply IH.
Qed.

(** X24: the chunks [managedNewDownload] hands out for a snapshot whose
    chunks have no more piece sets than the erasure code has pieces are
    well-formed for the workers: [completedPieces], [pieceUsage] and
    [physicalChunkData] have one slot for each of the [NumPieces] pieces of
    the erasure code, all unset, and every entry of the chunk map points to a
    slot; nothing is completed or registered.  No sequence of steps that
    workers take on such a chunk (registering, completing and storing a
    piece, unregistering) indexes one of the slices out of range, and the
    slices keep their [NumPieces] slots.  Every entry of a chunk's map names
    a piece of its host: the piece set at the entry's index holds a piece of
    that host with the entry's root; and every host that holds a piece of
    the chunk has an entry. *)
Theorem managedNewDownload_chunks_wellFormed params s d chunks :
  file params = Some s ->
  fitsErasureCode s ->
  managedNewDownload params = Ok (d, chunks) ->
  let N := Z.to_nat (staticNumPieces s) in
  Forall (fun udc =>
    WorkerDownload.wellFormed udc
    /\ UDC.completedPieces udc = replicate N false
    /\ UDC.pieceUsage udc = replicate N false
    /\ UDC.physicalChunkData udc = replicate N None
    /\ slotsPerPiece N udc
    /\ (forall cfg st acts,
          WorkerDownload.chunk st = udc ->
          exists st', WorkerDownload.run cfg st acts = Some st'
                      /\ slotsPerPiece N (WorkerDownload.chunk st'))
    /\ (forall cfg now downloadComplete w,
          is_Some (WorkerDownload.ownedProcessDownloadChunk
                     cfg now downloadComplete w udc))
    /\ UDC.piecesCompleted udc = 0 /\ UDC.piecesRegistered udc = 0
    /\ exists pieces,
        SnapshotPieces s (chunkIndexOf udc) = Some pieces
        /\ (forall host info,
              UDC.staticChunkMap (UDC.st udc) !! host = Some info ->
              namesPiece pieces host info)
        /\ (forall pieceSet piece,
              pieceSet ∈ pieces -> piece ∈ pieceSet ->
              is_Some (UDC.staticChunkMap (UDC.st udc) !! HostPubKey piece)))
    chunks.
Proof.
  intros Hfile [Hnum Hfit] Hnew N.
  destruct (managedNewDownload_queued _ _ _ _ Hfile Hnew)
    as [->|(minChunk & maxChunk & minOff & maxOff & maps & Hmaps & ->)]; [constructor|].
  apply Forall_lookup. intros k udc Hk.
  destruct (queueChunks_lookup _ _ _ _ _ _ _ _ _ _ _ Hk) as (chunkMap & w' & Hcm & ->).
  destruct (chunkMaps_lookup _ _ _ _ _ _ Hmaps Hcm) as (pieces & Hp & ->).
  assert (Hlen : (List.length pieces <= Z.to_nat (staticNumPieces s))%nat).
  { unfold SnapshotPieces in Hp. destruct (_ <? 0); [done|].
    rewrite Forall_forall in Hfit. apply Hfit. by eapply list_elem_of_lookup_2. }
  assert (Hindex : forall host info,
            chunkMapOf 0 pieces ∅ !! host = Some info -> (pieceIndex info < N)%nat).
  { intros host info Hinfo.
    destruct (chunkMapOf_spec _ _ _ _ _ Hinfo)
      as [Hempty|(j & ps & piece & Hj & _ & _ & ->)]; [done|].
    cbn. apply lookup_lt_Some in Hj. unfold N. lia. }
  assert (Hwf : WorkerDownload.wellFormed
                  (newDownloadChunk params s minChunk maxChunk minOff maxOff
                     (minChunk + Z.of_nat k) (chunkMapOf 0 pieces ∅) w')).
  { unfold WorkerDownload.wellFormed. cbn. rewrite !length_replicate.
    split; [lia|]. split; [done|]. exact Hindex. }
  assert (Hslots : slotsPerPiece N
                  (newDownloadChunk params s minChunk maxChunk minOff maxOff
                     (minChunk + Z.of_nat k) (chunkMapOf 0 pieces ∅) w')).
  { unfold slotsPerPiece. cbn. rewrite !length_replicate.
    split; [unfold N; lia|]. repeat (split; [done|]). exact Hindex. }
  split; [exact Hwf|].
  split; [done|]. split; [done|]. split; [done|]. split; [exact Hslots|].
  split.
  { intros cfg st acts Hst. apply run_slotsPerPiece. by rewrite Hst. }
  split; [intros; by apply ownedProcessDownloadChunk_total|].
  split; [done|]. split; [done|].
  - exists pieces. split; [exact Hp|]. split.
    + intros host info Hinfo. cbn in Hinfo.
      destruct (chunkMapOf_spec _ _ _ _ _ Hinfo)
        as [Hempty|(j & ps & piece & Hj & Hin & Hh & ->)]; [done|].
      exists ps, piece. done.
    + intros pieceSet piece [j Hj]%list_elem_of_lookup Hin. cbn.
      by eapply chunkMapOf_mem.
Qed.

(** X24, witness: the two chunks planned for the first 80 bytes of the
    example file have three slots in each slice. *)
Lemma managedNewDownload_chunks_wellFormed_witness :
  exists d chunks,
    managedNewDownload boundaryParams = Ok (d, chunks)
    /\ List.length chunks = 2%nat
    /\ Forall (fun udc => UDC.physicalChunkData udc = [None; None; None]
                          /\ slotsPerPiece 3 udc) chunks.
Proof.
  destruct (managedNewDownload boundaryParams) as [[d chunks]| |] eqn:Hnew;
    [|by vm_compute in Hnew..].
  exists d, chunks. split; [done|]. split.
  - vm_compute in Hnew. injection Hnew as _ <-. reflexivity.
  - eapply Forall_impl.
    + apply (managedNewDownload_chunks_wellFormed boundaryParams
               (exampleSnapshot 100 3) d chunks eq_refl); [|exact Hnew].
      split; [cbn; lia|]. repeat constructor.
    + intros udc (_ & _ & _ & Hdata & Hslots & _). split; [exact Hdata|exact Hslots].
Defined.

End PlannedChunksFacts.

(** * Facts about the parameters of a download *)
Section DownloadParameterFacts.
Import BuildChunks Download PlannedChunks.

(** X25: the renter's [managedDownload] accepts a request only if it names a
    known file, writes either to the http response (then without a
    destination and not asynchronously) or to a destination given by an
    absolute path that can be opened, and asks for bytes of the file: the
    download starts at [Offset], its length is [Length], or the rest of the
    file when [Length] is 0, it ends within the file, and [Offset] lies
    before the end of a file that is not empty.  (Offset and length are
    uint64 values whose sum does not wrap around.) *)
Theorem managedDownload_accepts_valid env p d chunks :
  0 <= Offset p < 2 ^ 64 -> 0 <= Length p < 2 ^ 64 ->
  Offset p + Length p < 2 ^ 64 ->
  managedDownload env p = Ok (d, chunks) ->
  exists entry,
    openFile env (SiaPath p) = Some entry
    /\ (if Httpwriter p
        then Destination p = "" /\ Async p = false
             /\ staticDestinationType d = "http stream"
        else Destination p <> "" /\ isAbs (Destination p) = true
             /\ openDestination env (Destination p) = true
             /\ staticDestinationType d = "file")
    /\ staticOffset d = Offset p
    /\ (0 <= entrySize entry < 2 ^ 64 ->
        staticLength d = (if Length p =? 0 then entrySize entry - Offset p else Length p)
        /\ staticOffset d + staticLength d <= entrySize entry
        /\ (Offset p < entrySize entry \/ entrySize entry = 0)).
Proof.
  intros Hoff Hlen Hsum. unfold managedDownload.
  destruct (openFile env (SiaPath p)) as [entry|]; [|done].
  intros H. exists entry. split; [done|].
  destruct (Async p && Httpwriter p) eqn:H1; [done|].
  destruct (Httpwriter p && negb (String.eqb (Destination p) "")) eqn:H2; [done|].
  destruct (negb (Httpwriter p) && String.eqb (Destination p) "") eqn:H3; [done|].
  destruct (negb (String.eqb (Destination p) "") && negb (isAbs (Destination p))) eqn:H4;
    [done|].
  destruct ((Offset p =? entrySize entry) && negb (entrySize entry =? 0)) eqn:H5; [done|].
  destruct ((Length p =? 0) && (entrySize entry <? Offset p)) eqn:H6; [done|].
  destruct ((Offset p <? 0) || (entrySize entry <? wrap64 (Offset p + _))) eqn:H7; [done|].
  destruct (negb (Httpwriter p) && negb (openDestination env (Destination p))) eqn:H8;
    [done|].
  destruct (entrySnapshot entry) as [snap|]; [|done].
  destruct (managedNewDownload _) as [[d0 chunks0]| |] eqn:Hnew; [|done|done].
  injection H as <- <-.
  assert (Hd0 : staticDestinationType d0 = (if Httpwriter p then "http stream" else "file")
                /\ staticOffset d0 = Offset p
                /\ staticLength d0 = (if Length p =? 0
                                      then wrap64 (entrySize entry - Offset p)
                                      else Length p)).
  { revert Hnew. unfold managedNewDownload, ChunkIndexByOffset. cbn.
    repeat (case_match; try done); intros [= <- <-]; done. }
  destruct Hd0 as (Hty & Hso & Hsl). cbn.
  split.
  - destruct (Httpwriter p) eqn:Hw; cbn in *.
    + destruct (String.eqb (Destination p) "") eqn:Hdest; [|done].
      apply String.eqb_eq in Hdest. rewrite andb_true_r in H1. done.
    + destruct (String.eqb (Destination p) "") eqn:Hdest; [done|].
      apply String.eqb_neq in Hdest. cbn in H4.
      destruct (isAbs (Destination p)); [|done].
      destruct (openDestination env (Destination p)); [|done]. done.
  - split; [done|]. intros Hsize.
    rewrite Hso, Hsl.
    apply orb_false_elim in H7 as [_ H7]. apply Z.ltb_ge in H7.
    destruct (Length p =? 0) eqn:HL.
    + apply Z.eqb_eq in HL. rewrite HL in *. cbn in H6. apply Z.ltb_ge in H6.
      rewrite (wrap64_small (entrySize entry - Offset p)) in * by lia.
      split; [done|]. split; [lia|].
      destruct (Offset p =? entrySize entry) eqn:Heq; [|apply Z.eqb_neq in Heq; lia].
      cbn in H5. apply negb_false_iff, Z.eqb_eq in H5. by right.
    + apply Z.eqb_neq in HL.
      rewrite (wrap64_small (Offset p + Length p)) in H7 by lia.
      split; [done|]. split; [lia|]. left. lia.
Qed.

(** X25, witness: the rest of a file of 100 bytes from byte 20 on. *)
Lemma managedDownload_accepts_valid_witness :
  exists d chunks,
    managedDownload (oneFileEnv "file" 100 (exampleSnapshot 100 3)) (restOfFile "file")
    = Ok (d, chunks)
    /\ staticOffset d = 20 /\ staticLength d = 80.
Proof.
  destruct (managedDownload (oneFileEnv "file" 100 (exampleSnapshot 100 3))
              (restOfFile "file")) as [[d chunks]| |] eqn:Hmd;
    [|by vm_compute in Hmd..].
  exists d, chunks. split; [done|].
  destruct (managedDownload_accepts_valid
              (oneFileEnv "file" 100 (exampleSnapshot 100 3)) (restOfFile "file")
              d chunks
              ltac:(cbn [Offset Length restOfFile]; lia)
              ltac:(cbn [Offset Length restOfFile]; lia)
              ltac:(cbn [Offset Length restOfFile]; lia) Hmd)
    as (entry & Hopen & _ & Hoff & Hrest).
  vm_compute in Hopen. injection Hopen as <-.
  destruct Hrest as (Hlen & _); [cbn; lia|].
  split; [exact Hoff|exact Hlen].
Defined.

(** X26: [managedNewDownload] compares [offset + length] with the size of
    the file in uint64 arithmetic.  A request whose offset lies more than a
    chunk beyond the last chunk and whose [offset + length] wraps around to
    a value within the file passes both boundary checks; the first chunk is
    then behind the last one, and the call ends in the panic of
    [make([]map[string]downloadPieceInfo, maxChunk-minChunk+1)], whose
    length, for chunks of four bytes or more, is beyond what a slice can
    have. *)
Theorem managedNewDownload_wrapped_range_panics params s :
  file params = Some s ->
  4 <= ChunkSize s -> 0 < NumChunks s ->
  Size s <= NumChunks s * ChunkSize s ->
  (NumChunks s + 1) * ChunkSize s <= offset params < 2 ^ 64 ->
  0 < length params < 2 ^ 64 ->
  2 ^ 64 <= offset params + length params ->
  offset params + length params - 2 ^ 64 <= Size s ->
  managedNewDownload params = Panic.
Proof.
  intros Hfile Hcs Hn Hsize Hoff Hlen Hwrap Hend.
  assert (Hw : wrap64 (offset params + length params)
               = offset params + length params - 2 ^ 64).
  { unfold wrap64. symmetry.
    apply (Z.mod_unique_pos _ _ 1); lia. }
  set (cs := ChunkSize s) in *. set (n := NumChunks s) in *.
  set (e := offset params + length params - 2 ^ 64) in *.
  assert (Hmin : n + 1 <= offset params / cs).
  { apply Z.div_le_lower_bound; lia. }
  assert (He0 : 0 <= e) by lia.
  assert (Hmax : 0 <= e / cs <= n).
  { split; [apply Z.div_pos; lia|].
    apply Z.div_le_upper_bound; lia. }
  assert (Hmaxn : e / cs = n -> e mod cs = 0 /\ 0 < e / cs).
  { intros Heq. pose proof (Z.div_mod e cs ltac:(lia)) as Hdm.
    pose proof (Z.mod_pos_bound e cs ltac:(lia)). nia. }
  unfold managedNewDownload. rewrite Hfile.
  replace (length params <? 0) with false by (symmetry; apply Z.ltb_ge; lia).
  replace (offset params <? 0) with false by (symmetry; apply Z.ltb_ge; lia).
  rewrite Hw.
  replace (Size s <? e) with false by (symmetry; apply Z.ltb_ge; lia).
  cbn [onComplete staticLength complete].
  replace (length params =? 0) with false by (symmetry; apply Z.eqb_neq; lia).
  fold cs.
  replace (cs =? 0) with false by (symmetry; apply Z.eqb_neq; lia).
  unfold ChunkIndexByOffset. fold cs n.
  set (maxChunk := if (0 <? e / cs) && (e mod cs =? 0) then e / cs - 1 else e / cs).
  assert (Hne : maxChunk <> n).
  { subst maxChunk. destruct ((0 <? e / cs) && (e mod cs =? 0)) eqn:Hadj; [lia|].
    intros Heq. destruct (Hmaxn Heq) as [Hm Hp].
    apply andb_false_iff in Hadj as [Hadj|Hadj]; [apply Z.ltb_ge in Hadj|apply Z.eqb_neq in Hadj]; lia. }
  assert (Hlt : maxChunk < offset params / cs).
  { subst maxChunk. destruct (_ && _); lia. }
  replace (offset params / cs =? n) with false by (symmetry; apply Z.eqb_neq; lia).
  replace (maxChunk =? n) with false by (symmetry; apply Z.eqb_neq; lia).
  cbn [orb].
  replace (maxChunk <? offset params / cs) with true by (symmetry; apply Z.ltb_lt; lia).
  assert (Hmin4 : offset params / cs < 2 ^ 62).
  { apply Z.div_lt_upper_bound; lia. }
  assert (Hmax0 : 0 <= maxChunk <= n).
  { subst maxChunk. destruct ((0 <? e / cs) && (e mod cs =? 0)) eqn:Hadj; [|lia].
    apply andb_true_iff in Hadj as [Hadj _]. apply Z.ltb_lt in Hadj. lia. }
  assert (Hlength : wrap64 (maxChunk - offset params / cs + 1)
                    = 2 ^ 64 + (maxChunk - offset params / cs + 1)).
  { unfold wrap64. symmetry. apply (Z.mod_unique_pos _ _ (-1)); lia. }
  cbv zeta. rewrite Hlength.
  by replace (2 ^ 63 <=? 2 ^ 64 + (maxChunk - offset params / cs + 1)) with true
    by (symmetry; apply Z.leb_le; lia).
Qed.

(** X26, witness: three bytes from offset 2^64 - 1 of the example file. *)
Lemma managedNewDownload_wrapped_range_panics_witness :
  managedNewDownload wrappedParams = Panic.
Proof.
  apply (managedNewDownload_wrapped_range_panics wrappedParams (exampleSnapshot 100 3)
           eq_refl);
    vm_compute; repeat split; solve [reflexivity | discriminate].
Defined.

End DownloadParameterFacts.

(** ** Facts about [managedBuildChunkHeap] *)
Section BuildChunkHeapFacts.
Import UploadHeap BuildChunks BuildAndPush BuildChunkHeap.

Lemma openFiles_balance env target fileinfos evs files :
  openFiles env target fileinfos = (evs, Some files) ->
  opened evs ≡ₚ closed evs ++ files.*1.
Proof.
  revert evs files.
  induction fileinfos as [|fi rest IH]; intros evs files; cbn [openFiles].
  - by intros [= <- <-].
  - destruct (skipped env fi); [apply IH|].
    destruct (fileSetOpen env (siaPath env fi)) as [file|]; [|done].
    destruct (openFiles env target rest) as [evs0 [files0|]].
    + specialize (IH _ _ eq_refl).
      destruct (unneeded env target file); intros [= <- <-]; cbn.
      * by constructor.
      * rewrite IH. by rewrite Permutation_middle.
    + destruct (unneeded env target file); intros [= _ ?]; done.
Qed.

Lemma openFiles_total env target fileinfos :
  Forall (fun fi => skipped env fi = false -> is_Some (fileSetOpen env (siaPath env fi)))
         fileinfos ->
  exists evs files, openFiles env target fileinfos = (evs, Some files).
Proof.
  induction 1 as [|fi rest Hfi _ IH]; cbn [openFiles]; [by eauto|].
  destruct IH as (evs & files & IH).
  destruct (skipped env fi); [by eauto|].
  destruct (Hfi eq_refl) as [file ->]. rewrite IH.
  destruct (unneeded env target file); cbn; eauto.
Qed.

Lemma opened_closes (paths : list string) : opened (EvClose <$> paths) = [].
Proof. induction paths; [done|]. cbn. done. Qed.

Lemma closed_closes (paths : list string) : closed (EvClose <$> paths) = paths.
Proof. induction paths as [|p paths IH]; [done|]. cbn. by f_equal. Qed.

Lemma openFiles_fail env target pre fi post :
  Forall (fun f => skipped env f = false -> is_Some (fileSetOpen env (siaPath env f)))
         pre ->
  skipped env fi = false ->
  fileSetOpen env (siaPath env fi) = None ->
  exists evs,
    openFiles env target (pre ++ fi :: post) = (evs, None)
    /\ (forall f, f ∈ pre -> skipped env f = false -> EvOpen (siaPath env f) ∈ evs)
    /\ (forall p, EvClose p ∈ evs ->
          exists file, fileSetOpen env p = Some file
                       /\ unneeded env target file = true).
Proof.
  intros Hpre Hfi Hopen.
  induction Hpre as [|f pre Hf _ IH]; cbn [app openFiles].
  - rewrite Hfi, Hopen. exists []. split; [done|].
    split; [by intros f ?%elem_of_nil|by intros p ?%elem_of_nil].
  - destruct IH as (evs & -> & Hop & Hcl).
    destruct (skipped env f) eqn:Hskip.
    + exists evs. split; [done|]. split; [|done].
      intros f' [->|Hin]%elem_of_cons Hs; [congruence|by apply Hop].
    + destruct (Hf eq_refl) as [file Hfile]. rewrite Hfile.
      destruct (unneeded env target file) eqn:Hun; eexists; (split; [reflexivity|]); split.
      * intros f' [->|Hin]%elem_of_cons Hs; [by left|]. do 2 right. by apply Hop.
      * intros p [?|[Heq|Hin]%elem_of_cons]%elem_of_cons; [done| |by apply Hcl].
        injection Heq as ->. eauto.
      * intros f' [->|Hin]%elem_of_cons Hs; [by left|]. right. by apply Hop.
      * intros p [?|Hin]%elem_of_cons; [done|by apply Hcl].
Qed.

(** X28: when every sia file of the directory can be opened,
    [managedBuildChunkHeap] closes what it opens: the sia paths it closed are
    those it opened, each as often as it was opened, whatever the target and
    whether or not any chunk was built. *)
Theorem managedBuildChunkHeap_closes_opened
    r copyEntry randFile randChunk env hosts target uh fileinfos uh' evs :
  ReadDir env = Some fileinfos ->
  Forall (fun fi => skipped env fi = false -> is_Some (fileSetOpen env (siaPath env fi)))
         fileinfos ->
  managedBuildChunkHeap r copyEntry randFile randChunk env hosts target uh
    = Some (uh', evs) ->
  closed evs ≡ₚ opened evs.
Proof.
  intros Hdir Hopen. unfold managedBuildChunkHeap. rewrite Hdir.
  destruct (openFiles_total env target fileinfos Hopen) as (evs0 & files & Hfiles).
  rewrite Hfiles. pose proof (openFiles_balance _ _ _ _ _ Hfiles) as Hbal.
  destruct (List.length files =? 0)%nat eqn:Hlen.
  - apply Nat.eqb_eq in Hlen. destruct files; [|done].
    intros [= _ <-]. rewrite Hbal. cbn. by rewrite app_nil_r.
  - intros Hrun. apply bind_Some in Hrun as (uh1 & _ & [= _ <-]).
    unfold opened, closed in *. rewrite !omap_app.
    fold (opened (EvClose <$> files.*1)). fold (closed (EvClose <$> files.*1)).
    rewrite opened_closes, closed_closes, app_nil_r. by rewrite Hbal.
Qed.

(** X28, witness: the example directory is built for a repair of unstuck
    chunks; the three files are opened and closed and three chunks are
    pushed. *)
Lemma managedBuildChunkHeap_closes_opened_witness :
  exists uh evs,
    managedBuildChunkHeap (exampleRenter 3) exampleCopies (fun _ => 0%nat)
      (fun _ => 0%nat) (exampleDir true) exampleHosts targetUnstuckChunks emptyHeap
    = Some (uh, evs)
    /\ List.length (heap uh) = 3%nat
    /\ opened evs = ["file"; "complete"; "other"]
    /\ closed evs ≡ₚ opened evs.
Proof.
  eexists _, _. split; [vm_compute; reflexivity|].
  split; [reflexivity|]. split; [reflexivity|].
  eapply (managedBuildChunkHeap_closes_opened (exampleRenter 3) exampleCopies
            (fun _ => 0%nat) (fun _ => 0%nat) (exampleDir true) exampleHosts
            targetUnstuckChunks emptyHeap).
  - reflexivity.
  - repeat (constructor; [intros H; first [by vm_compute in H|vm_compute; eauto]|]).
    constructor.
  - vm_compute. reflexivity.
Defined.

(** X29: when [Open] fails for a sia file of the directory,
    [managedBuildChunkHeap] returns with the heap as it was, and the files it
    opened before stay open unless they were unneeded: every sia file in
    front of the failing one was opened, and the only files closed are those
    closed at once as unneeded for the target. *)
Theorem managedBuildChunkHeap_open_error
    r copyEntry randFile randChunk env hosts target uh pre fi post :
  ReadDir env = Some (pre ++ fi :: post) ->
  Forall (fun f => skipped env f = false -> is_Some (fileSetOpen env (siaPath env f)))
         pre ->
  skipped env fi = false ->
  fileSetOpen env (siaPath env fi) = None ->
  exists evs,
    managedBuildChunkHeap r copyEntry randFile randChunk env hosts target uh
      = Some (uh, evs)
    /\ (forall f, f ∈ pre -> skipped env f = false -> EvOpen (siaPath env f) ∈ evs)
    /\ (forall p, EvClose p ∈ evs ->
          exists file, fileSetOpen env p = Some file
                       /\ unneeded env target file = true).
Proof.
  intros Hdir Hpre Hfi Hopen.
  destruct (openFiles_fail env target pre fi post Hpre Hfi Hopen)
    as (evs & Hrun & Hop & Hcl).
  exists evs. unfold managedBuildChunkHeap. rewrite Hdir, Hrun. done.
Qed.

(** X29, witness: "other" cannot be opened; "file" was opened before and is
    not closed. *)
Lemma managedBuildChunkHeap_open_error_witness :
  exists evs,
    managedBuildChunkHeap (exampleRenter 3) exampleCopies (fun _ => 0%nat)
      (fun _ => 0%nat) (exampleDir false) exampleHosts targetUnstuckChunks emptyHeap
    = Some (emptyHeap, evs)
    /\ EvOpen "file" ∈ evs
    /\ (EvClose "file" ∉ evs).
Proof.
  destruct (managedBuildChunkHeap_open_error (exampleRenter 3) exampleCopies
              (fun _ => 0%nat) (fun _ => 0%nat) (exampleDir false) exampleHosts
              targetUnstuckChunks emptyHeap
              [ {| Name := "file.sia"; IsDir := false |};
                {| Name := "sub"; IsDir := true |};
                {| Name := "complete.sia"; IsDir := false |} ]
              {| Name := "other.sia"; IsDir := false |} [] eq_refl)
    as (evs & Hrun & Hop & Hcl).
  - repeat (constructor; [intros H; first [by vm_compute in H|vm_compute; eauto]|]).
    constructor.
  - reflexivity.
  - reflexivity.
  - exists evs. split; [exact Hrun|]. split.
    + apply (Hop {| Name := "file.sia"; IsDir := false |}); [by left|reflexivity].
    + intros (file & Hfile & Hun)%Hcl.
      vm_compute in Hfile. injection Hfile as <-. vm_compute in Hun. discriminate.
Defined.

End BuildChunkHeapFacts.
